(** * DSA Learning Hub: the algorithms behind the animated modules

    Each module of the application re-implements one textbook algorithm and
    drives it with timers. This development embeds the algorithmic part of
    every module (the callbacks that the timers fire, in the order in which
    the event loop runs them) and states the properties of the
    specification about them.

    Conventions of the embedding:
    - a JavaScript number that holds an integer is the [Z] it holds, and
      NaN is [None]; a sum or a difference of the source is the exact one
      rounded to the nearest double, ties to even ([Js.to_double]), so it is
      exact up to 2^53 in magnitude and rounds above; plus and minus
      [Js.INFINITY], the value 2^1024 that this rounding gives to what
      exceeds the finite range, stand for the two infinities; the sign of
      zero, which no operation of the modules observes, is not kept;
    - a text is the [string] of the bytes of its UTF-8 encoding, as a string
      literal of this file is: an ASCII character is one byte, the
      no-break space U+00A0 is the two bytes 194, 160;
    - an array is a [list]; a read [a[i]] is [js_get a i], which is [None]
      (JavaScript's [undefined]) outside the array;
    - React state is a record; a handler is a function from the state it
      closed over, and the current state, to the next state;
    - a chain of timer callbacks is a recursive function with a fuel
      argument; every claim that a loop ends is proved as "the fuel the
      model passes is enough". *)

From Stdlib Require Import ZArith List Lia Bool String Ascii Sorted Permutation.
From Stdlib Require Import FunInd Recdef.
From stdpp Require Import base list gmap strings sorting pretty.
Import ListNotations.

(** ** JavaScript values shared by the modules *)

Module Js.

Local Open Scope Z_scope.

(** [a[i]] for a number [i]: [undefined] when [i] is negative or past the
    end. *)
Definition js_get {A} (a : list A) (i : Z) : option A :=
  if i <? 0 then None else a !! Z.to_nat i.

(** [x === y] where [x] may be [undefined] and [y] is a number. *)
Definition strict_eq (x : option Z) (y : Z) : bool :=
  match x with
  | Some v => v =? y
  | None => false
  end.

(** [x < y] where [x] may be [undefined] (which converts to NaN, so the
    comparison is false). *)
Definition js_lt (x : option Z) (y : Z) : bool :=
  match x with
  | Some v => v <? y
  | None => false
  end.

(** [a.length] as a number. *)
Definition len {A} (a : list A) : Z := Z.of_nat (length a).

(** [Infinity], as an integer: the first power of two past the finite
    doubles. *)
Definition INFINITY : Z := 2 ^ 1024.

(** The double nearest to the integer [z], ties to the even significand of
    53 bits: the number that holds the result of an operation whose exact
    result is [z]. Past the largest finite double it is an infinity. *)
Definition to_double (z : Z) : Z :=
  let a := Z.abs z in
  let e := Z.log2 a - 52 in
  let rounded :=
    if e <=? 0 then a
    else
      let q := a / 2 ^ e in
      let rest := a mod 2 ^ e in
      let half := 2 ^ (e - 1) in
      if (rest <? half) || ((rest =? half) && Z.even q)
      then q * 2 ^ e else (q + 1) * 2 ^ e in
  Z.sgn z * Z.min rounded INFINITY.

Definition is_infinite (z : Z) : bool := INFINITY <=? Z.abs z.

(** [x + y] on numbers; [None] is NaN, the sum of the two infinities. *)
Definition number_add (x y : Z) : option Z :=
  if is_infinite x then
    if is_infinite y && negb (Z.sgn x =? Z.sgn y) then None else Some x
  else if is_infinite y then Some y
  else Some (to_double (x + y)).

(** [x - y] on numbers. *)
Definition number_sub (x y : Z) : option Z := number_add x (- y).

(** The names that every plain object answers to because it inherits them
    from [Object.prototype]: for these [obj[name]] is not [undefined] even
    when [obj] has no such key of its own. *)
Definition OBJECT_PROTOTYPE_NAMES : list string :=
  ["constructor"; "hasOwnProperty"; "isPrototypeOf"; "propertyIsEnumerable";
   "toLocaleString"; "toString"; "valueOf"; "__proto__";
   "__defineGetter__"; "__defineSetter__"; "__lookupGetter__";
   "__lookupSetter__"]%string.

End Js.

(** ** BinarySearchModule.tsx *)

Module BinarySearch.

Import Js.
Local Open Scope Z_scope.

(** The array the module searches; it is created once and has no setter. *)
Definition sortedArray : list Z :=
  [10; 25; 38; 45; 52; 67; 78; 89; 95; 110; 125; 140; 155; 170; 185; 200].

(** Entries of the execution log (the source formats them as text). *)
Inductive log_entry :=
| LogSearching (target : Z)
| LogStep (stepCount l h m : Z) (v : option Z)
| LogFound (target m stepCount : Z)
| LogNotFound (stepCount : Z)
| LogRightHalf (m : Z)
| LogLeftHalf (m : Z).

(** One call of a React state setter. *)
Inductive ui_event :=
| SetIsSearching (b : bool)
| SetFound (b : bool)
| SetLow (v : Z)
| SetHigh (v : Z)
| SetMid (v : option Z)
| SetSteps (v : Z)
| Log (e : log_entry).

(** How a run of [search] ends. *)
Inductive outcome :=
| Found (m : Z) (stepCount : Z)
| NotFound (stepCount : Z).

Definition steps_of (r : outcome) : Z :=
  match r with
  | Found _ s => s
  | NotFound s => s
  end.

(** The closure [search] of [runBinarySearch] together with the timeout
    callback that moves [l] or [h] and calls [search] again. [l], [h] and
    [stepCount] are the mutable locals of [runBinarySearch]. The result is
    the setter calls in the order they are made and the outcome, [None]
    when the fuel ran out first. *)
Fixpoint search (fuel : nat) (arr : list Z) (target : Z) (l h stepCount : Z)
  : list ui_event * option outcome :=
  match fuel with
  | O => ([], None)
  | S fuel' =>
      if h <? l then
        ([Log (LogNotFound stepCount); SetIsSearching false],
         Some (NotFound stepCount))
      else
        let stepCount := stepCount + 1 in
        let m := l + (h - l) / 2 in
        let shown :=
          [SetSteps stepCount; SetMid (Some m); SetLow l; SetHigh h;
           Log (LogStep stepCount l h m (js_get arr m))] in
        if strict_eq (js_get arr m) target then
          (shown ++ [SetFound true; Log (LogFound target m stepCount);
                     SetIsSearching false],
           Some (Found m stepCount))
        else if js_lt (js_get arr m) target then
          let '(evs, r) := search fuel' arr target (m + 1) h stepCount in
          (shown ++ Log (LogRightHalf m) :: evs, r)
        else
          let '(evs, r) := search fuel' arr target l (m - 1) stepCount in
          (shown ++ Log (LogLeftHalf m) :: evs, r)
  end.

(** [runBinarySearch]: the setter calls of the click handler, then the
    search from [l = 0], [h = length - 1]. Every iteration removes at least
    one index from [l..h], so [length + 1] calls are all the loop can make. *)
Definition runBinarySearch (arr : list Z) (target : Z)
  : list ui_event * option outcome :=
  let '(evs, r) := search (S (length arr)) arr target 0 (len arr - 1) 0 in
  ([SetIsSearching true; SetFound false; SetLow 0; SetHigh (len arr - 1);
    SetMid None; SetSteps 0; Log (LogSearching target)] ++ evs, r).

(** The part of the component state that the bounds are drawn from. *)
Record display := { low : Z; high : Z; mid : option Z }.

(** The values of [useState] at mount; [reset] restores them. *)
Definition initial_display (arr : list Z) : display :=
  {| low := 0; high := len arr - 1; mid := None |}.

Definition apply_event (d : display) (e : ui_event) : display :=
  match e with
  | SetLow v => {| low := v; high := high d; mid := mid d |}
  | SetHigh v => {| low := low d; high := v; mid := mid d |}
  | SetMid v => {| low := low d; high := high d; mid := v |}
  | _ => d
  end.

(** Every state the display goes through while the setters of a trace are
    applied one at a time, the starting state included. *)
Fixpoint displays (d : display) (evs : list ui_event) : list display :=
  match evs with
  | [] => [d]
  | e :: evs' => d :: displays (apply_event d e) evs'
  end.

(** The bounds passed to [setLow] and [setHigh] by one callback (the two
    calls are adjacent in the source). *)
Fixpoint setter_pairs (evs : list ui_event) : list (Z * Z) :=
  match evs with
  | SetLow a :: ((SetHigh b :: _) as rest) => (a, b) :: setter_pairs rest
  | _ :: rest => setter_pairs rest
  | [] => []
  end.

(** The values read at the probed positions, in order: the last field of
    the step entries of the log. *)
Definition probe_reads (evs : list ui_event) : list (option Z) :=
  omap (fun e => match e with
                 | Log (LogStep _ _ _ _ v) => Some v
                 | _ => None
                 end) evs.

(** A micro-partition of the pruning panel. *)
Inductive partition_status := idle | pruned | scanned.

Record MicroPartition := mkPartition {
  pid : string;
  pname : string;
  minId : Z;
  maxId : Z;
  status : partition_status
}.

(** The partitions the panel starts with. *)
Definition initial_partitions : list MicroPartition :=
  [mkPartition "A" "Block A" 1 100 idle;
   mkPartition "B" "Block B" 101 200 idle;
   mkPartition "C" "Block C" 201 300 idle].

(** [runPartitionPruning]: the partitions once the two timeouts have run;
    every partition is first reset to idle, then marked by its range. *)
Definition runPartitionPruning (queryId : Z) (partitions : list MicroPartition)
  : list MicroPartition :=
  let resetPartitions :=
    (fun p => mkPartition (pid p) (pname p) (minId p) (maxId p) idle)
      <$> partitions in
  (fun p =>
     if (minId p <=? queryId) && (queryId <=? maxId p)
     then mkPartition (pid p) (pname p) (minId p) (maxId p) scanned
     else mkPartition (pid p) (pname p) (minId p) (maxId p) pruned)
    <$> resetPartitions.

Definition is_scanned (p : MicroPartition) : bool :=
  match status p with scanned => true | _ => false end.

Definition is_pruned (p : MicroPartition) : bool :=
  match status p with pruned => true | _ => false end.

(** [newPartitions.filter(p => p.status === 'scanned').length] *)
Definition scannedCount (ps : list MicroPartition) : nat :=
  length (filter (fun p => is_scanned p = true) ps).

(** [newPartitions.filter(p => p.status === 'pruned').length] *)
Definition prunedCount (ps : list MicroPartition) : nat :=
  length (filter (fun p => is_pruned p = true) ps).

(** The ranges of the partitions do not overlap and follow one another. *)
Fixpoint ranges_ascending (ps : list MicroPartition) : Prop :=
  match ps with
  | [] => True
  | p :: ps' =>
      Forall (fun p' => maxId p < minId p') ps' /\ ranges_ascending ps'
  end.

(** The step bound of the specification, [ceil (log2 n)]. *)
Definition ceil_log2 (n : Z) : Z := Z.log2_up n.

(** [floor (log2 n)]. *)
Definition floor_log2 (n : Z) : Z := Z.log2 n.

End BinarySearch.

(** ** Free-text numeric entry: [split], [trim], [parseInt]

    A text is the string of its UTF-8 bytes. The white space that [trim]
    and [parseInt] skip is JavaScript's: TAB, LF, VT, FF, CR, space, and
    beyond ASCII the characters U+00A0, U+1680, U+2000 to U+200A, U+2028,
    U+2029, U+202F, U+205F, U+3000 and U+FEFF, of two or three bytes each.
    The comma, the signs, the digits and the letters that [split] and
    [parseInt] look for are ASCII, and no byte of a longer character is. *)

Module JsText.

Local Open Scope Z_scope.

Definition code (c : ascii) : Z := Z.of_nat (nat_of_ascii c).

(** TAB, LF, VT, FF, CR and space: the white space of one byte. *)
Definition is_white (c : ascii) : bool :=
  ((9 <=? code c) && (code c <=? 13)) || (code c =? 32).

(** U+00A0, of bytes 194, 160. *)
Definition is_white2 (c1 c2 : ascii) : bool :=
  (code c1 =? 194) && (code c2 =? 160).

(** The white space of three bytes: U+1680 (225, 154, 128); U+2000 to
    U+200A, U+2028, U+2029 and U+202F (226, 128, then 128 to 138, 168, 169
    or 175); U+205F (226, 129, 159); U+3000 (227, 128, 128); U+FEFF (239,
    187, 191). *)
Definition is_white3 (c1 c2 c3 : ascii) : bool :=
  let b1 := code c1 in
  let b2 := code c2 in
  let b3 := code c3 in
  ((b1 =? 225) && (b2 =? 154) && (b3 =? 128))
  || ((b1 =? 226) && (b2 =? 128)
      && (((128 <=? b3) && (b3 <=? 138)) || (b3 =? 168) || (b3 =? 169)
          || (b3 =? 175)))
  || ((b1 =? 226) && (b2 =? 129) && (b3 =? 159))
  || ((b1 =? 227) && (b2 =? 128) && (b3 =? 128))
  || ((b1 =? 239) && (b2 =? 187) && (b3 =? 191)).

(** The number of bytes of the white space character that [s] starts with;
    0 when it starts with none. *)
Definition white_length (s : string) : nat :=
  match s with
  | String c1 (String c2 (String c3 _)) =>
      if is_white c1 then 1
      else if is_white2 c1 c2 then 2
      else if is_white3 c1 c2 c3 then 3
      else 0
  | String c1 (String c2 EmptyString) =>
      if is_white c1 then 1 else if is_white2 c1 c2 then 2 else 0
  | String c1 EmptyString => if is_white c1 then 1 else 0
  | EmptyString => 0
  end%nat.

(** [s.trimStart()] *)
Fixpoint trimStart (s : string) : string :=
  match s with
  | EmptyString => EmptyString
  | String _ s1 =>
      match white_length s with
      | 0 => s
      | 1 => trimStart s1
      | 2 => match s1 with
             | String _ s2 => trimStart s2
             | EmptyString => s
             end
      | _ => match s1 with
             | String _ (String _ s3) => trimStart s3
             | _ => s
             end
      end
  end%nat.

(** [s.trimEnd()]: the text up to its last character that is not white
    space. A text made of white space only is the one that [trimStart]
    empties. *)
Fixpoint trimEnd (s : string) : string :=
  match s with
  | String c s' =>
      match trimStart s with
      | EmptyString => EmptyString
      | _ => String c (trimEnd s')
      end
  | EmptyString => EmptyString
  end.

(** [s.trim()] *)
Definition trim (s : string) : string := trimEnd (trimStart s).

(** [s.split(sep)] for a one-character separator: the pieces between the
    separators, empty pieces included; the empty text gives one empty piece. *)
Fixpoint split (sep : ascii) (s : string) : list string :=
  match s with
  | EmptyString => [EmptyString]
  | String c s' =>
      if Ascii.eqb c sep then EmptyString :: split sep s'
      else match split sep s' with
           | piece :: pieces => String c piece :: pieces
           | [] => [String c EmptyString]
           end
  end.

(** Whether the character [c] occurs in [s]. *)
Fixpoint has_char (c : ascii) (s : string) : bool :=
  match s with
  | EmptyString => false
  | String c' s' => Ascii.eqb c' c || has_char c s'
  end.

(** The value of [c] as a digit in the given radix, if it is one. *)
Definition digit_value (radix : Z) (c : ascii) : option Z :=
  let n := code c in
  let v :=
    if (48 <=? n) && (n <=? 57) then Some (n - 48)
    else if (97 <=? n) && (n <=? 122) then Some (n - 97 + 10)
    else if (65 <=? n) && (n <=? 90) then Some (n - 65 + 10)
    else None in
  match v with
  | Some d => if d <? radix then Some d else None
  | None => None
  end.

(** The integer written by the longest prefix of digits of [s], as the
    mathematical value that [parseInt] then turns into a number; [acc] is
    the value of the digits read so far, [None] before the first one. *)
Fixpoint parse_digits (radix : Z) (s : string) (acc : option Z) : option Z :=
  match s with
  | String c s' =>
      match digit_value radix c with
      | Some d => parse_digits radix s' (Some (default 0 acc * radix + d))
      | None => acc
      end
  | EmptyString => acc
  end.

(** The steps of [parseInt(s)] after the white space: the sign, the text
    without it, the radix that a prefix [0x] or [0X] selects, and the text
    without the prefix. *)
Definition sign_of (s : string) : Z :=
  match s with
  | String "-" _ => -1
  | _ => 1
  end.

Definition strip_sign (s : string) : string :=
  match s with
  | String "-" s' => s'
  | String "+" s' => s'
  | _ => s
  end.

Definition radix_of (s : string) : Z :=
  match s with
  | String "0" (String "x" _) => 16
  | String "0" (String "X" _) => 16
  | _ => 10
  end.

Definition strip_prefix (s : string) : string :=
  match s with
  | String "0" (String "x" s') => s'
  | String "0" (String "X" s') => s'
  | _ => s
  end.

(** [parseInt(s)] with no radix argument: leading white space, an optional
    sign, an optional [0x] or [0X] prefix that selects radix 16, then the
    longest prefix of digits; what follows the digits is ignored. [None] is
    NaN (no digit was read). The result is the number nearest to the
    integer that the digits write, an infinity when they write one past the
    finite range. (For more than 20 significant decimal digits the language
    lets an engine read the digits after the 20th as zeros; the model takes
    the digits as they are, as the engines do.) *)
Definition parseInt (s : string) : option Z :=
  let s1 := trimStart s in
  let s2 := strip_sign s1 in
  match parse_digits (radix_of s2) (strip_prefix s2) None with
  | Some n => Some (Js.to_double (sign_of s1 * n))
  | None => None
  end.

Definition is_digit (c : ascii) : bool := (48 <=? code c)%Z && (code c <=? 57)%Z.



(** [inputStr.split(',').map(s => parseInt(s.trim()))]: one entry per token,
    [None] where the token is NaN. *)
Definition parse_tokens (inputStr : string) : list (option Z) :=
  (fun s => parseInt (trim s)) <$> split "," inputStr.

(** [.filter(n => !isNaN(n))] *)
Definition drop_nan (l : list (option Z)) : list Z := omap id l.

(** The array [arr] of both [handleParse] handlers. *)
Definition parse_numbers (inputStr : string) : list Z :=
  drop_nan (parse_tokens inputStr).

(** [xs.slice(-n)]: the last [n] entries. *)
Definition slice_last {A} (n : nat) (xs : list A) : list A :=
  drop (length xs - n) xs.

(** [String(n)] for an integer up to 2^53 in magnitude: its decimal digits,
    after a minus sign when it is negative. Larger numbers, which are
    written with the fewest digits that tell them from their neighbours, or
    with an exponent, or as the word [Infinity], are not modelled: [None]. *)
Definition number_to_string (n : Z) : option string :=
  if Z.abs n <=? 2 ^ 53 then Some (pretty n) else None.

(** [d.join(", ")], the text the input field of a module starts with, for
    numbers that [number_to_string] covers. *)
Definition join_numbers (d : list Z) : option string :=
  String.concat ", " <$> mapM number_to_string d.

Fixpoint all_digits (s : string) : bool :=
  match s with
  | EmptyString => true
  | String c s' => is_digit c && all_digits s'
  end.

End JsText.

(** ** TwoPointersModule.tsx *)

Module TwoPointers.

Import JsText.

Definition SAMPLE_DATA : list Z :=
  [1001; 1001; 1002; 1003; 1003; 1003; 1004; 1005; 1005]%Z.

Inductive log_entry :=
| LogComplete (writePointer : nat)
| LogCopy (prev : nat) (currentVal lastUniqueVal : option Z) (writePointer : nat)
| LogSkip (prev : nat) (currentVal lastUniqueVal : option Z) (writePointer : nat).

(** The state of the component that the handlers and the animation loop read
    or write. A cell of [processedArray] is [None] where the JavaScript array
    has a hole ([undefined]). The fields of the Snowflake panel, which
    [reset] also clears and nothing below reads, are left out. *)
Record state := mkState {
  inputStr : string;
  data : list Z;
  isPlaying : bool;
  pythonComplete : bool;
  readPointer : nat;
  writePointer : nat;
  processedArray : list (option Z);
  executionLog : list log_entry
}.

(** [[...arr].sort((a, b) => a - b)]: the ascending, stable sort of the
    language (every stable sort gives the same list). *)
Definition sort_ascending (arr : list Z) : list Z := merge_sort Z.le arr.

Definition reset (st : state) : state :=
  {| inputStr := inputStr st; data := data st;
     isPlaying := false; pythonComplete := false;
     readPointer := 1; writePointer := 1;
     processedArray := []; executionLog := [] |}.

Definition setData (d : list Z) (st : state) : state :=
  {| inputStr := inputStr st; data := d;
     isPlaying := isPlaying st; pythonComplete := pythonComplete st;
     readPointer := readPointer st; writePointer := writePointer st;
     processedArray := processedArray st; executionLog := executionLog st |}.

(** The [onChange] of the text field. *)
Definition setInputStr (input : string) (st : state) : state :=
  {| inputStr := input; data := data st;
     isPlaying := isPlaying st; pythonComplete := pythonComplete st;
     readPointer := readPointer st; writePointer := writePointer st;
     processedArray := processedArray st; executionLog := executionLog st |}.

(** [handleParse]: the next state and the text of the alert, if one is
    raised. No operation of the [try] block throws, so its [catch] is dead. *)
Definition handleParse (st : state) : state * option string :=
  let arr := parse_numbers (inputStr st) in
  if bool_decide (length arr = 0) then (st, Some "Please enter valid numbers"%string)
  else
    let sorted := sort_ascending arr in
    (reset (setData sorted st), None).

(** The effect keyed on [data]:
    [setProcessedArray([data[0], ...Array(data.length - 1).fill(0)])]. *)
Definition init_effect (st : state) : state :=
  match data st with
  | [] => st
  | d0 :: rest =>
      {| inputStr := inputStr st; data := data st;
         isPlaying := isPlaying st; pythonComplete := pythonComplete st;
         readPointer := readPointer st; writePointer := writePointer st;
         processedArray := Some d0 :: replicate (length rest) (Some 0%Z);
         executionLog := executionLog st |}
  end.

(** The state once the component has rendered with dataset [d]: the values
    of [useState] or of [reset], then the effect keyed on [data]. *)
Definition ready (d : list Z) (input : string) : state :=
  init_effect
    {| inputStr := input; data := d;
       isPlaying := false; pythonComplete := false;
       readPointer := 1; writePointer := 1;
       processedArray := []; executionLog := [] |}.

(** The component at mount. *)
Definition mount : state :=
  ready SAMPLE_DATA "1001, 1001, 1002, 1003, 1003, 1003, 1004, 1005, 1005".

(** A click on Set Data: the handler, then the effect when [data] was set. *)
Definition click_SetData (st : state) : state * option string :=
  match handleParse st with
  | (st', None) => (init_effect st', None)
  | (st', Some msg) => (st', Some msg)
  end.

(** A click on the reset button: [data] keeps its identity, so the effect
    keyed on it does not run again. *)
Definition click_reset (st : state) : state := reset st.

(** A click on the run / pause button. *)
Definition click_play (st : state) : state :=
  {| inputStr := inputStr st; data := data st;
     isPlaying := negb (isPlaying st); pythonComplete := pythonComplete st;
     readPointer := readPointer st; writePointer := writePointer st;
     processedArray := processedArray st; executionLog := executionLog st |}.

(** [a[i]] on an array with holes. *)
Definition read_cell (a : list (option Z)) (i : nat) : option Z :=
  mjoin (a !! i).

(** [a[i] = v] on a copy of [a]: past the end the array grows, and the
    cells in between are holes. *)
Definition write_cell (a : list (option Z)) (i : nat) (v : option Z)
  : list (option Z) :=
  if bool_decide (i < length a) then <[i := v]> a
  else a ++ replicate (i - length a) None ++ [v].

(** One firing of the interval: the updater passed to [setReadPointer]. *)
Definition tick (st : state) : state :=
  let prev := readPointer st in
  if bool_decide (length (data st) <= prev) then
    {| inputStr := inputStr st; data := data st;
       isPlaying := false; pythonComplete := true;
       readPointer := prev; writePointer := writePointer st;
       processedArray := processedArray st;
       executionLog := executionLog st ++ [LogComplete (writePointer st)] |}
  else
    let currentVal := data st !! prev in
    let lastUniqueVal := read_cell (processedArray st) (writePointer st - 1) in
    if bool_decide (currentVal <> lastUniqueVal) then
      {| inputStr := inputStr st; data := data st;
         isPlaying := isPlaying st; pythonComplete := pythonComplete st;
         readPointer := prev + 1; writePointer := writePointer st + 1;
         processedArray :=
           write_cell (processedArray st) (writePointer st) currentVal;
         executionLog :=
           slice_last 4 (executionLog st ++
             [LogCopy prev currentVal lastUniqueVal (writePointer st)]) |}
    else
      {| inputStr := inputStr st; data := data st;
         isPlaying := isPlaying st; pythonComplete := pythonComplete st;
         readPointer := prev + 1; writePointer := writePointer st;
         processedArray := processedArray st;
         executionLog :=
           slice_last 4 (executionLog st ++
             [LogSkip prev currentVal lastUniqueVal (writePointer st)]) |}.

(** The interval fires while [isPlaying && !pythonComplete]; [None] when the
    fuel runs out before it stops. *)
Fixpoint run (fuel : nat) (st : state) : option state :=
  if isPlaying st && negb (pythonComplete st) then
    match fuel with
    | O => None
    | S fuel' => run fuel' (tick st)
    end
  else Some st.

(** The distinct values of a list, each at its first occurrence. *)
Fixpoint distinct (l : list Z) : list Z :=
  match l with
  | [] => []
  | x :: l' => x :: filter (fun y => y <> x) (distinct l')
  end.

(** A list with every run of equal neighbours reduced to one entry. *)
Fixpoint collapse_runs (l : list Z) : list Z :=
  match l with
  | [] => []
  | x :: l' =>
      match l' with
      | [] => [x]
      | y :: _ => if decide (x = y) then collapse_runs l'
                  else x :: collapse_runs l'
      end
  end.

(** What the user can do to the component, and the firing of the interval. *)
Inductive event :=
| TypeText (input : string)
| ClickSetData
| ClickReset
| ClickPlay
| Tick.

(** The play button is disabled once the run is complete, and the interval
    exists only while [isPlaying && !pythonComplete]. *)
Definition apply_event (st : state) (e : event) : state :=
  match e with
  | TypeText input => setInputStr input st
  | ClickSetData => fst (click_SetData st)
  | ClickReset => click_reset st
  | ClickPlay => if pythonComplete st then st else click_play st
  | Tick => if isPlaying st && negb (pythonComplete st) then tick st else st
  end.

End TwoPointers.

(** ** SlidingWindowModule.tsx *)

Module SlidingWindow.

Import JsText.

Definition SAMPLE_DATA : list Z := [40; 30; 60; 70; 50; 80; 90; 40; 50]%Z.
Definition WINDOW_SIZE : nat := 3.
Definition THRESHOLD : Z := 150.

(** A number that may be NaN ([None]): what a sum becomes once it has read
    past the end of the array, where [data[i]] is [undefined]. *)
Definition num := option Z.

(** [a + b] *)
Definition num_add (a b : num) : num :=
  match a, b with
  | Some x, Some y => Js.number_add x y
  | _, _ => None
  end.

(** [a - b] *)
Definition num_sub (a b : num) : num :=
  match a, b with
  | Some x, Some y => Js.number_sub x y
  | _, _ => None
  end.

(** [a > t]; false on NaN. *)
Definition num_gt (a : num) (t : Z) : bool :=
  match a with
  | Some x => (t <? x)%Z
  | None => false
  end.

Inductive log_entry :=
| LogScanComplete (windows : Z)
| LogInitialSum (prev windowEnd : nat) (sum : num)
| LogSlide (prev windowEnd : nat) (currentSum leavingVal enteringVal sum : num)
| LogAlert (prev windowEnd : nat) (sum : num).

(** The state the handlers and the animation loop read or write; the
    highlight flag, which only timers touch, and the fields of the Snowflake
    panel are left out. *)
Record state := mkState {
  inputStr : string;
  data : list Z;
  isPlaying : bool;
  pythonComplete : bool;
  windowStart : nat;
  currentSum : num;
  alertWindow : option nat;
  executionLog : list log_entry
}.

Definition reset (st : state) : state :=
  {| inputStr := inputStr st; data := data st;
     isPlaying := false; pythonComplete := false;
     windowStart := 0; currentSum := Some 0%Z;
     alertWindow := None; executionLog := [] |}.

Definition setData (d : list Z) (st : state) : state :=
  {| inputStr := inputStr st; data := d;
     isPlaying := isPlaying st; pythonComplete := pythonComplete st;
     windowStart := windowStart st; currentSum := currentSum st;
     alertWindow := alertWindow st; executionLog := executionLog st |}.

(** The [onChange] of the text field. *)
Definition setInputStr (input : string) (st : state) : state :=
  {| inputStr := input; data := data st;
     isPlaying := isPlaying st; pythonComplete := pythonComplete st;
     windowStart := windowStart st; currentSum := currentSum st;
     alertWindow := alertWindow st; executionLog := executionLog st |}.

(** [handleParse]: the next state and the text of the alert, if one is
    raised. No operation of the [try] block throws, so its [catch] is dead. *)
Definition handleParse (st : state) : state * option string :=
  let arr := parse_numbers (inputStr st) in
  if bool_decide (length arr = 0) then (st, Some "Please enter valid numbers"%string)
  else (reset (setData arr st), None).

(** The values of [useState]. *)
Definition mount : state :=
  {| inputStr := "40, 30, 60, 70, 50, 80, 90, 40, 50"; data := SAMPLE_DATA;
     isPlaying := false; pythonComplete := false;
     windowStart := 0; currentSum := Some 0%Z;
     alertWindow := None; executionLog := [] |}.

(** The state once the component shows dataset [d]: at mount or after Set
    Data or reset. *)
Definition ready (d : list Z) (input : string) : state :=
  {| inputStr := input; data := d;
     isPlaying := false; pythonComplete := false;
     windowStart := 0; currentSum := Some 0%Z;
     alertWindow := None; executionLog := [] |}.

(** A click on the run / pause button. *)
Definition click_play (st : state) : state :=
  {| inputStr := inputStr st; data := data st;
     isPlaying := negb (isPlaying st); pythonComplete := pythonComplete st;
     windowStart := windowStart st; currentSum := currentSum st;
     alertWindow := alertWindow st; executionLog := executionLog st |}.

(** [for (let i = prev; i <= windowEnd; i++) sum += data[i]], from [sum = 0]. *)
Definition sum_from_scratch (d : list Z) (prev windowEnd : nat) : num :=
  foldl (fun sum i => num_add sum (d !! i)) (Some 0%Z)
        (seq prev (S windowEnd - prev)).

(** The sum that one firing of the interval computes for the window that
    starts at [windowStart]. *)
Definition window_sum_step (st : state) : num :=
  let prev := windowStart st in
  let windowEnd := prev + WINDOW_SIZE - 1 in
  if bool_decide (prev = 0) then sum_from_scratch (data st) prev windowEnd
  else
    let leavingVal := data st !! (prev - 1) in
    let enteringVal := data st !! windowEnd in
    num_add (num_sub (currentSum st) leavingVal) enteringVal.

(** One firing of the interval: the updater passed to [setWindowStart]. *)
Definition tick (st : state) : state :=
  let prev := windowStart st in
  let windowEnd := prev + WINDOW_SIZE - 1 in
  if bool_decide (length (data st) <= windowEnd) then
    {| inputStr := inputStr st; data := data st;
       isPlaying := false; pythonComplete := true;
       windowStart := prev; currentSum := currentSum st;
       alertWindow := alertWindow st;
       executionLog :=
         executionLog st ++
         [LogScanComplete (Z.of_nat (length (data st))
                           - Z.of_nat WINDOW_SIZE + 1)] |}
  else
    let sum := window_sum_step st in
    let entry :=
      if bool_decide (prev = 0) then LogInitialSum prev windowEnd sum
      else LogSlide prev windowEnd (currentSum st) (data st !! (prev - 1))
                    (data st !! windowEnd) sum in
    let log1 := slice_last 4 (executionLog st ++ [entry]) in
    {| inputStr := inputStr st; data := data st;
       isPlaying := isPlaying st; pythonComplete := pythonComplete st;
       windowStart := prev + 1; currentSum := sum;
       alertWindow := if num_gt sum THRESHOLD then Some prev else alertWindow st;
       executionLog :=
         if num_gt sum THRESHOLD
         then slice_last 4 (log1 ++ [LogAlert prev windowEnd sum])
         else log1 |}.

(** The interval fires only while [isPlaying && !pythonComplete]. *)
Definition fire (st : state) : state :=
  if isPlaying st && negb (pythonComplete st) then tick st else st.

(** The state after the interval has fired [n] times. *)
Definition after (n : nat) (st : state) : state := Nat.iter n fire st.

(** [d.slice(start, end)] for [0 <= start]. *)
Definition slice (d : list Z) (start stop : nat) : list Z :=
  take (stop - start) (drop start d).

(** The cell [window_sum] of row [idx] in the Snowflake table: [None] is the
    [null] of the rows before the first full window, and on the other rows
    the cell is [slice(...).reduce((a, b) => a + b, 0)]. There
    [idx - WINDOW_SIZE + 1] is not negative, and is written here with the
    addition first because the subtraction of [nat] stops at zero. *)
Definition windowSum (d : list Z) (idx : nat) : option num :=
  if bool_decide (idx < WINDOW_SIZE - 1) then None
  else Some (foldl (fun a b => num_add a (Some b)) (Some 0%Z)
                   (slice d (idx + 1 - WINDOW_SIZE) (idx + 1))).

(** The sums that the table forms for the window [a, b, c] are exact: the
    entries, the sum of the first two and the sum of all three are at most
    2^53 in magnitude. *)
Definition exact_window (a b c : Z) : Prop :=
  (Z.abs a <= 2 ^ 53 /\ Z.abs b <= 2 ^ 53 /\ Z.abs c <= 2 ^ 53 /\
   Z.abs (a + b) <= 2 ^ 53 /\ Z.abs (a + b + c) <= 2 ^ 53)%Z.

(** The sums of every window of three consecutive entries are exact. *)
Fixpoint exact_sums (d : list Z) : Prop :=
  match d with
  | a :: rest =>
      match rest with
      | b :: c :: _ => exact_window a b c
      | _ => True
      end /\ exact_sums rest
  | [] => True
  end.

(** The loop is still running, on the window that starts at [p]. *)
Definition scanning (d : list Z) (p : nat) (st : state) : Prop :=
  data st = d /\ isPlaying st = true /\ pythonComplete st = false /\
  windowStart st = p.

(** The invariant of the loop when the sums are exact: it is still
    running, on the window that starts at [p], and holds the sum of the
    window before it. *)
Definition sliding (d : list Z) (p : nat) (st : state) : Prop :=
  scanning d p st /\
  (0 < p -> currentSum st
            = Some (foldl Z.add 0%Z (slice d (p - 1) (p - 1 + WINDOW_SIZE)))).

(** [a] is the start of the latest window, among those starting at
    [0..p], whose sum as the table computes it exceeds [THRESHOLD]; [None]
    when there is none. *)
Definition latest_alert (d : list Z) (p : nat) (a : option nat) : Prop :=
  match a with
  | Some q =>
      q <= p /\
      (exists s, windowSum d (q + WINDOW_SIZE - 1) = Some s /\
                 num_gt s THRESHOLD = true) /\
      forall r, q < r <= p ->
        exists s, windowSum d (r + WINDOW_SIZE - 1) = Some s /\
                  num_gt s THRESHOLD = false
  | None =>
      forall r, r <= p ->
        exists s, windowSum d (r + WINDOW_SIZE - 1) = Some s /\
                  num_gt s THRESHOLD = false
  end.

End SlidingWindow.

(** ** HeapModule.tsx *)

Module Heap.

Import JsText.

Inductive Priority := Critical | High | Low.

Definition PRIORITY_VALUES (p : Priority) : Z :=
  match p with
  | Critical => 3
  | High => 2
  | Low => 1
  end%Z.

Record Job := mkJob {
  id : Z;
  name : string;
  priority : Priority;
  priorityValue : Z
}.

Inductive log_entry :=
| LogAdded (job : Job)
| LogProcessed (job : Job).

Record state := mkState {
  heap : list Job;
  nextJobId : Z;
  bubblingIndex : option nat;
  executionLog : list log_entry
}.

(** The values of [useState]; [reset] restores them. *)
Definition initial_state : state :=
  {| heap := []; nextJobId := 1; bubblingIndex := None; executionLog := [] |}.

(** [Math.floor((idx - 1) / 2)] for [idx >= 1]. *)
Definition parentIdx (idx : nat) : nat := (idx - 1) / 2.

(** The destructuring assignment that exchanges two cells. *)
Definition swap (h : list Job) (i j : nat) (ci cj : Job) : list Job :=
  <[i := cj]> (<[j := ci]> h).

(** The closure [bubbleUp] of [addJob], with the timeout callback that
    swaps and calls it again; [newHeap] and [idx] are the locals it
    mutates. The result is the array when the chain of callbacks ends;
    [None] stands for the exception that a read of [priorityValue] outside
    the array would raise. *)
Function bubbleUp (newHeap : list Job) (idx : nat) {measure (fun n => n) idx}
  : option (list Job) :=
  match idx with
  | 0 => Some newHeap
  | S _ =>
      match newHeap !! idx, newHeap !! parentIdx idx with
      | Some child, Some parent =>
          if (priorityValue parent <? priorityValue child)%Z
          then bubbleUp (swap newHeap idx (parentIdx idx) child parent)
                        (parentIdx idx)
          else Some newHeap
      | _, _ => None
      end
  end.
Proof.
  intros. unfold parentIdx. apply Nat.Div0.div_lt_upper_bound. lia.
Defined.

(** [addJob], with the bubble-up it schedules run to its end. *)
Definition addJob (p : Priority) (st : state) : option state :=
  let job :=
    {| id := nextJobId st; name := "Job-" +:+ pretty (nextJobId st);
       priority := p; priorityValue := PRIORITY_VALUES p |} in
  let newHeap := heap st ++ [job] in
  match bubbleUp newHeap (length newHeap - 1) with
  | Some newHeap' =>
      Some {| heap := newHeap'; nextJobId := (nextJobId st + 1)%Z;
              bubblingIndex := None;
              executionLog := slice_last 5 (executionLog st ++ [LogAdded job]) |}
  | None => None
  end.

(** A sequence of clicks on the add buttons, each bubble-up finished before
    the next click. *)
Fixpoint addJobs (ps : list Priority) (st : state) : option state :=
  match ps with
  | [] => Some st
  | p :: ps' =>
      match addJob p st with
      | Some st' => addJobs ps' st'
      | None => None
      end
  end.

(** [popJob] *)
Definition popJob (st : state) : state :=
  match heap st with
  | [] => st
  | popped :: rest =>
      let log := slice_last 5 (executionLog st ++ [LogProcessed popped]) in
      if bool_decide (length (heap st) = 1) then
        {| heap := []; nextJobId := nextJobId st;
           bubblingIndex := bubblingIndex st; executionLog := log |}
      else
        let newHeap :=
          match heap st !! (length (heap st) - 1) with
          | Some lastJob => <[0 := lastJob]> (heap st)
          | None => heap st
          end in
        {| heap := take (length newHeap - 1) newHeap;
           nextJobId := nextJobId st;
           bubblingIndex := bubblingIndex st; executionLog := log |}
  end.

(** The max-heap invariant: every cell from index 1 on is at most its
    parent. *)
Definition heap_ordered (h : list Job) : Prop :=
  forall (i : nat) (child parent : Job),
    1 <= i -> h !! i = Some child -> h !! parentIdx i = Some parent ->
    (priorityValue child <= priorityValue parent)%Z.

(** The invariant of the bubble-up loop: the order holds everywhere except
    between [j] and its parent, and the children of [j] are at most the
    parent of [j]. *)
Definition ordered_except (h : list Job) (j : nat) : Prop :=
  (forall (i : nat) (child parent : Job),
     1 <= i -> i <> j -> h !! i = Some child -> h !! parentIdx i = Some parent ->
     (priorityValue child <= priorityValue parent)%Z) /\
  (forall (i : nat) (child grand : Job),
     1 <= i -> parentIdx i = j -> 1 <= j ->
     h !! i = Some child -> h !! parentIdx j = Some grand ->
     (priorityValue child <= priorityValue grand)%Z).

(** The jobs that a sequence of clicks submits, with the ids the component
    hands out from [firstId] on. *)
Fixpoint submitted (ps : list Priority) (firstId : Z) : list Job :=
  match ps with
  | [] => []
  | p :: ps' =>
      {| id := firstId; name := "Job-" +:+ pretty firstId;
         priority := p; priorityValue := PRIORITY_VALUES p |}
        :: submitted ps' (firstId + 1)
  end.

(** The order of the comparator [(a, b) => b.priorityValue - a.priorityValue]:
    [a] may come before [b]. *)
Definition higher_first (a b : Job) : Prop :=
  (priorityValue b <= priorityValue a)%Z.

(** [job] put in its place in a list sorted by descending priority: after
    the jobs of higher priority and before the others. *)
Fixpoint insert_job (job : Job) (sorted : list Job) : list Job :=
  match sorted with
  | [] => [job]
  | other :: rest =>
      if (priorityValue job <? priorityValue other)%Z
      then other :: insert_job job rest
      else job :: sorted
  end.

(** [jobs.sort((a, b) => b.priorityValue - a.priorityValue)]: the sort of
    the language, by descending priority. It is stable: jobs of equal
    priority stay in the order they had, which inserting every job in
    front of the later jobs of its priority gives. *)
Definition sort_by_priority (jobs : list Job) : list Job :=
  foldr insert_job [] jobs.

(** [getTop3] of [runDistributedTopK]. *)
Definition getTop3 (jobs : list Job) : list Job :=
  take 3 (sort_by_priority jobs).

(** [generateWorkerJobs]: one job per draw of [Math.random()], here the list
    of the priorities drawn, with ids from 1000 on. *)
Definition generateWorkerJobs (draws : list Priority) : list Job :=
  imap (fun i p =>
          {| id := 1000 + Z.of_nat i; name := "J" +:+ pretty (1000 + Z.of_nat i)%Z;
             priority := p; priorityValue := PRIORITY_VALUES p |}) draws.

(** Phases 2 to 4 of [runDistributedTopK]: every worker keeps its three
    best jobs, and the master keeps the three best of those nine. *)
Definition masterTopK (worker1 worker2 worker3 : list Job) : list Job :=
  let top1 := getTop3 worker1 in
  let top2 := getTop3 worker2 in
  let top3 := getTop3 worker3 in
  let allTop := top1 ++ top2 ++ top3 in
  take 3 (sort_by_priority allTop).

(** [a] may come before [b] in a descending list of numbers. *)
Definition not_below (a b : Z) : Prop := (b <= a)%Z.

#[local] Instance not_below_dec (a b : Z) : Decision (not_below a b) :=
  Z_le_dec b a.

(** A list of numbers sorted in descending order. *)
Definition descending (l : list Z) : list Z := merge_sort not_below l.

(** The order on numbers is a total order. *)
#[export] Instance not_below_trans : Transitive not_below.
Proof. unfold not_below. intros a b c. lia. Qed.

#[export] Instance not_below_total : Total not_below.
Proof. unfold not_below. intros a b. lia. Qed.

#[export] Instance not_below_antisymm : AntiSymm (=) not_below.
Proof. unfold not_below. intros a b. lia. Qed.

(** [x] put in its place in a descending list. *)
Fixpoint insert_desc (x : Z) (l : list Z) : list Z :=
  match l with
  | [] => [x]
  | y :: l' => if decide (x <= y)%Z then y :: insert_desc x l' else x :: l
  end.

End Heap.

(** ** The graph module (BFS and DFS over the task DAG) *)

Module Graph.

Local Open Scope string_scope.
Local Open Scope list_scope.

Record GraphEdge := mkEdge { from : string; to : string }.

(** The [id]s of [DAG_NODES], in the order of the array. *)
Definition DAG_NODE_IDS : list string := ["A"; "B"; "C"; "D"].

Definition DAG_EDGES : list GraphEdge :=
  [mkEdge "A" "B"; mkEdge "A" "C"; mkEdge "B" "D"; mkEdge "C" "D"].

(** [buildGraph]: an empty adjacency list for every node, then every edge
    pushed on the list of its origin. *)
Definition buildGraph : gmap string (list string) :=
  let graph : gmap string (list string) :=
    foldl (fun g node => <[node := []]> g) ∅ DAG_NODE_IDS in
  foldl (fun g edge =>
           <[from edge := default [] (g !! from edge) ++ [to edge]]> g)
        graph DAG_EDGES.

(** [graph[current] || []], for a name that the object does not inherit:
    the list kept under the key, and no list when there is no such key.
    (Under a name of [Js.OBJECT_PROTOTYPE_NAMES] that is not a key of its
    own a plain object answers with what it inherits, which is not a list;
    the nodes of the module are A, B, C and D.) *)
Definition neighbors_of (graph : gmap string (list string)) (current : string)
  : list string :=
  default [] (graph !! current).

(** A name that a plain object does not inherit. *)
Definition plain_name (v : string) : bool :=
  bool_decide (v ∉ Js.OBJECT_PROTOTYPE_NAMES).

(** No key and no dependency of the graph and no start node is a name that
    a plain object inherits: every read [graph[name]] of the crawler is
    then the list kept under [name] or [undefined]. *)
Definition plain_names (graph : gmap string (list string))
  (toVisit : list string) : Prop :=
  forallb plain_name toVisit = true /\
  forallb (fun entry => plain_name entry.1 && forallb plain_name entry.2)
          (map_to_list graph) = true.

(** The body of [neighbors.forEach] in [runBFS]: a neighbour joins the back
    of the queue unless it was visited or is already waiting. *)
Definition enqueue (vis : gset string) (q : list string) (neighbor : string)
  : list string :=
  if bool_decide (neighbor ∉ vis) && bool_decide (neighbor ∉ q)
  then q ++ [neighbor] else q.

(** The body of [forEach] in [runDFS]: a neighbour is pushed unless it was
    visited. The top of the stack is the end of the array. *)
Definition push (vis : gset string) (stk : list string) (neighbor : string)
  : list string :=
  if bool_decide (neighbor ∉ vis) then stk ++ [neighbor] else stk.

(** Modelled from the spec: the head of the [while] loop of [traverse] in
    [runBFS] is missing from the source file (the text goes from
    [setQueue(q)] to the middle of the first [setNodes] call). Following the
    specification ("BFS", first in first out, as the panel of the module
    prints: [node = queue.popleft()]) and the sibling [runCrawler]
    ([toVisit.shift()], [if (visited.has(current)) continue]), the head
    takes [current] from the front of [q], skips it when [skip_visited] is
    set and it was already visited, and otherwise adds it to [vis]. The
    rest of the iteration is the source's. The result is the order in which
    nodes become current; [None] when the fuel runs out. *)
Fixpoint bfs_loop (skip_visited : bool) (graph : gmap string (list string))
  (fuel : nat) (q : list string) (vis : gset string) : option (list string) :=
  match fuel with
  | O => None
  | S fuel' =>
      match q with
      | [] => Some []
      | current :: q' =>
          if skip_visited && bool_decide (current ∈ vis)
          then bfs_loop skip_visited graph fuel' q' vis
          else
            let vis' := {[current]} ∪ vis in
            let q'' := foldl (enqueue vis') q' (neighbors_of graph current) in
            cons current <$> bfs_loop skip_visited graph fuel' q'' vis'
      end
  end.

(** [runBFS]: the queue starts as [['A']] and nothing is visited. Every
    iteration takes one entry off the queue and every node enters it at most
    once per edge that leads to it, so nodes + edges + 1 iterations are
    enough. *)
Definition runBFS (skip_visited : bool) : option (list string) :=
  bfs_loop skip_visited buildGraph
           (length DAG_NODE_IDS + length DAG_EDGES + 1) ["A"] ∅.

(** Modelled from the spec: the head of the [while] loop of [traverse] in
    [runDFS] is missing from the source file as well. Following the
    specification ("DFS", last in first out, as the panel prints:
    [node = stack.pop()]; neighbours are pushed in reverse "so they are
    popped in list order"), the head pops [current] from the end of [stk],
    skips it when [skip_visited] is set and it was already visited, and
    otherwise adds it to [vis]. The rest of the iteration is the source's:
    [[...neighbors].reverse().forEach(...)]. *)
Fixpoint dfs_loop (skip_visited : bool) (graph : gmap string (list string))
  (fuel : nat) (stk : list string) (vis : gset string) : option (list string) :=
  match fuel with
  | O => None
  | S fuel' =>
      match last stk with
      | None => Some []
      | Some current =>
          let stk' := take (length stk - 1) stk in
          if skip_visited && bool_decide (current ∈ vis)
          then dfs_loop skip_visited graph fuel' stk' vis
          else
            let vis' := {[current]} ∪ vis in
            let stk'' :=
              foldl (push vis') stk' (reverse (neighbors_of graph current)) in
            cons current <$> dfs_loop skip_visited graph fuel' stk'' vis'
      end
  end.

Definition runDFS (skip_visited : bool) : option (list string) :=
  dfs_loop skip_visited buildGraph
           (length DAG_NODE_IDS + length DAG_EDGES + 1) ["A"] ∅.

(** Whether [v] can be reached from [src] along at most [k] edges. *)
Fixpoint reach_within (graph : gmap string (list string)) (src : string)
  (k : nat) (v : string) : bool :=
  match k with
  | O => bool_decide (src = v)
  | S k' =>
      reach_within graph src k' v ||
      existsb (fun u => reach_within graph src k' u
                        && bool_decide (v ∈ neighbors_of graph u))
              DAG_NODE_IDS
  end.

(** The distance from [src]: the least number of edges of a path to [v]. *)
Definition distance (graph : gmap string (list string)) (src v : string)
  : option nat :=
  find (fun k => reach_within graph src k v) (seq 0 (length DAG_NODE_IDS)).

(** The pre-order of the depth-first traversal that follows the adjacency
    lists in list order: a node is listed, then each neighbour not yet
    listed is explored in turn. [seen] is the order so far. *)
Fixpoint preorder (graph : gmap string (list string)) (fuel : nat)
  (seen : list string) (v : string) : list string :=
  match fuel with
  | O => seen
  | S fuel' =>
      if bool_decide (v ∈ seen) then seen
      else foldl (preorder graph fuel') (seen ++ [v]) (neighbors_of graph v)
  end.

(** The loop of [runCrawler]: the order in which the metadata of the nodes
    is fetched (one network call each); [None] when the fuel runs out. *)
Fixpoint crawl (graph : gmap string (list string)) (fuel : nat)
  (toVisit : list string) (visited : gset string) : option (list string) :=
  match fuel with
  | O => None
  | S fuel' =>
      match toVisit with
      | [] => Some []
      | current :: toVisit' =>
          if bool_decide (current ∈ visited)
          then crawl graph fuel' toVisit' visited
          else
            let visited' := {[current]} ∪ visited in
            let deps := neighbors_of graph current in
            let toVisit'' :=
              if bool_decide (0 < length deps)
              then toVisit' ++ filter (fun d => d ∉ visited') deps
              else toVisit' in
            cons current <$> crawl graph fuel' toVisit'' visited'
      end
  end.

(** The number of dependencies listed for the nodes not yet visited. *)
Definition unvisited_edges (graph : gmap string (list string))
  (visited : gset string) : nat :=
  map_fold (fun k deps n => if decide (k ∈ visited) then n else length deps + n)
           0 graph.

(** The number of edges of the graph. *)
Definition edge_count (graph : gmap string (list string)) : nat :=
  unvisited_edges graph ∅.

(** [runCrawler] on the graph of the module: the loop takes one entry off
    [toVisit] per iteration and pushes at most one entry per edge. *)
Definition runCrawler : option (list string) :=
  crawl buildGraph (1 + edge_count buildGraph + 1) ["A"] ∅.

End Graph.

(** ** StacksQueuesModule.tsx *)

Module StacksQueues.

Import JsText.

Definition MAX_QUEUE_SIZE : nat := 8.
Definition BACKPRESSURE_THRESHOLD : nat := 6.

Inductive Mode := stack | queue.

Inductive log_entry :=
| LogBackpressure (size : nat)
| LogAdded (jobId : Z) (mode : Mode)
| LogProcessed (jobId : option Z) (mode : Mode)
| LogKafkaStarted.

(** The state of the component; the chart history, the consumer speed and
    the theory panel, which no handler below reads, are left out. *)
Record state := mkState {
  mode : Mode;
  jobs : list Z;
  isProcessing : bool;
  processedJobs : list (option Z);
  nextJobId : Z;
  currentTime : Z;
  backpressureAlert : bool;
  kafkaTriggered : bool;
  executionLog : list log_entry
}.

(** The values of [useState]. *)
Definition initial_state : state :=
  {| mode := queue; jobs := []; isProcessing := false; processedJobs := [];
     nextJobId := 1; currentTime := 0; backpressureAlert := false;
     kafkaTriggered := false; executionLog := [] |}.

(** [addJob]. A handler is a closure of one render: [seen] is the state of
    that render, from which it reads [jobs], [mode] and [nextJobId], and
    [st] is the state its setters update ([setJobs], [setNextJobId] and
    [setExecutionLog] use the functional form). *)
Definition addJob (seen st : state) : state :=
  if bool_decide (MAX_QUEUE_SIZE <= length (jobs seen)) then
    {| mode := mode st; jobs := jobs st; isProcessing := isProcessing st;
       processedJobs := processedJobs st; nextJobId := nextJobId st;
       currentTime := currentTime st; backpressureAlert := true;
       kafkaTriggered := kafkaTriggered st;
       executionLog :=
         slice_last 4 (executionLog st ++ [LogBackpressure MAX_QUEUE_SIZE]) |}
  else
    {| mode := mode st;
       jobs := match mode seen with
               | stack => jobs st ++ [nextJobId seen]
               | queue => jobs st ++ [nextJobId seen]
               end;
       isProcessing := isProcessing st;
       processedJobs := processedJobs st;
       nextJobId := (nextJobId st + 1)%Z;
       currentTime := currentTime st; backpressureAlert := false;
       kafkaTriggered := kafkaTriggered st;
       executionLog :=
         slice_last 4 (executionLog st ++
                       [LogAdded (nextJobId seen) (mode seen)]) |}.

(** [processJob], with the same reading of [seen] and [st]. *)
Definition processJob (seen st : state) : state :=
  if bool_decide (length (jobs seen) = 0) then st
  else
    let processed :=
      match mode seen with
      | stack => jobs seen !! (length (jobs seen) - 1)
      | queue => jobs seen !! 0
      end in
    {| mode := mode st;
       jobs := match mode seen with
               | stack => take (length (jobs st) - 1) (jobs st)
               | queue => drop 1 (jobs st)
               end;
       isProcessing := isProcessing st;
       processedJobs := processedJobs st ++ [processed];
       nextJobId := nextJobId st; currentTime := currentTime st;
       backpressureAlert := backpressureAlert st;
       kafkaTriggered := kafkaTriggered st;
       executionLog :=
         slice_last 4 (executionLog st ++ [LogProcessed processed (mode seen)]) |}.

Definition reset (st : state) : state :=
  {| mode := mode st; jobs := []; isProcessing := false; processedJobs := [];
     nextJobId := 1; currentTime := 0; backpressureAlert := false;
     kafkaTriggered := false; executionLog := [] |}.

Definition toggleMode (st : state) : state :=
  let st' := reset st in
  {| mode := match mode st with stack => queue | queue => stack end;
     jobs := jobs st'; isProcessing := isProcessing st';
     processedJobs := processedJobs st'; nextJobId := nextJobId st';
     currentTime := currentTime st'; backpressureAlert := backpressureAlert st';
     kafkaTriggered := kafkaTriggered st'; executionLog := executionLog st' |}.

(** The synchronous part of [runKafkaSimulation]. *)
Definition runKafkaSimulation (st : state) : state :=
  {| mode := mode st; jobs := jobs st; isProcessing := isProcessing st;
     processedJobs := processedJobs st; nextJobId := nextJobId st;
     currentTime := currentTime st; backpressureAlert := backpressureAlert st;
     kafkaTriggered := true;
     executionLog := slice_last 4 (executionLog st ++ [LogKafkaStarted]) |}.

(** One firing of the depth monitor (its effect is keyed on [jobs.length]
    and [currentTime], so it reads the current state). *)
Definition monitor_tick (st : state) : state :=
  {| mode := mode st; jobs := jobs st; isProcessing := isProcessing st;
     processedJobs := processedJobs st; nextJobId := nextJobId st;
     currentTime := (currentTime st + 1)%Z;
     backpressureAlert :=
       bool_decide (BACKPRESSURE_THRESHOLD <= length (jobs st));
     kafkaTriggered := kafkaTriggered st; executionLog := executionLog st |}.

Definition toggleProcessing (st : state) : state :=
  {| mode := mode st; jobs := jobs st; isProcessing := negb (isProcessing st);
     processedJobs := processedJobs st; nextJobId := nextJobId st;
     currentTime := currentTime st; backpressureAlert := backpressureAlert st;
     kafkaTriggered := kafkaTriggered st; executionLog := executionLog st |}.

(** A producer interval started by [runKafkaSimulation]: the render it was
    created in, whose [addJob] it keeps calling, and the firings left before
    the 6000 ms timeout clears it (one every 800 ms). *)
Record producer := mkProducer { closure : state; firings_left : nat }.

(** The component and its live producer intervals ([reset] does not clear
    them). *)
Record config := mkConfig { current : state; producers : list producer }.

Definition initial_config : config :=
  {| current := initial_state; producers := [] |}.

(** What can happen to the component: clicks on enabled buttons and timer
    firings. [KafkaTick i r] is a firing of the [i]-th live producer in
    which [Math.random() > 0.5] evaluates to [r]. *)
Inductive event :=
| ClickAddJob
| ClickProcessing
| ProcessTick
| ClickReset
| ClickToggleMode
| ClickKafka
| KafkaTick (i : nat) (r : bool)
| MonitorTick.

Definition is_kafka_tick (e : event) : bool :=
  match e with
  | KafkaTick _ _ => true
  | _ => false
  end.

(** An event that is not enabled (a click on a disabled button, a firing of
    an interval that is not running) changes nothing. *)
Definition apply_event (c : config) (e : event) : config :=
  let st := current c in
  match e with
  | ClickAddJob =>
      if bool_decide (MAX_QUEUE_SIZE <= length (jobs st)) then c
      else {| current := addJob st st; producers := producers c |}
  | ClickProcessing =>
      {| current := toggleProcessing st; producers := producers c |}
  | ProcessTick =>
      if isProcessing st && bool_decide (0 < length (jobs st))
      then {| current := processJob st st; producers := producers c |}
      else c
  | ClickReset => {| current := reset st; producers := producers c |}
  | ClickToggleMode => {| current := toggleMode st; producers := producers c |}
  | ClickKafka =>
      if kafkaTriggered st then c
      else {| current := runKafkaSimulation st;
              producers := producers c ++ [mkProducer st 7] |}
  | KafkaTick i r =>
      match producers c !! i with
      | Some (mkProducer seen (S n)) =>
          {| current := if r then addJob seen st else st;
             producers := <[i := mkProducer seen n]> (producers c) |}
      | _ => c
      end
  | MonitorTick => {| current := monitor_tick st; producers := producers c |}
  end.

Definition run (evs : list event) (c : config) : config :=
  foldl apply_event c evs.

End StacksQueues.

(** ** The arrays and hashing module (duplicate detection) *)

Module ArraysHashing.

Import JsText.

Definition SAMPLE_DATA : list Z := [101; 102; 103; 101; 104]%Z.

Inductive log_entry :=
| LogScanComplete (cycles : nat)
| LogCheck (prev : nat) (currentVal : option Z) (isInSet : bool)
| LogDuplicate.

(** The state that the scan and the Snowflake step read or write; the
    bandwidth meter, the shuffle phase and the chart are left out. *)
Record state := mkState {
  data : list Z;
  isPlaying : bool;
  pythonStep : nat;
  pythonComplete : bool;
  foundIndex : option nat;
  cpuCycles : nat;
  executionLog : list log_entry
}.

(** The state once the component shows dataset [d]: at mount or after Set
    Data or reset. *)
Definition ready (d : list Z) : state :=
  {| data := d; isPlaying := false; pythonStep := 0; pythonComplete := false;
     foundIndex := None; cpuCycles := 0; executionLog := [] |}.

(** A click on the run button. *)
Definition click_play (st : state) : state :=
  {| data := data st; isPlaying := negb (isPlaying st);
     pythonStep := pythonStep st; pythonComplete := pythonComplete st;
     foundIndex := foundIndex st; cpuCycles := cpuCycles st;
     executionLog := executionLog st |}.

(** [data.slice(0, prev).includes(data[prev])] *)
Definition isInSet (d : list Z) (prev : nat) : bool :=
  match d !! prev with
  | Some currentVal => bool_decide (currentVal ∈ take prev d)
  | None => false
  end.

(** One firing of the interval: the updater passed to [setPythonStep]. *)
Definition tick (st : state) : state :=
  let prev := pythonStep st in
  if bool_decide (Z.of_nat (length (data st)) - 1 <= Z.of_nat prev)%Z then
    {| data := data st; isPlaying := false; pythonStep := prev;
       pythonComplete := true; foundIndex := foundIndex st;
       cpuCycles := cpuCycles st + 1;
       executionLog :=
         executionLog st ++ [LogScanComplete (cpuCycles st + 1)] |}
  else
    let log1 :=
      slice_last 5 (executionLog st ++
                    [LogCheck prev (data st !! prev) (isInSet (data st) prev)]) in
    if isInSet (data st) prev then
      {| data := data st; isPlaying := false; pythonStep := prev;
         pythonComplete := true; foundIndex := Some prev;
         cpuCycles := cpuCycles st + 1;
         executionLog := slice_last 5 (log1 ++ [LogDuplicate]) |}
    else
      {| data := data st; isPlaying := isPlaying st; pythonStep := prev + 1;
         pythonComplete := pythonComplete st; foundIndex := foundIndex st;
         cpuCycles := cpuCycles st + 1; executionLog := log1 |}.

(** The interval fires while [isPlaying && !pythonComplete]; [None] when the
    fuel runs out before it stops. *)
Fixpoint run (fuel : nat) (st : state) : option state :=
  if isPlaying st && negb (pythonComplete st) then
    match fuel with
    | O => None
    | S fuel' => run fuel' (tick st)
    end
  else Some st.

(** The loop of the timeout in [runSnowflakeQuery]: the first index whose
    entry is already in [seen]; [i] is the index of the head of [l]. *)
Fixpoint first_seen_again (seen : list Z) (l : list Z) (i : nat) : option nat :=
  match l with
  | [] => None
  | x :: l' =>
      if bool_decide (x ∈ seen) then Some i
      else first_seen_again (seen ++ [x]) l' (S i)
  end.

(** The timeout of [runSnowflakeQuery]: [setFoundIndex] is called only when
    a duplicate is met. *)
Definition snowflake_find (st : state) : state :=
  {| data := data st; isPlaying := isPlaying st; pythonStep := pythonStep st;
     pythonComplete := pythonComplete st;
     foundIndex := match first_seen_again [] (data st) 0 with
                   | Some i => Some i
                   | None => foundIndex st
                   end;
     cpuCycles := cpuCycles st; executionLog := executionLog st |}.

(** [data.filter((_, i) => keep(i))], [i] being the index of the head. *)
Fixpoint filter_index (keep : nat -> bool) (i : nat) (l : list Z) : list Z :=
  match l with
  | [] => []
  | x :: l' =>
      if keep i then x :: filter_index keep (S i) l'
      else filter_index keep (S i) l'
  end.

(** The two Snowflake partitions: the entries at even and at odd indices. *)
Definition partitions (d : list Z) : list Z * list Z :=
  (filter_index Nat.even 0 d, filter_index Nat.odd 0 d).

(** Two lists read alternately, the first one first. *)
Fixpoint interleave (l1 l2 : list Z) : list Z :=
  match l1, l2 with
  | x :: l1', y :: l2' => x :: y :: interleave l1' l2'
  | [], _ => l2
  | _, [] => l1
  end.

End ArraysHashing.

(** * The bill-of-materials explorer: [RecursionModule.tsx] *)

Module Recursion.

Import JsText.

Record BOMNode := { id : string; name : string; children : option (list string) }.

Definition BOM_DATA : gmap string BOMNode :=
  list_to_map
    [("Engine", {| id := "Engine"; name := "Engine";
                   children := Some ["Block"; "Piston"] |});
     ("Block", {| id := "Block"; name := "Block";
                  children := Some ["Liner"; "Bearing"] |});
     ("Piston", {| id := "Piston"; name := "Piston";
                   children := Some ["Ring"; "Pin"] |});
     ("Liner", {| id := "Liner"; name := "Liner"; children := None |});
     ("Bearing", {| id := "Bearing"; name := "Bearing"; children := None |});
     ("Ring", {| id := "Ring"; name := "Ring"; children := None |});
     ("Pin", {| id := "Pin"; name := "Pin"; children := None |})]%string.

(** [bom[node]?.children || []] *)
Definition children_of (bom : gmap string BOMNode) (node : string) : list string :=
  match bom !! node with
  | Some n => default [] (children n)
  | None => []
  end.

(** A row of the recursive query's result. *)
Record row := { level : nat; node : string; parent : option string }.

Inductive log_entry :=
| LogLevel (level found : nat)
| LogCteComplete.

(** The state that [runSnowflakeCTE] writes; the call stack and the visited
    path of the depth-first animation are left out. *)
Record state := {
  sqlLevel : nat;
  sqlResults : list row;
  sqlTriggered : bool;
  executionLog : list log_entry
}.

(** The locals of [runSnowflakeCTE] that its interval callback mutates. *)
Record locals := { levels : list row; currentLevel : nat }.

(** The rows pushed for the children of the rows [nodes] of level
    [currentLevel], in the order of the two nested [forEach]. *)
Definition child_rows (bom : gmap string BOMNode) (currentLevel : nat)
  (nodes : list row) : list row :=
  r ← nodes;
  (fun child => {| level := currentLevel + 1; node := child;
                   parent := Some (node r) |}) <$> children_of bom (node r).

(** One run of the interval callback: the locals and the state after it, and
    whether the interval is still set. The updater that writes the log entry
    of a level reads the local [currentLevel] when the state is next
    computed, which is after the callback has incremented it: the entry
    shows the level that follows the one whose rows it counts. *)
Definition cte_tick (bom : gmap string BOMNode) (l : locals) (st : state)
  : locals * state * bool :=
  let currentLevelNodes :=
    filter (fun r => level r = currentLevel l) (levels l) in
  if bool_decide (length currentLevelNodes = 0) then
    (l,
     {| sqlLevel := currentLevel l; sqlResults := sqlResults st;
        sqlTriggered := sqlTriggered st;
        executionLog := slice_last 6 (executionLog st ++ [LogCteComplete]) |},
     false)
  else
    ({| levels := levels l ++ child_rows bom (currentLevel l) currentLevelNodes;
        currentLevel := currentLevel l + 1 |},
     {| sqlLevel := currentLevel l; sqlResults := levels l;
        sqlTriggered := sqlTriggered st;
        executionLog :=
          slice_last 6 (executionLog st
                        ++ [LogLevel (currentLevel l + 1)
                                     (length currentLevelNodes)]) |},
     true).

(** The interval run until it clears itself; [None] when [fuel] callbacks
    did not get there. *)
Fixpoint cte_run (fuel : nat) (bom : gmap string BOMNode) (l : locals)
  (st : state) : option state :=
  match fuel with
  | 0 => None
  | S fuel' =>
      match cte_tick bom l st with
      | (l', st', true) => cte_run fuel' bom l' st'
      | (_, st', false) => Some st'
      end
  end.

(** [runSnowflakeCTE] over the table [bom], the query anchored at [root]:
    the four setters give the state its first values whatever it held. *)
Definition runSnowflakeCTE_on (bom : gmap string BOMNode) (root : string)
  (fuel : nat) : option state :=
  cte_run fuel bom
    {| levels := [{| level := 0; node := root; parent := None |}];
       currentLevel := 0 |}
    {| sqlLevel := 0; sqlResults := []; sqlTriggered := true;
       executionLog := [] |}.

(** [runSnowflakeCTE] *)
Definition runSnowflakeCTE : nat -> option state :=
  runSnowflakeCTE_on BOM_DATA "Engine".

(** The rows of the hierarchy under [root] at depth [k]: the root alone at
    depth 0, and at depth [k + 1] the children of the rows at depth [k]. *)
Fixpoint level_rows (bom : gmap string BOMNode) (root : string) (k : nat)
  : list row :=
  match k with
  | 0 => [{| level := 0; node := root; parent := None |}]
  | S k' => child_rows bom k' (level_rows bom root k')
  end.

(** The rows of the depths below [k], depth by depth. *)
Definition rows_below (bom : gmap string BOMNode) (root : string) (k : nat)
  : list row :=
  concat (level_rows bom root <$> seq 0 k).

End Recursion.

(** * Theorems *)

(** ** Facts about sorted arrays *)

Section SortedArrays.

Local Open Scope Z_scope.

(** In a sorted array the entries grow with the index. *)
Lemma sorted_lookup_le (arr : list Z) (i j : nat) (x y : Z) :
  Sorted Z.le arr -> (i <= j)%nat ->
  arr !! i = Some x -> arr !! j = Some y -> x <= y.
Proof.
  intros Hs. apply Sorted_StronglySorted in Hs; [|intros a b c; lia].
  revert i j x y. induction Hs as [|a l Hl IH Hall]; intros i j x y Hij Hi Hj.
  - discriminate.
  - destruct i as [|i], j as [|j]; simpl in *.
    + assert (x = y) by congruence. lia.
    + injection Hi as <-. rewrite Forall_forall in Hall.
      apply Hall, list_elem_of_lookup. eauto.
    + lia.
    + apply (IH i j); [lia|done..].
Qed.

End SortedArrays.

Section BinarySearchFacts.

Import Js BinarySearch.
Local Open Scope Z_scope.

Lemma js_get_in_range {A} (a : list A) (i : Z) :
  0 <= i < len a -> exists v, js_get a i = Some v /\ a !! Z.to_nat i = Some v.
Proof.
  intros Hi. unfold js_get, len in *.
  destruct (Z.ltb_spec i 0) as [?|_]; [lia|].
  destruct (lookup_lt_is_Some_2 a (Z.to_nat i)) as [v Hv]; [lia|]. eauto.
Qed.

(** What one run of the loop establishes, by induction on a bound [k] with
    [h - l + 1 < 2 ^ k]: the interval halves at every probe. *)
Lemma search_spec (arr : list Z) (target : Z) :
  Sorted Z.le arr ->
  forall (k fuel : nat) (l h stepCount : Z),
    (k < fuel)%nat -> 0 <= l -> h < len arr ->
    h - l + 1 < 2 ^ Z.of_nat k ->
    (forall i : nat, arr !! i = Some target -> l <= Z.of_nat i <= h) ->
    exists evs r,
      search fuel arr target l h stepCount = (evs, Some r) /\
      stepCount <= steps_of r <= stepCount + Z.of_nat k /\
      match r with
      | Found m _ => 0 <= m /\ arr !! Z.to_nat m = Some target
      | NotFound _ => forall i : nat, arr !! i <> Some target
      end.
Proof.
  intros Hsorted k.
  induction k as [|k IH]; intros fuel l h sc Hfuel Hl Hh Hsize Hinv;
    (destruct fuel as [|fuel]; [lia|]); simpl search.
  - change (2 ^ Z.of_nat 0) with 1 in Hsize.
    destruct (Z.ltb_spec h l) as [_|?]; [|lia].
    eexists _, _. split; [reflexivity|]. simpl. split; [lia|].
    intros i Hi. apply Hinv in Hi. lia.
  - rewrite Nat2Z.inj_succ, Z.pow_succ_r in Hsize by lia.
    destruct (Z.ltb_spec h l) as [Hlt|Hle].
    { eexists _, _. split; [reflexivity|]. simpl. split; [lia|].
      intros i Hi. apply Hinv in Hi. lia. }
    pose proof (Z.div_mod (h - l) 2 ltac:(lia)) as Hdm.
    pose proof (Z.mod_pos_bound (h - l) 2 ltac:(lia)) as Hmb.
    set (m := l + (h - l) / 2) in *.
    assert (Hm : l <= m <= h) by (subst m; lia).
    destruct (js_get_in_range arr m) as (v & Hget & Hlook); [lia|].
    rewrite Hget. simpl strict_eq. simpl js_lt.
    destruct (Z.eqb_spec v target) as [->|Hne].
    { eexists _, _. split; [reflexivity|]. simpl. split; [lia|].
      split; [lia|done]. }
    destruct (Z.ltb_spec v target) as [Hvlt|Hvge].
    + destruct (IH fuel (m + 1) h (sc + 1)) as (evs & r & Hrun & Hsteps & Hres);
        [lia|lia|lia|subst m; lia| |].
      { intros i Hi. pose proof (Hinv i Hi) as Hr. split; [|lia].
        destruct (Z.le_gt_cases (Z.of_nat i) m) as [Him|?]; [|lia].
        pose proof (sorted_lookup_le arr i (Z.to_nat m) target v Hsorted
                      ltac:(lia) Hi Hlook). lia. }
      rewrite Hrun. eexists _, _. split; [reflexivity|]. split; [lia|done].
    + destruct (IH fuel l (m - 1) (sc + 1)) as (evs & r & Hrun & Hsteps & Hres);
        [lia|lia|lia|subst m; lia| |].
      { intros i Hi. pose proof (Hinv i Hi) as Hr. split; [lia|].
        destruct (Z.le_gt_cases m (Z.of_nat i)) as [Him|?]; [|lia].
        pose proof (sorted_lookup_le arr (Z.to_nat m) i v target Hsorted
                      ltac:(lia) Hlook Hi). lia. }
      rewrite Hrun. eexists _, _. split; [reflexivity|]. split; [lia|done].
Qed.

(** An array of [n >= 1] entries has fewer than [2 ^ (floor_log2 n + 1)]
    of them. *)
Lemma len_lt_pow2 (n : Z) :
  0 <= n -> n < 2 ^ (floor_log2 n + 1) /\ floor_log2 n + 1 <= Z.max n 1.
Proof.
  intros Hn. unfold floor_log2.
  destruct (Z.eq_dec n 0) as [->|Hnz]; [simpl; lia|].
  pose proof (Z.log2_spec n ltac:(lia)) as Hs.
  pose proof (Z.log2_lt_lin n ltac:(lia)).
  replace (Z.log2 n + 1) with (Z.succ (Z.log2 n)) by lia. lia.
Qed.

(** The interval shown on screen only shrinks during a run, so every
    state of the display between two setter calls is ordered. *)
Lemma search_displays_ordered (arr : list Z) (target : Z) :
  forall (fuel : nat) (l h stepCount : Z) (d : display),
    low d <= l -> h <= high d -> low d <= high d ->
    Forall (fun d' => low d' <= high d')
           (displays d (fst (search fuel arr target l h stepCount))).
Proof.
  induction fuel as [|fuel IH]; intros l h sc d Hlo Hhi Hd; simpl search.
  - repeat constructor. done.
  - destruct (Z.ltb_spec h l) as [Hlt|Hle].
    { simpl. repeat constructor; done. }
    pose proof (Z.div_mod (h - l) 2 ltac:(lia)) as Hdm.
    pose proof (Z.mod_pos_bound (h - l) 2 ltac:(lia)) as Hmb.
    set (m := l + (h - l) / 2) in *.
    assert (Hm : l <= m <= h) by (subst m; lia).
    destruct (strict_eq (js_get arr m) target).
    { simpl. repeat constructor; simpl; lia. }
    destruct (js_lt (js_get arr m) target).
    + specialize (IH (m + 1) h (sc + 1)
                     {| low := l; high := h; mid := Some m |}).
      destruct (search fuel arr target (m + 1) h (sc + 1)) as [evs r].
      simpl in *. repeat (constructor; [simpl; lia|]). apply IH; lia.
    + specialize (IH l (m - 1) (sc + 1)
                     {| low := l; high := h; mid := Some m |}).
      destruct (search fuel arr target l (m - 1) (sc + 1)) as [evs r].
      simpl in *. repeat (constructor; [simpl; lia|]). apply IH; lia.
Qed.

Lemma search_setter_pairs_ordered (arr : list Z) (target : Z) :
  forall (fuel : nat) (l h stepCount : Z),
    Forall (fun p => fst p <= snd p)
           (setter_pairs (fst (search fuel arr target l h stepCount))).
Proof.
  induction fuel as [|fuel IH]; intros l h sc; simpl search.
  - constructor.
  - destruct (Z.ltb_spec h l) as [Hlt|Hle].
    { simpl. constructor. }
    destruct (strict_eq (js_get arr (l + (h - l) / 2)) target).
    { simpl. repeat constructor; simpl; lia. }
    destruct (js_lt (js_get arr (l + (h - l) / 2)) target).
    + specialize (IH (l + (h - l) / 2 + 1) h (sc + 1)).
      destruct (search fuel arr target _ h (sc + 1)) as [evs r].
      simpl in *. constructor; [simpl; lia|done].
    + specialize (IH l (l + (h - l) / 2 - 1) (sc + 1)).
      destruct (search fuel arr target l _ (sc + 1)) as [evs r].
      simpl in *. constructor; [simpl; lia|done].
Qed.

(** C1 (as stated, refuted): on the module's own 16-element array a target
    above every entry is reported not-found only after five probes, one
    more than [ceil (log2 16) = 4]. *)
Lemma binary_search_ceil_log2_bound_fails :
  Sorted Z.le sortedArray /\
  ~ In 1000 sortedArray /\
  snd (runBinarySearch sortedArray 1000) = Some (NotFound 5) /\
  ~ 5 <= ceil_log2 (len sortedArray).
Proof.
  split; [repeat constructor; discriminate|].
  split; [simpl; intros H; repeat destruct H as [H|H]; try discriminate; done|].
  split; [reflexivity|]. vm_compute. intros H. apply H. reflexivity.
Qed.

(** C1 (amended): for every sorted array and every target the search of
    [runBinarySearch] ends; it reports found at an index holding the target
    when the target is in the array and not-found when it is not, after at
    most [floor (log2 N) + 1] probes. *)
Theorem binary_search_correct (arr : list Z) (target : Z) :
  Sorted Z.le arr ->
  exists evs r,
    runBinarySearch arr target = (evs, Some r) /\
    steps_of r <= floor_log2 (len arr) + 1 /\
    (In target arr ->
     exists m s, r = Found m s /\ js_get arr m = Some target) /\
    (~ In target arr -> exists s, r = NotFound s).
Proof.
  intros Hsorted. unfold runBinarySearch.
  destruct (len_lt_pow2 (len arr)) as [Hpow Hk]; [unfold len; lia|].
  assert (Hrun : exists evs r,
             search (S (length arr)) arr target 0 (len arr - 1) 0
             = (evs, Some r) /\
             0 <= steps_of r <= floor_log2 (len arr) + 1 /\
             match r with
             | Found m _ => 0 <= m /\ arr !! Z.to_nat m = Some target
             | NotFound _ => forall i : nat, arr !! i <> Some target
             end).
  { destruct arr as [|a arr'].
    - eexists _, _. split; [reflexivity|]. simpl. split; [done|].
      intros i. by destruct i.
    - set (arr := a :: arr') in *.
      assert (0 <= floor_log2 (len arr)) by apply Z.log2_nonneg.
      destruct (search_spec arr target Hsorted
                  (Z.to_nat (floor_log2 (len arr) + 1)) (S (length arr))
                  0 (len arr - 1) 0) as (evs & r & Hrun & Hsteps & Hres).
      + unfold len in *. simpl length in *. lia.
      + lia.
      + lia.
      + rewrite Z2Nat.id by lia. lia.
      + intros i Hi. apply lookup_lt_Some in Hi. unfold len. lia.
      + exists evs, r. rewrite Z2Nat.id in Hsteps by lia. done. }
  destruct Hrun as (evs & r & -> & Hsteps & Hres).
  eexists _, r. split; [reflexivity|]. split; [lia|]. split.
  - intros Hin. apply list_elem_of_In, list_elem_of_lookup in Hin as [i Hi].
    destruct r as [m s|s]; [|by apply Hres in Hi].
    exists m, s. split; [done|]. destruct Hres as [Hm Hlook].
    unfold js_get. by destruct (Z.ltb_spec m 0); [lia|].
  - intros Hnot. destruct r as [m s|s]; [|eauto].
    destruct Hres as [_ Hlook]. exfalso. apply Hnot, list_elem_of_In.
    apply list_elem_of_lookup. eauto.
Qed.

Lemma binary_search_correct_witness :
  exists evs r,
    runBinarySearch sortedArray 67 = (evs, Some r) /\
    steps_of r <= floor_log2 (len sortedArray) + 1 /\
    (In 67 sortedArray ->
     exists m s, r = Found m s /\ js_get sortedArray m = Some 67) /\
    (~ In 67 sortedArray -> exists s, r = NotFound s).
Proof.
  apply (binary_search_correct sortedArray 67).
  repeat constructor; discriminate.
Defined.

(** C7: during a run of [runBinarySearch] on a non-empty array, started
    from a display whose bounds are ordered, every state of the display has
    [low <= high], and every pair handed to [setLow] and [setHigh] is
    ordered: the callback reaches the setters only when [l <= h]. *)
Theorem binary_search_low_le_high (arr : list Z) (target : Z) (d0 : display) :
  arr <> [] -> 0 <= low d0 <= high d0 ->
  Forall (fun d => low d <= high d)
         (displays d0 (fst (runBinarySearch arr target))) /\
  Forall (fun p => fst p <= snd p)
         (setter_pairs (fst (runBinarySearch arr target))).
Proof.
  intros Hne Hd0. unfold runBinarySearch.
  assert (Hlen : 0 <= len arr - 1).
  { destruct arr; [done|]. unfold len. simpl length. lia. }
  pose proof (search_displays_ordered arr target (S (length arr))
                0 (len arr - 1) 0
                {| low := 0; high := len arr - 1; mid := None |}) as Hd.
  pose proof (search_setter_pairs_ordered arr target (S (length arr))
                0 (len arr - 1) 0) as Hp.
  destruct (search (S (length arr)) arr target 0 (len arr - 1) 0) as [evs r].
  split.
  - simpl. repeat (constructor; [simpl; lia|]). apply Hd; simpl; lia.
  - simpl. constructor; [simpl; lia|]. exact Hp.
Qed.

Lemma binary_search_low_le_high_witness :
  Forall (fun d => low d <= high d)
         (displays (initial_display sortedArray)
                   (fst (runBinarySearch sortedArray 1000))) /\
  Forall (fun p => fst p <= snd p)
         (setter_pairs (fst (runBinarySearch sortedArray 1000))).
Proof.
  apply (binary_search_low_le_high sortedArray 1000
           (initial_display sortedArray)).
  - discriminate.
  - vm_compute. split; discriminate.
Defined.

End BinarySearchFacts.

Section TwoPointersFacts.

Import JsText TwoPointers.

Lemma distinct_snoc (l : list Z) (x : Z) :
  distinct (l ++ [x]) = if decide (x ∈ l) then distinct l else distinct l ++ [x].
Proof.
  induction l as [|a l IH]; cbn [distinct app].
  - destruct (decide (x ∈ [])) as [Hin|_]; [by apply elem_of_nil in Hin|done].
  - rewrite IH.
    destruct (decide (x ∈ l)) as [Hin|Hnin];
      destruct (decide (x ∈ a :: l)) as [Hin'|Hnin']; try set_solver.
    + apply elem_of_cons in Hin' as [->|?]; [|done].
      rewrite filter_app, filter_cons_False, filter_nil, app_nil_r; [done|].
      by intros ?.
    + rewrite filter_app, filter_cons_True, filter_nil; [done|].
      intros ->. apply Hnin'. set_solver.
Qed.

Lemma distinct_length_le (l : list Z) : length (distinct l) <= length l.
Proof.
  induction l as [|a l IH]; simpl; [lia|].
  pose proof (length_filter (fun y => y <> a) (distinct l)). lia.
Qed.

(** In a sorted array, a value that occurs both before and at a position is
    the value just before that position. *)
Lemma sorted_seen_is_last (pre post : list Z) (x : Z) :
  Sorted Z.le (pre ++ x :: post) -> x ∈ pre -> last pre = Some x.
Proof.
  intros Hs Hin. apply Sorted_StronglySorted in Hs; [|intros a b c; lia].
  destruct pre as [|p pre'] using rev_ind; [by apply elem_of_nil in Hin|].
  clear IHpre'. rewrite last_snoc. f_equal.
  apply StronglySorted_app in Hs as (Hcross & Hpre & _).
  assert (p <= x)%Z by (apply Hcross; set_solver).
  apply elem_of_app in Hin as [Hin|Hin]; [|set_solver].
  apply StronglySorted_app in Hpre as (Hcross' & _ & _).
  assert (x <= p)%Z by (apply Hcross'; set_solver). lia.
Qed.

(** The invariant of the animation loop, with [data = pre ++ post] and the
    read pointer at the first entry of [post]. *)
Lemma run_invariant (post : list Z) :
  forall (pre : list Z) (st : state) (fuel : nat),
    data st = pre ++ post -> pre <> [] -> Sorted Z.le (pre ++ post) ->
    readPointer st = length pre ->
    isPlaying st = true -> pythonComplete st = false ->
    writePointer st = length (distinct pre) ->
    take (writePointer st) (processedArray st) = Some <$> distinct pre ->
    length (processedArray st) = length (pre ++ post) ->
    read_cell (processedArray st) (writePointer st - 1) = last pre ->
    length post < fuel ->
    exists st',
      run fuel st = Some st' /\
      pythonComplete st' = true /\
      data st' = data st /\
      writePointer st' = length (distinct (pre ++ post)) /\
      take (writePointer st') (processedArray st')
      = Some <$> distinct (pre ++ post).
Proof.
  induction post as [|x post IH];
    intros pre st fuel Hdata Hpre Hsorted Hread Hplay Hdone Hwp Htake Hlen Hlast
           Hfuel;
    (destruct fuel as [|fuel]; [simpl in Hfuel; lia|]);
    simpl run; rewrite Hplay, Hdone; simpl andb; cbv iota; unfold tick.
  - rewrite app_nil_r in *. rewrite Hdata, Hread.
    rewrite bool_decide_true by lia.
    eexists. split; [by destruct fuel|]. simpl. auto.
  - rewrite Hdata, Hread. rewrite bool_decide_false
      by (rewrite length_app; simpl; lia).
    rewrite lookup_app_r, Nat.sub_diag by lia. simpl lookup.
    rewrite Hlast.
    pose proof (distinct_length_le pre) as Hdl.
    assert (Hassoc : pre ++ x :: post = (pre ++ [x]) ++ post)
      by (by rewrite <- app_assoc).
    destruct (decide (Some x = last pre)) as [Heq|Hneq].
    + rewrite bool_decide_false by (intros Hc; by apply Hc).
      assert (Hin : x ∈ pre).
      { destruct pre as [|p pre'] using rev_ind; [done|].
        rewrite last_snoc in Heq. set_solver. }
      destruct (IH (pre ++ [x])
                  {| inputStr := inputStr st; data := pre ++ x :: post;
                     isPlaying := true; pythonComplete := false;
                     readPointer := length pre + 1;
                     writePointer := writePointer st;
                     processedArray := processedArray st;
                     executionLog :=
                       slice_last 4 (executionLog st ++
                         [LogSkip (length pre) (Some x) (last pre)
                                  (writePointer st)]) |} fuel)
        as (st' & Hrun & Hres); simpl.
      * done.
      * by destruct pre.
      * by rewrite <- Hassoc.
      * rewrite length_app. simpl. lia.
      * done.
      * done.
      * by rewrite distinct_snoc, decide_True.
      * by rewrite distinct_snoc, decide_True.
      * by rewrite <- Hassoc.
      * by rewrite last_snoc, Hlast.
      * simpl in Hfuel. lia.
      * exists st'. rewrite Hplay, Hdone in *. rewrite Hrun.
        rewrite <- Hassoc in Hres. done.
    + rewrite bool_decide_true by done.
      assert (Hnin : x ∉ pre).
      { intros Hin. apply Hneq. symmetry.
        by apply (sorted_seen_is_last pre post). }
      assert (Hwplt : writePointer st < length (processedArray st)).
      { rewrite Hlen, Hwp, length_app. simpl. lia. }
      unfold write_cell. rewrite bool_decide_true by done.
      destruct (IH (pre ++ [x])
                  {| inputStr := inputStr st; data := pre ++ x :: post;
                     isPlaying := true; pythonComplete := false;
                     readPointer := length pre + 1;
                     writePointer := writePointer st + 1;
                     processedArray :=
                       <[writePointer st := Some x]> (processedArray st);
                     executionLog :=
                       slice_last 4 (executionLog st ++
                         [LogCopy (length pre) (Some x) (last pre)
                                  (writePointer st)]) |} fuel)
        as (st' & Hrun & Hres); simpl.
      * done.
      * by destruct pre.
      * by rewrite <- Hassoc.
      * rewrite length_app. simpl. lia.
      * done.
      * done.
      * rewrite distinct_snoc, decide_False, length_app by done. simpl. lia.
      * rewrite distinct_snoc, decide_False, fmap_app by done. simpl.
        rewrite Nat.add_1_r.
        erewrite take_S_r by (by apply list_lookup_insert_eq).
        by rewrite take_insert_ge, Htake by lia.
      * by rewrite length_insert, <- Hassoc.
      * rewrite last_snoc. unfold read_cell.
        replace (writePointer st + 1 - 1) with (writePointer st) by lia.
        by rewrite list_lookup_insert_eq.
      * simpl in Hfuel. lia.
      * exists st'. rewrite Hplay, Hdone in *. rewrite Hrun.
        rewrite <- Hassoc in Hres. done.
Qed.

(** [distinct] lists every value of the array once. *)
Lemma distinct_spec (l : list Z) :
  NoDup (distinct l) /\ forall x, x ∈ distinct l <-> x ∈ l.
Proof.
  induction l as [|a l [IHnd IHin]]; simpl.
  - split; [constructor|done].
  - split.
    + constructor; [|by apply NoDup_filter].
      intros Hin. apply list_elem_of_filter in Hin as [Hne _]. done.
    + intros x. rewrite !elem_of_cons, list_elem_of_filter, IHin.
      destruct (decide (x = a)); tauto.
Qed.

(** From the state that the component sets up for a dataset at mount or on
    Set Data ([processedArray = [data[0], 0, ...]], both pointers at 1), the
    loop does on every non-empty sorted array what C2 says: it stops with
    the write pointer equal to the number of distinct values, and the first
    [writePointer] cells of the processed array are the distinct values in
    first-occurrence order. *)
Theorem two_pointers_dedup (d : list Z) (input : string) :
  d <> [] -> Sorted Z.le d ->
  exists st',
    run (S (length d)) (click_play (ready d input)) = Some st' /\
    pythonComplete st' = true /\
    writePointer st' = length (distinct d) /\
    take (writePointer st') (processedArray st') = Some <$> distinct d.
Proof.
  intros Hne Hsorted. destruct d as [|d0 rest]; [done|].
  destruct (run_invariant rest [d0] (click_play (ready (d0 :: rest) input))
              (S (length (d0 :: rest))))
    as (st' & Hrun & Hdone & _ & Hwp & Htake); try done.
  - simpl. by rewrite length_replicate.
  - simpl. lia.
  - exists st'. auto.
Qed.

Lemma two_pointers_dedup_witness :
  exists st',
    run (S (length SAMPLE_DATA)) (click_play (ready SAMPLE_DATA EmptyString))
    = Some st' /\
    pythonComplete st' = true /\
    writePointer st' = length (distinct SAMPLE_DATA) /\
    take (writePointer st') (processedArray st') = Some <$> distinct SAMPLE_DATA.
Proof.
  apply (two_pointers_dedup SAMPLE_DATA EmptyString).
  - discriminate.
  - repeat constructor; discriminate.
Defined.

(** C2 (code defect): the reset button empties [processedArray], and the
    effect that fills it with [data[0]] runs only when [data] changes, so
    not after a reset. On the sample data, which is sorted and has five
    distinct values, the run after a reset compares the second entry with
    a hole, copies it, and ends with the write pointer at 6 and a hole in
    cell 0 where the first distinct value should be. *)
Theorem two_pointers_run_after_reset :
  Sorted Z.le (data (click_reset mount)) /\
  distinct (data (click_reset mount)) = [1001; 1002; 1003; 1004; 1005]%Z /\
  pythonComplete <$> run 10 (click_play (click_reset mount)) = Some true /\
  writePointer <$> run 10 (click_play (click_reset mount)) = Some 6 /\
  processedArray <$> run 10 (click_play (click_reset mount))
  = Some [None; Some 1001; Some 1002; Some 1003; Some 1004; Some 1005]%Z.
Proof.
  split; [repeat constructor; discriminate|]. vm_compute. auto.
Qed.

(** C10: whenever the text holds at least one numeric token, Set Data stores
    the parsed numbers sorted in ascending order: the stored dataset is
    sorted and a permutation of the parsed numbers. *)
Theorem two_pointers_set_data_sorted (st : state) :
  parse_numbers (inputStr st) <> [] ->
  exists st',
    click_SetData st = (st', None) /\
    Sorted Z.le (data st') /\
    data st' ≡ₚ parse_numbers (inputStr st) /\
    data st' <> [].
Proof.
  intros Hne. unfold click_SetData, handleParse.
  rewrite bool_decide_false by (by destruct (parse_numbers (inputStr st))).
  assert (Hperm : sort_ascending (parse_numbers (inputStr st))
                  ≡ₚ parse_numbers (inputStr st))
    by apply merge_sort_Permutation.
  assert (Hsorted : Sorted Z.le (sort_ascending (parse_numbers (inputStr st)))).
  { apply Sorted_merge_sort. intros x y. lia. }
  eexists. split; [reflexivity|]. unfold init_effect. simpl.
  destruct (sort_ascending (parse_numbers (inputStr st))) as [|d0 rest] eqn:Hs.
  - apply Permutation_nil_l in Hperm. by rewrite <- Hperm in Hne.
  - simpl. auto.
Qed.

Lemma two_pointers_set_data_sorted_witness :
  exists st',
    click_SetData (setInputStr "40, 30, 60" mount) = (st', None) /\
    Sorted Z.le (data st') /\
    data st' ≡ₚ parse_numbers "40, 30, 60" /\
    data st' <> [].
Proof.
  apply (two_pointers_set_data_sorted (setInputStr "40, 30, 60" mount)).
  vm_compute. discriminate.
Defined.

End TwoPointersFacts.

Section SlidingWindowFacts.

Import JsText SlidingWindow.

(** Rounding to the nearest double: halfway between two doubles the one
    with the even significand is taken, and past the largest finite double
    the result is infinite. *)
Lemma to_double_rounds :
  Js.to_double (2 ^ 53 + 1) = (2 ^ 53)%Z /\
  Js.to_double (2 ^ 53 + 3) = (2 ^ 53 + 4)%Z /\
  Js.to_double (- (2 ^ 54 + 3)) = (- (2 ^ 54 + 4))%Z /\
  Js.to_double (2 ^ 1024 - 2 ^ 971) = (2 ^ 1024 - 2 ^ 971)%Z /\
  Js.to_double (2 ^ 1024 - 2 ^ 970) = Js.INFINITY /\
  Js.number_add Js.INFINITY (- Js.INFINITY) = None.
Proof. by vm_compute. Qed.

(** Up to 2^53 in magnitude every integer is a double. *)
Lemma to_double_exact (z : Z) :
  (Z.abs z <= 2 ^ 53)%Z -> Js.to_double z = z.
Proof.
  intros Hz. destruct (decide (Z.abs z = 2 ^ 53)%Z) as [Hmax|Hless].
  - assert (z = 2 ^ 53 \/ z = - 2 ^ 53)%Z as [-> | ->] by lia; by vm_compute.
  - unfold Js.to_double.
    assert (Hlog : (Z.log2 (Z.abs z) - 52 <= 0)%Z).
    { destruct (decide (Z.abs z = 0)%Z) as [->|Hpos]; [by vm_compute|].
      assert (Z.log2 (Z.abs z) < 53)%Z; [|lia].
      apply Z.log2_lt_pow2; lia. }
    rewrite (proj2 (Z.leb_le _ _) Hlog).
    assert (Hfin : (2 ^ 53 <= Js.INFINITY)%Z) by (by vm_compute).
    rewrite Z.min_l by lia. lia.
Qed.

(** A sum is exact when it and its terms are at most 2^53 in magnitude. *)
Lemma number_add_exact (x y : Z) :
  (Z.abs x <= 2 ^ 53)%Z -> (Z.abs y <= 2 ^ 53)%Z ->
  (Z.abs (x + y) <= 2 ^ 53)%Z ->
  Js.number_add x y = Some (x + y)%Z /\
  Js.number_sub x (- y) = Some (x + y)%Z.
Proof.
  intros Hx Hy Hxy.
  assert (Hfin : (2 ^ 53 < Js.INFINITY)%Z) by (by vm_compute).
  unfold Js.number_sub. rewrite Z.opp_involutive. split.
  all: unfold Js.number_add, Js.is_infinite.
  all: rewrite (proj2 (Z.leb_gt _ (Z.abs x))) by lia.
  all: rewrite (proj2 (Z.leb_gt _ (Z.abs y))) by lia.
  all: by rewrite to_double_exact.
Qed.

(** The three entries of the window that starts at [q]. *)
Lemma window_entries (d : list Z) (q : nat) :
  q + WINDOW_SIZE <= length d ->
  exists a b c,
    d !! q = Some a /\ d !! (q + 1) = Some b /\ d !! (q + 2) = Some c /\
    slice d q (q + WINDOW_SIZE) = [a; b; c].
Proof.
  unfold WINDOW_SIZE, slice. intros Hq.
  destruct (lookup_lt_is_Some_2 d q) as [a Ha]; [lia|].
  destruct (lookup_lt_is_Some_2 d (q + 1)) as [b Hb]; [lia|].
  destruct (lookup_lt_is_Some_2 d (q + 2)) as [c Hc]; [lia|].
  exists a, b, c. repeat split; try done.
  replace (q + 3 - q) with 3 by lia.
  rewrite (drop_S d a q Ha).
  replace (q + 1) with (S q) in Hb by lia.
  rewrite (drop_S d b (S q) Hb).
  replace (q + 2) with (S (S q)) in Hc by lia.
  by rewrite (drop_S d c (S (S q)) Hc).
Qed.

(** When the sums of a window are exact, adding its entries up from 0, as
    the first firing and the table do, gives their sum; and so does sliding
    from the sum of the window before, when that one is exact too. *)
Lemma window_sums_exact (a b c : Z) :
  exact_window a b c ->
  num_add (num_add (num_add (Some 0%Z) (Some a)) (Some b)) (Some c)
  = Some (0 + a + b + c)%Z.
Proof.
  intros (Ha & Hb & Hc & Hab & Habc). unfold num_add.
  destruct (number_add_exact 0 a) as [-> _]; [lia..|].
  destruct (number_add_exact (0 + a) b) as [-> _]; [lia..|].
  destruct (number_add_exact (0 + a + b) c) as [-> _]; [lia..|]. done.
Qed.

Lemma slide_exact (z a b c : Z) :
  exact_window z a b -> exact_window a b c ->
  num_add (num_sub (Some (0 + z + a + b)%Z) (Some z)) (Some c)
  = Some (0 + a + b + c)%Z.
Proof.
  intros (Hz & _ & _ & _ & Hzab) (Ha & Hb & Hc & Hab & Habc).
  unfold num_add, num_sub.
  destruct (number_add_exact (0 + z + a + b) (- z)) as [_ Hsub]; [lia..|].
  rewrite Z.opp_involutive in Hsub. rewrite Hsub.
  destruct (number_add_exact (0 + z + a + b + - z) c) as [-> _]; [lia..|].
  f_equal. lia.
Qed.

Lemma exact_sums_window (d : list Z) :
  exact_sums d ->
  forall (p : nat) (a b c : Z),
    d !! p = Some a -> d !! (p + 1) = Some b -> d !! (p + 2) = Some c ->
    exact_window a b c.
Proof.
  induction d as [|x d IH]; intros Hd p a b c Ha Hb Hc; [done|].
  destruct Hd as [Hx Hd]. destruct p as [|p].
  - destruct d as [|y [|z d]]; try done. by simplify_eq/=.
  - by apply (IH Hd p).
Qed.

(** The cell of the table for the window that starts at [p]. *)
Lemma windowSum_slice (d : list Z) (p : nat) :
  windowSum d (p + WINDOW_SIZE - 1)
  = Some (foldl (fun a b => num_add a (Some b)) (Some 0%Z)
                (slice d p (p + WINDOW_SIZE))).
Proof.
  unfold windowSum, WINDOW_SIZE. rewrite bool_decide_false by lia.
  by replace (p + 3 - 1 + 1 - 3) with p by lia;
     replace (p + 3 - 1 + 1) with (p + 3) by lia.
Qed.

Lemma windowSum_exact (d : list Z) (p : nat) :
  exact_sums d -> p + WINDOW_SIZE <= length d ->
  windowSum d (p + WINDOW_SIZE - 1)
  = Some (Some (foldl Z.add 0%Z (slice d p (p + WINDOW_SIZE)))).
Proof.
  intros Hd Hp. rewrite windowSum_slice.
  destruct (window_entries d p Hp) as (a & b & c & Ha & Hb & Hc & ->).
  cbn [foldl].
  by rewrite (window_sums_exact a b c (exact_sums_window d Hd p a b c Ha Hb Hc)).
Qed.

(** A firing that finds a window left moves on to the next one. *)
Lemma fire_scanning (d : list Z) (p : nat) (st : state) :
  scanning d p st -> p + WINDOW_SIZE <= length d ->
  scanning d (S p) (fire st) /\
  currentSum (fire st) = window_sum_step st /\
  alertWindow (fire st)
  = if num_gt (currentSum (fire st)) THRESHOLD then Some p
    else alertWindow st.
Proof.
  intros (Hdata & Hplay & Hdone & Hstart) Hp.
  unfold fire. rewrite Hplay, Hdone. simpl andb. cbv iota.
  unfold tick. rewrite Hdata, Hstart. unfold WINDOW_SIZE in *.
  rewrite bool_decide_false by lia.
  unfold scanning. cbn [data isPlaying pythonComplete windowStart currentSum
                        alertWindow].
  repeat split; try done. lia.
Qed.

Lemma after_scanning (d : list Z) (input : string) (p : nat) :
  p + WINDOW_SIZE <= length d + 1 ->
  scanning d p (after p (click_play (ready d input))).
Proof.
  induction p as [|p IH]; intros Hp; [done|].
  simpl. apply fire_scanning; [apply IH|]; lia.
Qed.

Lemma fire_sliding (d : list Z) (p : nat) (st : state) :
  exact_sums d ->
  sliding d p st -> p + WINDOW_SIZE <= length d ->
  sliding d (S p) (fire st).
Proof.
  intros Hd [Hscan Hsum] Hp.
  destruct (fire_scanning d p st Hscan Hp) as (Hscan' & Hcur & _).
  split; [done|]. intros _. rewrite Hcur.
  destruct Hscan as (Hdata & _ & _ & Hstart).
  destruct (window_entries d p Hp) as (a & b & c & Ha & Hb & Hc & Hslice).
  pose proof (exact_sums_window d Hd p a b c Ha Hb Hc) as Hwindow.
  unfold window_sum_step. rewrite Hdata, Hstart.
  replace (S p - 1) with p by lia. rewrite Hslice. cbn [foldl].
  unfold WINDOW_SIZE in *.
  destruct (decide (p = 0)) as [->|Hpos].
  - rewrite bool_decide_true by done. unfold sum_from_scratch.
    simpl in Ha, Hb, Hc.
    change (seq 0 (S (0 + 3 - 1) - 0)) with [0; 1; 2]. cbn [foldl].
    rewrite Ha, Hb, Hc. by apply window_sums_exact.
  - rewrite bool_decide_false by done.
    destruct (window_entries d (p - 1)) as (z & a' & b' & Hz & Ha2 & Hb2 & Hprev);
      [unfold WINDOW_SIZE; lia|].
    pose proof (exact_sums_window d Hd (p - 1) z a' b' Hz Ha2 Hb2) as Hbefore.
    replace (p - 1 + 1) with p in Ha2 by lia.
    replace (p - 1 + 2) with (p + 1) in Hb2 by lia.
    rewrite Hsum by lia. unfold WINDOW_SIZE in Hprev. rewrite Hprev.
    replace (p + 3 - 1) with (p + 2) by lia.
    rewrite Hz, Hc. cbn [foldl].
    assert (a' = a) by congruence. assert (b' = b) by congruence. subst a' b'.
    by apply slide_exact.
Qed.

Lemma after_sliding (d : list Z) (input : string) (p : nat) :
  exact_sums d ->
  p + WINDOW_SIZE <= length d + 1 ->
  sliding d p (after p (click_play (ready d input))).
Proof.
  intros Hd. induction p as [|p IH]; intros Hp.
  - split; [done|]. lia.
  - simpl. apply fire_sliding; [done|apply IH|]; lia.
Qed.

(** C3 (as stated, refuted): the sums are sums of doubles, which round above
    2^53. On the text "9007199254740991, 1, 1, 1" the first window adds up
    to 2^53 (the exact 2^53 + 1 is no double), so the slide to the second
    window keeps 2^53 - (2^53 - 1) + 1 = 2, while the table adds 1, 1 and 1
    for that window and shows 3. *)
Lemma sliding_sum_rounds_above_2_53 :
  let st := fst (handleParse
                   (setInputStr "9007199254740991, 1, 1, 1" mount)) in
  data st = [9007199254740991; 1; 1; 1]%Z /\
  currentSum (after 1 (click_play st)) = Some 9007199254740992%Z /\
  currentSum (after 2 (click_play st)) = Some 2%Z /\
  windowSum (data st) (1 + WINDOW_SIZE - 1) = Some (Some 3%Z) /\
  windowSum (data st) (1 + WINDOW_SIZE - 1)
  <> Some (currentSum (after 2 (click_play st))).
Proof. vm_compute. repeat split; discriminate. Qed.

(** C3 (amended): when the sums of every window are exact (its entries, the
    sum of its first two entries and the sum of all three are at most 2^53
    in magnitude), with [WINDOW_SIZE = 3 <= N], once the loop has processed
    the window that starts at [p] (its firing number [p + 1]), the sum it
    keeps is the sum of [data[p..p+2]], which is the cell the table computes
    by slicing for row [p + 2]. *)
Theorem sliding_sum_is_window_sum (d : list Z) (input : string) (p : nat) :
  exact_sums d ->
  WINDOW_SIZE <= length d -> p <= length d - WINDOW_SIZE ->
  currentSum (after (S p) (click_play (ready d input)))
  = Some (foldl Z.add 0%Z (slice d p (p + WINDOW_SIZE))) /\
  windowSum d (p + WINDOW_SIZE - 1)
  = Some (currentSum (after (S p) (click_play (ready d input)))).
Proof.
  intros Hd HK Hp.
  destruct (after_sliding d input (S p) Hd) as [_ Hsum]; [lia|].
  specialize (Hsum ltac:(lia)). replace (S p - 1) with p in Hsum by lia.
  split; [done|]. rewrite Hsum. apply windowSum_exact; [done|lia].
Qed.

Lemma sliding_sum_is_window_sum_witness :
  currentSum (after 5 (click_play (ready SAMPLE_DATA EmptyString)))
  = Some (foldl Z.add 0%Z (slice SAMPLE_DATA 4 (4 + WINDOW_SIZE))) /\
  windowSum SAMPLE_DATA (4 + WINDOW_SIZE - 1)
  = Some (currentSum (after 5 (click_play (ready SAMPLE_DATA EmptyString)))).
Proof.
  apply (sliding_sum_is_window_sum SAMPLE_DATA EmptyString 4).
  - unfold SAMPLE_DATA, exact_sums, exact_window. repeat split; by vm_compute.
  - vm_compute; lia.
  - vm_compute; lia.
Defined.

End SlidingWindowFacts.

Section NumericEntryFacts.

Import JsText.




(** The parsed array holds, in order, the value of every token that
    [parseInt] accepts, and nothing for the others. *)
Lemma parse_numbers_tokens (input : string) :
  parse_numbers input = omap (fun t => parseInt (trim t)) (split "," input) /\
  forall n, n ∈ parse_numbers input <->
            exists t, t ∈ split "," input /\ parseInt (trim t) = Some n.
Proof.
  assert (Heq : parse_numbers input
                = omap (fun t => parseInt (trim t)) (split "," input)).
  { unfold parse_numbers, drop_nan, parse_tokens.
    induction (split "," input) as [|t ts IH]; [done|].
    rewrite fmap_cons. cbn [omap list_omap]. rewrite IH.
    by destruct (parseInt (trim t)). }
  split; [done|]. intros n. rewrite Heq. apply list_elem_of_omap.
Qed.






(** White space beyond ASCII is trimmed, here a no-break space and a line
    separator around a token, and a numeral past 2^53 is read as the
    nearest double. *)
Lemma parse_numbers_unicode_and_rounding :
  parse_numbers (String "194" (String "160" "5")) = [5]%Z /\
  parse_numbers ("7" +:+ String "226" (String "128" (String "168" ", 8")))
  = [7; 8]%Z /\
  parse_numbers "9007199254740993" = [9007199254740992]%Z /\
  parse_numbers "0x1F, -0x10, 0x" = [31; -16]%Z.
Proof. by vm_compute. Qed.



End NumericEntryFacts.



Section HeapFacts.

Import JsText Heap.

Lemma parentIdx_lt (i : nat) : 1 <= i -> parentIdx i < i.
Proof.
  intros Hi. unfold parentIdx. apply Nat.Div0.div_lt_upper_bound. lia.
Qed.

Lemma swap_length (h : list Job) (i j : nat) (ci cj : Job) :
  length (swap h i j ci cj) = length h.
Proof. unfold swap. by rewrite !length_insert. Qed.

Lemma swap_lookup (h : list Job) (i j : nat) (ci cj : Job) (k : nat) :
  h !! i = Some ci -> h !! j = Some cj ->
  swap h i j ci cj !! k
  = if decide (k = i) then Some cj
    else if decide (k = j) then Some ci else h !! k.
Proof.
  intros Hi Hj. unfold swap.
  apply lookup_lt_Some in Hi as Hil. apply lookup_lt_Some in Hj as Hjl.
  destruct (decide (k = i)) as [->|Hki].
  - by rewrite list_lookup_insert_eq by (by rewrite length_insert).
  - rewrite list_lookup_insert_ne by done.
    destruct (decide (k = j)) as [->|Hkj].
    + by rewrite list_lookup_insert_eq.
    + by rewrite list_lookup_insert_ne.
Qed.

(** One exchange with the parent moves the only place where the order may
    fail one level up. *)
Lemma swap_ordered_except (h : list Job) (i : nat) (child parent : Job) :
  1 <= i -> h !! i = Some child -> h !! parentIdx i = Some parent ->
  (priorityValue parent < priorityValue child)%Z ->
  ordered_except h i ->
  ordered_except (swap h i (parentIdx i) child parent) (parentIdx i).
Proof.
  intros Hi Hc Hp Hlt [Hord Hgrand].
  pose proof (parentIdx_lt i Hi) as Hji.
  split.
  - intros k c p Hk Hkj. rewrite !swap_lookup by done.
    pose proof (parentIdx_lt k Hk) as Hqk.
    destruct (decide (k = i)) as [->|Hki].
    + rewrite decide_False, decide_True by lia. intros [= <-] [= <-]. lia.
    + rewrite (decide_False (P := k = parentIdx i)) by done. intros Hkc.
      destruct (decide (parentIdx k = i)) as [Hqi|Hqi].
      * intros [= <-]. by apply (Hgrand k c parent).
      * destruct (decide (parentIdx k = parentIdx i)) as [Hqj|Hqj].
        -- intros [= <-]. rewrite <- Hqj in Hp.
           pose proof (Hord k c parent Hk Hki Hkc Hp). lia.
        -- intros Hkp. by apply (Hord k c p).
  - intros k c g Hk Hkj Hj. rewrite !swap_lookup by done.
    pose proof (parentIdx_lt _ Hj) as Hgj.
    rewrite (decide_False (P := parentIdx (parentIdx i) = i)) by lia.
    rewrite (decide_False (P := parentIdx (parentIdx i) = parentIdx i)) by lia.
    intros Hkc Hg.
    assert (Hpg : (priorityValue parent <= priorityValue g)%Z)
      by (apply (Hord (parentIdx i) parent g); [done|lia|done..]).
    destruct (decide (k = i)) as [->|Hki]; [by injection Hkc as <-|].
    pose proof (parentIdx_lt k Hk) as Hqk.
    rewrite decide_False in Hkc by lia. rewrite <- Hkj in Hp.
    pose proof (Hord k c parent Hk Hki Hkc Hp). lia.
Qed.

(** The bubble-up loop ends and restores the order. *)
Lemma bubbleUp_ordered (h : list Job) (j : nat) :
  j < length h -> ordered_except h j ->
  exists h',
    bubbleUp h j = Some h' /\ heap_ordered h' /\ length h' = length h.
Proof.
  functional induction (bubbleUp h j) as
    [h idx Hidx
    |h idx i Hidx child Hc parent Hp Hlt IH
    |h idx i Hidx child Hc parent Hp Hge
    |h idx i Hidx Hnone];
    intros Hlen Hord.
  - exists h. split; [done|]. split; [|done].
    intros k c p Hk. destruct Hord as [Hord _]. apply Hord; lia.
  - apply Z.ltb_lt in Hlt.
    destruct IH as (h' & Hrun & Hh' & Hl').
    + rewrite swap_length. pose proof (parentIdx_lt (S i)). lia.
    + apply swap_ordered_except; [lia|done..].
    + exists h'. rewrite swap_length in Hl'. done.
  - apply Z.ltb_ge in Hge. exists h. split; [done|]. split; [|done].
    intros k c p Hk Hkc Hkp. destruct Hord as [Hord _].
    destruct (decide (k = S i)) as [->|Hne]; [|by apply (Hord k c p)].
    rewrite Hc in Hkc. rewrite Hp in Hkp. by simplify_eq.
  - exfalso.
    destruct (lookup_lt_is_Some_2 h (S i) Hlen) as [x Hx].
    destruct (lookup_lt_is_Some_2 h (parentIdx (S i))) as [x' Hx'].
    + pose proof (parentIdx_lt (S i)). lia.
    + match goal with
      | Hnone : match h !! S i with _ => _ end |- _ =>
          by rewrite Hx, Hx' in Hnone
      end.
Qed.

(** Appending a job to an ordered heap leaves the order broken at most at
    the new last cell. *)
Lemma append_ordered_except (h : list Job) (job : Job) :
  heap_ordered h -> ordered_except (h ++ [job]) (length h).
Proof.
  intros Hord. split.
  - intros k c p Hk Hne Hkc Hkp.
    pose proof (parentIdx_lt k Hk) as Hqk.
    apply lookup_lt_Some in Hkc as Hkl. rewrite length_app in Hkl. simpl in Hkl.
    rewrite lookup_app_l in Hkc, Hkp by lia. by apply (Hord k c p).
  - intros k c g Hk Hkj _ Hkc _.
    pose proof (parentIdx_lt k Hk) as Hqk.
    apply lookup_lt_Some in Hkc. rewrite length_app in Hkc. simpl in Hkc. lia.
Qed.

Lemma addJob_ordered (p : Priority) (st : state) :
  heap_ordered (heap st) ->
  exists st',
    addJob p st = Some st' /\ heap_ordered (heap st') /\
    length (heap st') = S (length (heap st)).
Proof.
  intros Hord. unfold addJob.
  set (job := {| id := nextJobId st; name := _; priority := p;
                 priorityValue := _ |}).
  destruct (bubbleUp_ordered (heap st ++ [job])
              (length (heap st ++ [job]) - 1)) as (h' & -> & Hh' & Hl').
  - rewrite length_app. simpl. lia.
  - replace (length (heap st ++ [job]) - 1) with (length (heap st))
      by (rewrite length_app; simpl; lia).
    by apply append_ordered_except.
  - eexists. split; [done|]. simpl. rewrite length_app in Hl'. simpl in Hl'.
    split; [done|lia].
Qed.

(** C4: starting from the empty heap, any sequence of insertions, each with
    its bubble-up run to the end, leaves a heap in which every cell from
    index 1 on is at most its parent. *)
Theorem heap_insertions_keep_order (ps : list Priority) :
  exists st',
    addJobs ps initial_state = Some st' /\
    length (heap st') = length ps /\
    forall (i : nat) (child parent : Job),
      1 <= i -> heap st' !! i = Some child ->
      heap st' !! parentIdx i = Some parent ->
      (priorityValue parent >= priorityValue child)%Z.
Proof.
  assert (Hgen : forall st, heap_ordered (heap st) ->
            exists st', addJobs ps st = Some st' /\
                        length (heap st') = length (heap st) + length ps /\
                        heap_ordered (heap st')).
  { induction ps as [|p ps IH]; intros st Hord; simpl.
    - exists st. split; [done|]. split; [lia|done].
    - destruct (addJob_ordered p st Hord) as (st1 & -> & Hord1 & Hl1).
      destruct (IH st1 Hord1) as (st' & Hrun & Hl' & Hord').
      exists st'. split; [done|]. split; [lia|done]. }
  destruct (Hgen initial_state) as (st' & Hrun & Hl & Hord).
  - intros i c p _ Hc. by destruct i.
  - exists st'. split; [done|]. split; [done|].
    intros i c p Hi Hc Hp. pose proof (Hord i c p Hi Hc Hp). lia.
Qed.

(** C9: on a non-empty heap [popJob] shortens the array by one, puts the
    last job in cell 0 and leaves the cells in between where they were: what
    remains is the old array without its root. It does no bubble-down: a
    heap built by insertions can lose the order in one pop. *)
Theorem popJob_removes_root_only (st : state) :
  heap st <> [] ->
  length (heap (popJob st)) = length (heap st) - 1 /\
  (2 <= length (heap st) ->
   heap (popJob st) !! 0 = heap st !! (length (heap st) - 1)) /\
  (forall i : nat,
     1 <= i -> i < length (heap st) - 1 ->
     heap (popJob st) !! i = heap st !! i) /\
  heap (popJob st) ≡ₚ tail (heap st) /\
  nextJobId (popJob st) = nextJobId st /\
  exists st0,
    addJobs [Critical; Low; High; Low] initial_state = Some st0 /\
    heap_ordered (heap st0) /\
    ~ heap_ordered (heap (popJob st0)).
Proof.
  intros Hne.
  assert (Hbreak : exists st0,
             addJobs [Critical; Low; High; Low] initial_state = Some st0 /\
             heap_ordered (heap st0) /\
             ~ heap_ordered (heap (popJob st0))).
  { eexists. split; [vm_compute; reflexivity|]. split.
    - intros i c p Hi Hc Hp.
      do 4 (destruct i as [|i]; [try lia; vm_compute in Hc, Hp; simplify_eq;
                                 vm_compute; discriminate|]).
      vm_compute in Hc. discriminate.
    - intros Hord.
      pose proof (Hord 2 _ _ ltac:(lia) eq_refl eq_refl) as Hbad.
      vm_compute in Hbad. by apply Hbad. }
  unfold popJob. destruct (heap st) as [|root rest] eqn:Hheap; [done|].
  destruct rest as [|r rest' _] using rev_ind.
  { rewrite bool_decide_true by done. simpl. repeat split; try done; lia. }
  rewrite bool_decide_false by (simpl; rewrite length_app; simpl; lia).
  assert (Hlast : (root :: rest' ++ [r]) !! (length (root :: rest' ++ [r]) - 1)
                  = Some r).
  { simpl. rewrite length_app. simpl.
    replace (length rest' + 1 - 0) with (S (length rest')) by lia. simpl.
    by rewrite lookup_app_r, Nat.sub_diag by lia. }
  rewrite Hlast. cbn [heap nextJobId].
  assert (Htake : take (length (<[0:=r]> (root :: rest' ++ [r])) - 1)
                       (<[0:=r]> (root :: rest' ++ [r]))
                  = r :: rest').
  { simpl. rewrite length_app. simpl.
    replace (length rest' + 1 - 0) with (S (length rest')) by lia. simpl.
    by rewrite take_app_length. }
  rewrite Htake.
  assert (Hlen : length (root :: rest' ++ [r]) = S (S (length rest')))
    by (simpl; rewrite length_app; simpl; lia).
  rewrite Hlen. split; [simpl; lia|]. split; [done|]. split.
  - intros i Hi Hlt. destruct i as [|i]; [lia|]. simpl.
    rewrite lookup_app_l by lia. done.
  - split; [|done]. simpl. apply Permutation_cons_append.
Qed.

Lemma popJob_removes_root_only_witness :
  exists st0,
    addJobs [Critical; Low; High; Low] initial_state = Some st0 /\
    length (heap (popJob st0)) = length (heap st0) - 1 /\
    heap (popJob st0) ≡ₚ tail (heap st0).
Proof.
  eexists. split; [vm_compute; reflexivity|].
  match goal with
  | |- context [popJob ?s] =>
      destruct (popJob_removes_root_only s) as (Hl & _ & _ & Hp & _);
        [discriminate|exact (conj Hl Hp)]
  end.
Defined.

End HeapFacts.

Section GraphFacts.

Import Graph.
Local Open Scope string_scope.
Local Open Scope list_scope.

(** The adjacency lists that [buildGraph] produces. *)
Lemma buildGraph_lists :
  neighbors_of buildGraph <$> DAG_NODE_IDS = [["B"; "C"]; ["D"]; ["D"]; []].
Proof. by vm_compute. Qed.

(** C5: on the fixed DAG with source A, whether or not the loop head skips
    an already visited node, [runBFS] visits A, B, C, D, whose distances from
    A are 0, 1, 1, 2 (non-decreasing), and [runDFS] visits A, B, D, C, which
    is the pre-order that follows the adjacency lists in list order; each
    traversal visits every node exactly once. *)
Theorem graph_traversal_orders (skip_visited : bool) :
  exists bfs dfs,
    runBFS skip_visited = Some bfs /\
    runDFS skip_visited = Some dfs /\
    bfs = ["A"; "B"; "C"; "D"] /\
    distance buildGraph "A" <$> bfs = [Some 0; Some 1; Some 1; Some 2] /\
    Sorted le (omap (distance buildGraph "A") bfs) /\
    dfs = ["A"; "B"; "D"; "C"] /\
    dfs = preorder buildGraph (length DAG_NODE_IDS) [] "A" /\
    NoDup bfs /\ bfs ≡ₚ DAG_NODE_IDS /\
    NoDup dfs /\ dfs ≡ₚ DAG_NODE_IDS.
Proof.
  exists ["A"; "B"; "C"; "D"], ["A"; "B"; "D"; "C"].
  split; [by destruct skip_visited; vm_compute|].
  split; [by destruct skip_visited; vm_compute|].
  split; [done|]. split; [by vm_compute|].
  split; [vm_compute; repeat constructor|].
  split; [done|]. split; [by vm_compute|].
  split; [apply (bool_decide_unpack _); by vm_compute|].
  split; [done|].
  split; [apply (bool_decide_unpack _); by vm_compute|].
  unfold DAG_NODE_IDS. do 2 apply perm_skip. apply perm_swap.
Qed.

End GraphFacts.

Section StacksQueuesFacts.

Import JsText StacksQueues.

(** The newest entry survives the trimming of the log. *)
Lemma slice_last_last {A} (n : nat) (l : list A) (x : A) :
  last (slice_last (S n) (l ++ [x])) = Some x.
Proof.
  unfold slice_last. rewrite length_app. simpl.
  rewrite drop_app_le by lia. apply last_snoc.
Qed.

(** What one call of [addJob] from the current render does. *)
Lemma addJob_current (st : state) :
  (MAX_QUEUE_SIZE <= length (jobs st) ->
   jobs (addJob st st) = jobs st /\
   nextJobId (addJob st st) = nextJobId st /\
   processedJobs (addJob st st) = processedJobs st /\
   backpressureAlert (addJob st st) = true /\
   last (executionLog (addJob st st)) = Some (LogBackpressure MAX_QUEUE_SIZE)) /\
  (length (jobs st) < MAX_QUEUE_SIZE ->
   jobs (addJob st st) = jobs st ++ [nextJobId st] /\
   length (jobs (addJob st st)) <= MAX_QUEUE_SIZE).
Proof.
  unfold addJob. split; intros Hlen.
  - rewrite bool_decide_true by done. simpl. repeat split.
    apply slice_last_last.
  - rewrite bool_decide_false by lia. simpl.
    destruct (mode st); rewrite length_app; simpl; split; try done; lia.
Qed.

(** The depth monitor raises the alert exactly when the queue holds at
    least [BACKPRESSURE_THRESHOLD] jobs. *)
Lemma monitor_tick_alert (st : state) :
  backpressureAlert (monitor_tick st) = true
  <-> BACKPRESSURE_THRESHOLD <= length (jobs st).
Proof. simpl. by rewrite bool_decide_eq_true. Qed.

(** As long as no producer interval fires, every handler reads the render
    it runs in, and the queue never holds more than [MAX_QUEUE_SIZE] jobs. *)
Lemma queue_bounded_without_producers (evs : list event) :
  forallb (fun e => negb (is_kafka_tick e)) evs = true ->
  length (jobs (current (run evs initial_config))) <= MAX_QUEUE_SIZE.
Proof.
  unfold run.
  assert (Hgen : forall c,
             length (jobs (current c)) <= MAX_QUEUE_SIZE ->
             forallb (fun e => negb (is_kafka_tick e)) evs = true ->
             length (jobs (current (foldl apply_event c evs)))
             <= MAX_QUEUE_SIZE).
  { induction evs as [|e evs IH]; intros c Hc Hev; [done|].
    simpl in Hev. apply andb_true_iff in Hev as [He Hev].
    simpl. apply IH; [|done]. clear IH Hev.
    destruct e; simpl in *; try done.
    - case_bool_decide; [done|]. simpl.
      apply (addJob_current (current c)). unfold MAX_QUEUE_SIZE in *. lia.
    - destruct (isProcessing (current c) && _); [|done]. simpl.
      unfold processJob. case_bool_decide; [done|]. simpl.
      destruct (mode (current c)).
      + rewrite length_take. lia.
      + rewrite length_drop. lia.
    - unfold MAX_QUEUE_SIZE. lia.
    - unfold MAX_QUEUE_SIZE. lia.
    - by destruct (kafkaTriggered (current c)). }
  apply Hgen. simpl. unfold MAX_QUEUE_SIZE. lia.
Qed.

(** C8 (the code falls short of it): seven clicks on Add Job, a click on
    Simulate Producer Bursts, and two firings of the producer interval in
    which [Math.random() > 0.5] holds leave nine jobs in the queue. The
    interval keeps calling the [addJob] of the render it was started in,
    which still sees seven jobs and the job id 8. *)
Theorem kafka_producer_overfills_queue :
  let evs := replicate 7 ClickAddJob
             ++ [ClickKafka; KafkaTick 0 true; KafkaTick 0 true] in
  jobs (current (run evs initial_config)) = [1; 2; 3; 4; 5; 6; 7; 8; 8]%Z /\
  MAX_QUEUE_SIZE < length (jobs (current (run evs initial_config))).
Proof. vm_compute. split; [done|lia]. Qed.

End StacksQueuesFacts.

(** * Further properties of the modules *)

Section BinarySearchMore.

Import Js BinarySearch.
Local Open Scope Z_scope.

(** The loop on any array, sorted or not: it ends, every probe is inside
    [l..h], and a found report is at a cell that holds the target. *)
Lemma search_any (arr : list Z) (target : Z) :
  forall (k fuel : nat) (l h stepCount : Z),
    (k < fuel)%nat -> 0 <= l -> h < len arr ->
    h - l + 1 < 2 ^ Z.of_nat k ->
    exists evs r,
      search fuel arr target l h stepCount = (evs, Some r) /\
      stepCount <= steps_of r <= stepCount + Z.of_nat k /\
      Forall is_Some (probe_reads evs) /\
      match r with
      | Found m _ => l <= m <= h /\ js_get arr m = Some target
      | NotFound _ => True
      end.
Proof.
  induction k as [|k IH]; intros fuel l h sc Hfuel Hl Hh Hsize;
    (destruct fuel as [|fuel]; [lia|]); simpl search.
  - change (2 ^ Z.of_nat 0) with 1 in Hsize.
    destruct (Z.ltb_spec h l) as [_|?]; [|lia].
    eexists _, _. split; [reflexivity|]. simpl.
    split; [lia|]. split; [constructor|done].
  - rewrite Nat2Z.inj_succ, Z.pow_succ_r in Hsize by lia.
    destruct (Z.ltb_spec h l) as [Hlt|Hle].
    { eexists _, _. split; [reflexivity|]. simpl.
      split; [lia|]. split; [constructor|done]. }
    pose proof (Z.div_mod (h - l) 2 ltac:(lia)) as Hdm.
    pose proof (Z.mod_pos_bound (h - l) 2 ltac:(lia)) as Hmb.
    set (m := l + (h - l) / 2) in *.
    assert (Hm : l <= m <= h) by (subst m; lia).
    destruct (js_get_in_range arr m) as (v & Hget & Hlook); [lia|].
    rewrite Hget. simpl strict_eq. simpl js_lt.
    destruct (Z.eqb_spec v target) as [->|Hne].
    { eexists _, _. split; [reflexivity|]. simpl. split; [lia|].
      split; [by repeat constructor|done]. }
    destruct (Z.ltb_spec v target) as [Hvlt|Hvge].
    + destruct (IH fuel (m + 1) h (sc + 1))
        as (evs & r & Hrun & Hsteps & Hreads & Hres);
        [lia|lia|lia|subst m; lia|].
      rewrite Hrun. eexists _, _. split; [reflexivity|]. split; [lia|].
      split; [simpl; by constructor|].
      destruct r; [|done]. split; [lia|tauto].
    + destruct (IH fuel l (m - 1) (sc + 1))
        as (evs & r & Hrun & Hsteps & Hreads & Hres);
        [lia|lia|lia|subst m; lia|].
      rewrite Hrun. eexists _, _. split; [reflexivity|]. split; [lia|].
      split; [simpl; by constructor|].
      destruct r; [|done]. split; [lia|tauto].
Qed.

(** X1: on every array, sorted or not, the search of [runBinarySearch] ends
    within [floor (log2 N) + 1] probes, reads only cells of the array, and
    reports found only at a cell that holds the target; so a target that is
    not in the array is always reported not-found. *)
Theorem binary_search_sound_on_any_array (arr : list Z) (target : Z) :
  exists evs r,
    runBinarySearch arr target = (evs, Some r) /\
    steps_of r <= floor_log2 (len arr) + 1 /\
    Forall is_Some (probe_reads evs) /\
    (forall m s, r = Found m s ->
                 0 <= m < len arr /\ js_get arr m = Some target) /\
    (~ In target arr -> exists s, r = NotFound s).
Proof.
  unfold runBinarySearch.
  assert (Hrun : exists evs r,
             search (S (length arr)) arr target 0 (len arr - 1) 0
             = (evs, Some r) /\
             0 <= steps_of r <= floor_log2 (len arr) + 1 /\
             Forall is_Some (probe_reads evs) /\
             match r with
             | Found m _ => 0 <= m <= len arr - 1 /\ js_get arr m = Some target
             | NotFound _ => True
             end).
  { destruct arr as [|a arr'].
    - eexists _, _. split; [reflexivity|]. simpl.
      split; [done|]. split; [constructor|done].
    - set (arr := a :: arr') in *.
      destruct (len_lt_pow2 (len arr)) as [Hpow Hk]; [unfold len; lia|].
      assert (0 <= floor_log2 (len arr)) by apply Z.log2_nonneg.
      destruct (search_any arr target
                  (Z.to_nat (floor_log2 (len arr) + 1)) (S (length arr))
                  0 (len arr - 1) 0) as (evs & r & Hrun & Hsteps & Hres).
      + unfold len in *. simpl length in *. lia.
      + lia.
      + lia.
      + rewrite Z2Nat.id by lia. lia.
      + exists evs, r. rewrite Z2Nat.id in Hsteps by lia. done. }
  destruct Hrun as (evs & r & -> & Hsteps & Hreads & Hres).
  eexists _, r. split; [reflexivity|]. split; [lia|].
  split; [simpl; done|]. split.
  - intros m s ->. split; [lia|tauto].
  - intros Hnot. destruct r as [m s|s]; [|eauto].
    destruct Hres as [Hm Hget]. exfalso. apply Hnot.
    unfold js_get in Hget. destruct (m <? 0); [done|].
    apply list_elem_of_In, list_elem_of_lookup. eauto.
Qed.

(** A partition is marked scanned exactly when its range holds the query
    id, and pruned otherwise. *)
Lemma pruning_status (queryId : Z) (ps : list MicroPartition) (p : MicroPartition) :
  p ∈ runPartitionPruning queryId ps ->
  (status p = scanned /\ minId p <= queryId <= maxId p) \/
  (status p = pruned /\ ~ minId p <= queryId <= maxId p).
Proof.
  unfold runPartitionPruning. rewrite <- list_fmap_compose.
  intros (p0 & -> & _)%list_elem_of_fmap. simpl.
  destruct (Z.leb_spec (minId p0) queryId), (Z.leb_spec queryId (maxId p0));
    simpl; [left|right..]; split; try done; lia.
Qed.

(** X2: [runPartitionPruning] marks every partition scanned or pruned (the
    two counts add up to the number of partitions) and keeps the ids in
    order, whatever the partitions are; and when the ranges follow one
    another without overlap, as those of the panel do, it scans at most one
    partition. *)
Theorem pruning_scans_at_most_one (queryId : Z) (ps : list MicroPartition) :
  (scannedCount (runPartitionPruning queryId ps)
   + prunedCount (runPartitionPruning queryId ps) = length ps)%nat /\
  (pid <$> runPartitionPruning queryId ps) = (pid <$> ps) /\
  (ranges_ascending ps ->
   (scannedCount (runPartitionPruning queryId ps) <= 1)%nat).
Proof.
  unfold scannedCount, prunedCount, runPartitionPruning.
  rewrite <- !list_fmap_compose.
  induction ps as [|p ps IH]; [simpl; repeat split; lia|].
  destruct IH as (Hsum & Hids & Hone).
  rewrite !fmap_cons. cbn [compose minId maxId pid].
  destruct ((minId p <=? queryId) && (queryId <=? maxId p)) eqn:Hin.
  - rewrite filter_cons_True by done.
    rewrite (filter_cons_False (fun p => is_pruned p = true)) by done.
    simpl length. split; [lia|]. split; [by f_equal|].
    intros [Hall _].
    assert (Hnone : filter (fun p0 => is_scanned p0 = true)
              ((fun p0 =>
                  if (minId p0 <=? queryId) && (queryId <=? maxId p0)
                  then mkPartition (pid p0) (pname p0) (minId p0) (maxId p0) scanned
                  else mkPartition (pid p0) (pname p0) (minId p0) (maxId p0) pruned)
                 ∘ (fun p0 => mkPartition (pid p0) (pname p0) (minId p0)
                                          (maxId p0) idle) <$> ps) = []).
    { apply andb_true_iff in Hin as [_ Hq]. apply Z.leb_le in Hq.
      clear Hsum Hids Hone. induction Hall as [|p' ps' Hp' _ IH']; [done|].
      rewrite fmap_cons. cbn [compose minId maxId].
      replace (minId p' <=? queryId) with false
        by (symmetry; apply Z.leb_gt; lia).
      simpl. by rewrite filter_cons_False. }
    rewrite Hnone. simpl. lia.
  - rewrite filter_cons_False by done.
    rewrite (filter_cons_True (fun p => is_pruned p = true)) by done.
    simpl length. split; [lia|]. split; [by f_equal|].
    intros [_ Hasc]. by apply Hone.
Qed.

Lemma pruning_scans_at_most_one_witness :
  (scannedCount (runPartitionPruning 150 initial_partitions) <= 1)%nat.
Proof.
  apply (pruning_scans_at_most_one 150 initial_partitions).
  simpl. repeat split; repeat constructor; simpl; lia.
Defined.

End BinarySearchMore.

Section TwoPointersMore.

Import JsText TwoPointers.

Lemma collapse_runs_snoc (l : list Z) (x : Z) :
  collapse_runs (l ++ [x])
  = if decide (last l = Some x) then collapse_runs l
    else collapse_runs l ++ [x].
Proof.
  induction l as [|a l IH]; [done|].
  destruct l as [|b l].
  - simpl. destruct (decide (a = x)) as [->|Hne].
    + by rewrite decide_True.
    + by rewrite decide_False by congruence.
  - change ((a :: b :: l) ++ [x]) with (a :: (b :: l) ++ [x]).
    change (last (a :: b :: l)) with (last (b :: l)).
    cbn [collapse_runs app] in *. rewrite IH.
    destruct (decide (a = b)); [done|].
    by destruct (decide (last (b :: l) = Some x)).
Qed.

Lemma collapse_runs_length_le (l : list Z) :
  length (collapse_runs l) <= length l.
Proof.
  induction l as [|a l IH]; [done|]. destruct l as [|b l]; [done|].
  cbn [collapse_runs]. destruct (decide (a = b)); simpl in *; lia.
Qed.

Lemma collapse_runs_last (l : list Z) : last (collapse_runs l) = last l.
Proof.
  induction l as [|x l IH] using rev_ind; [done|].
  rewrite collapse_runs_snoc, last_snoc.
  destruct (decide (last l = Some x)) as [Heq|Hne]; [congruence|].
  apply last_snoc.
Qed.

(** The invariant of the loop on any array, with [data = pre ++ post] and
    the read pointer at the first entry of [post]. [base] is what lies in
    front of the compacted values: nothing after mount or Set Data, a hole
    after reset. *)
Lemma run_collapse_invariant (post : list Z) :
  forall (pre : list Z) (skipped : list Z) (base : list (option Z))
         (st : state) (fuel : nat),
    data st = skipped ++ pre ++ post -> pre <> [] ->
    readPointer st = length (skipped ++ pre) ->
    isPlaying st = true -> pythonComplete st = false ->
    writePointer st = length base + length (collapse_runs pre) ->
    take (writePointer st) (processedArray st)
    = base ++ (Some <$> collapse_runs pre) ->
    (length (processedArray st) = writePointer st \/
     length (skipped ++ pre ++ post) <= length (processedArray st)) ->
    length base + length pre <= length (skipped ++ pre) ->
    length post < fuel ->
    exists st',
      run fuel st = Some st' /\
      pythonComplete st' = true /\
      readPointer st' = length (data st) /\
      writePointer st' = length base + length (collapse_runs (pre ++ post)) /\
      take (writePointer st') (processedArray st')
      = base ++ (Some <$> collapse_runs (pre ++ post)) /\
      (length (processedArray st) = writePointer st ->
       length (processedArray st') = writePointer st').
Proof.
  induction post as [|x post IH];
    intros pre skipped base st fuel Hdata Hpre Hread Hplay Hdone Hwp Htake
           Hlen Hbase Hfuel;
    (destruct fuel as [|fuel]; [simpl in Hfuel; lia|]);
    simpl run; rewrite Hplay, Hdone; simpl andb; cbv iota; unfold tick.
  - rewrite app_nil_r in *. rewrite Hdata, Hread.
    rewrite bool_decide_true by lia.
    eexists. split; [by destruct fuel|]. simpl. auto.
  - rewrite Hdata, Hread. rewrite bool_decide_false
      by (rewrite !length_app; simpl; lia).
    rewrite app_assoc, lookup_app_r, Nat.sub_diag by lia. simpl lookup.
    rewrite <- app_assoc.
    pose proof (collapse_runs_length_le pre) as Hcl.
    assert (Hlastcell : read_cell (processedArray st) (writePointer st - 1)
                        = last pre).
    { pose proof (collapse_runs_last pre) as Hlastc.
      assert (Hne : collapse_runs pre <> []).
      { intros Hnil. rewrite Hnil in Hlastc. by destruct pre using rev_ind;
          [|rewrite last_snoc in Hlastc]. }
      assert (Hcpos : 1 <= length (collapse_runs pre))
        by (destruct (collapse_runs pre); [done|simpl; lia]).
      unfold read_cell.
      assert (Hcell : processedArray st !! (writePointer st - 1)
                      = Some <$> last pre).
      { rewrite <- Hlastc.
        rewrite <- (lookup_take_lt _ (writePointer st)) by lia.
        rewrite Htake, lookup_app_r by lia.
        rewrite list_lookup_fmap, Hwp.
        replace (length base + length (collapse_runs pre) - 1 - length base)
          with (length (collapse_runs pre) - 1) by lia.
        by rewrite last_lookup, Nat.sub_1_r. }
      rewrite Hcell. by destruct (last pre). }
    rewrite Hlastcell.
    assert (Hassoc : skipped ++ pre ++ x :: post = skipped ++ (pre ++ [x]) ++ post)
      by (by rewrite <- (app_assoc pre)).
    assert (Hassoc' : pre ++ x :: post = (pre ++ [x]) ++ post)
      by (by rewrite <- app_assoc).
    destruct (decide (Some x = last pre)) as [Heq|Hneq].
    + rewrite bool_decide_false by (intros Hc; by apply Hc).
      destruct (IH (pre ++ [x]) skipped base
                  {| inputStr := inputStr st;
                     data := skipped ++ pre ++ x :: post;
                     isPlaying := true; pythonComplete := false;
                     readPointer := length (skipped ++ pre) + 1;
                     writePointer := writePointer st;
                     processedArray := processedArray st;
                     executionLog :=
                       slice_last 4 (executionLog st ++
                         [LogSkip (length (skipped ++ pre)) (Some x) (last pre)
                                  (writePointer st)]) |} fuel)
        as (st' & Hrun & Hres); simpl.
      * done.
      * by destruct pre.
      * rewrite !length_app. simpl. lia.
      * done.
      * done.
      * by rewrite collapse_runs_snoc, decide_True.
      * by rewrite collapse_runs_snoc, decide_True.
      * by rewrite <- Hassoc.
      * rewrite !length_app in *. simpl. lia.
      * simpl in Hfuel. lia.
      * exists st'. rewrite Hplay, Hdone in *. rewrite Hrun.
        rewrite <- Hassoc' in Hres. done.
    + rewrite bool_decide_true by done.
      destruct (IH (pre ++ [x]) skipped base
                  {| inputStr := inputStr st;
                     data := skipped ++ pre ++ x :: post;
                     isPlaying := true; pythonComplete := false;
                     readPointer := length (skipped ++ pre) + 1;
                     writePointer := writePointer st + 1;
                     processedArray :=
                       write_cell (processedArray st) (writePointer st) (Some x);
                     executionLog :=
                       slice_last 4 (executionLog st ++
                         [LogCopy (length (skipped ++ pre)) (Some x) (last pre)
                                  (writePointer st)]) |} fuel)
        as (st' & Hrun & Hres); simpl.
      * done.
      * by destruct pre.
      * rewrite !length_app. simpl. lia.
      * done.
      * done.
      * rewrite collapse_runs_snoc, decide_False, length_app by done.
        simpl. lia.
      * rewrite collapse_runs_snoc, decide_False, fmap_app by done. simpl.
        rewrite app_assoc, <- Htake. unfold write_cell.
        destruct Hlen as [Hexact|Hroom].
        -- rewrite bool_decide_false by lia.
           rewrite Hexact, Nat.sub_diag. simpl.
           rewrite (take_ge (processedArray st)) by lia.
           rewrite take_ge by (rewrite length_app; simpl; lia). done.
        -- assert (writePointer st < length (processedArray st)).
           { rewrite !length_app in *. simpl in *. lia. }
           rewrite bool_decide_true by done.
           rewrite Nat.add_1_r.
           erewrite take_S_r by (by apply list_lookup_insert_eq).
           by rewrite take_insert_ge by lia.
      * unfold write_cell. destruct Hlen as [Hexact|Hroom].
        -- left. rewrite bool_decide_false by lia.
           rewrite Hexact, Nat.sub_diag, !length_app. simpl. lia.
        -- right. assert (writePointer st < length (processedArray st)).
           { rewrite !length_app in *. simpl in *. lia. }
           rewrite bool_decide_true by done.
           by rewrite length_insert, <- Hassoc.
      * rewrite !length_app in *. simpl. lia.
      * simpl in Hfuel. lia.
      * exists st'. rewrite Hplay, Hdone in *. rewrite Hrun.
        rewrite <- Hassoc' in Hres.
        destruct Hres as (? & ? & ? & ? & Hexact'). simpl in Hexact'.
        repeat split; try done. intros Hexact. apply Hexact'.
        unfold write_cell. rewrite bool_decide_false by lia.
        rewrite !length_app, length_replicate. simpl. lia.

Qed.


(** X3: on every non-empty array, sorted or not, the loop started from the
    state set up at mount or by Set Data ends with the read pointer at the
    end, and the first [writePointer] cells hold the array with every run of
    equal neighbours reduced to one entry. *)
Theorem two_pointers_collapses_runs (d : list Z) (input : string) :
  d <> [] ->
  exists st',
    run (S (length d)) (click_play (ready d input)) = Some st' /\
    pythonComplete st' = true /\
    readPointer st' = length d /\
    writePointer st' = length (collapse_runs d) /\
    take (writePointer st') (processedArray st') = Some <$> collapse_runs d.
Proof.
  intros Hne. destruct d as [|d0 rest]; [done|].
  destruct (run_collapse_invariant rest [d0] [] []
              (click_play (ready (d0 :: rest) input))
              (S (length (d0 :: rest))))
    as (st' & Hrun & Hdone & Hrp & Hwp & Htake & _); try done.
  - right. simpl. by rewrite length_replicate.
  - simpl. lia.
  - exists st'. auto.
Qed.

Lemma two_pointers_collapses_runs_witness :
  exists st',
    run 6 (click_play (ready [3; 3; 1; 3; 3]%Z EmptyString)) = Some st' /\
    pythonComplete st' = true /\
    readPointer st' = 5 /\
    writePointer st' = length (collapse_runs [3; 3; 1; 3; 3]%Z) /\
    take (writePointer st') (processedArray st')
    = Some <$> collapse_runs [3; 3; 1; 3; 3]%Z.
Proof.
  apply (two_pointers_collapses_runs [3; 3; 1; 3; 3]%Z EmptyString).
  discriminate.
Defined.

(** X4: a run started after the reset button, on any array of at least two
    entries: the effect that fills [processedArray] has not run again, so
    the first comparison is against a hole; the run ends with a hole in
    cell 0, followed by the compacted entries of [data[1..]], and the write
    pointer is one more than their number. *)
Theorem two_pointers_after_reset (d : list Z) (input : string) :
  2 <= length d ->
  exists st',
    run (S (length d)) (click_play (click_reset (ready d input))) = Some st' /\
    pythonComplete st' = true /\
    writePointer st' = 1 + length (collapse_runs (tail d)) /\
    processedArray st' = None :: (Some <$> collapse_runs (tail d)).
Proof.
  intros Hlen. destruct d as [|d0 [|d1 rest]]; [simpl in Hlen; lia..|].
  change (run (S (length (d0 :: d1 :: rest)))
              (click_play (click_reset (ready (d0 :: d1 :: rest) input))))
    with (run (S (S (length rest)))
              (tick (click_play (click_reset (ready (d0 :: d1 :: rest) input))))).
  destruct (run_collapse_invariant rest [d1] [d0] [None]
              (tick (click_play (click_reset (ready (d0 :: d1 :: rest) input))))
              (S (S (length rest))))
    as (st' & Hrun & Hdone & Hrp & Hwp & Htake & Hexact); try done.
  - by left.
  - lia.
  - exists st'. split; [done|]. split; [done|]. split; [done|].
    change (None :: (Some <$> collapse_runs (tail (d0 :: d1 :: rest))))
      with ([None] ++ (Some <$> collapse_runs ([d1] ++ rest))).
    rewrite <- Htake. symmetry. apply take_ge. rewrite Hexact; done.
Qed.

Lemma two_pointers_after_reset_witness :
  exists st',
    run (S (length SAMPLE_DATA))
        (click_play (click_reset (ready SAMPLE_DATA EmptyString))) = Some st' /\
    pythonComplete st' = true /\
    writePointer st' = 1 + length (collapse_runs (tail SAMPLE_DATA)) /\
    processedArray st' = None :: (Some <$> collapse_runs (tail SAMPLE_DATA)).
Proof.
  apply (two_pointers_after_reset SAMPLE_DATA EmptyString). simpl. lia.
Defined.

Lemma tick_data (st : state) : data (tick st) = data st.
Proof. unfold tick. by repeat case_bool_decide. Qed.

(** X5: whatever the user types and clicks and however often the interval
    fires, the dataset of the component is never empty and always sorted:
    the precondition of the deduplication holds in every reachable state. *)
Theorem two_pointers_data_always_sorted (evs : list event) :
  data (foldl apply_event mount evs) <> [] /\
  Sorted Z.le (data (foldl apply_event mount evs)).
Proof.
  assert (Hgen : forall st, data st <> [] /\ Sorted Z.le (data st) ->
            data (foldl apply_event st evs) <> [] /\
            Sorted Z.le (data (foldl apply_event st evs))).
  { induction evs as [|e evs IH]; intros st Hst; [done|].
    simpl. apply IH. destruct e; simpl; try done.
    - unfold click_SetData, handleParse.
      case_bool_decide as Hempty; [done|]. simpl. unfold init_effect. simpl.
      assert (Hperm : sort_ascending (parse_numbers (inputStr st))
                      ≡ₚ parse_numbers (inputStr st))
        by apply merge_sort_Permutation.
      assert (Hsorted : Sorted Z.le
                          (sort_ascending (parse_numbers (inputStr st)))).
      { apply Sorted_merge_sort. intros x y. lia. }
      destruct (sort_ascending (parse_numbers (inputStr st))) as [|d0 rest].
      + apply Permutation_nil_l in Hperm. by rewrite <- Hperm in Hempty.
      + done.
    - by destruct (pythonComplete st).
    - destruct (isPlaying st && negb (pythonComplete st)); [|done].
      by rewrite tick_data. }
  apply Hgen. split; [done|]. unfold mount, ready, init_effect. simpl.
  repeat constructor; discriminate.
Qed.

End TwoPointersMore.

Section SlidingWindowMore.

Import JsText SlidingWindow.

(** The firing that finds no window left ends the scan. *)
Lemma fire_completes (d : list Z) (p : nat) (st : state) :
  scanning d p st -> length d < p + WINDOW_SIZE ->
  pythonComplete (fire st) = true /\ isPlaying (fire st) = false /\
  windowStart (fire st) = p /\ currentSum (fire st) = currentSum st /\
  alertWindow (fire st) = alertWindow st /\
  last (executionLog (fire st))
  = Some (LogScanComplete (Z.of_nat (length d) - Z.of_nat WINDOW_SIZE + 1)).
Proof.
  intros (Hdata & Hplay & Hdone & Hstart) Hp.
  unfold fire. rewrite Hplay, Hdone. simpl andb. cbv iota.
  unfold tick. rewrite Hdata, Hstart. unfold WINDOW_SIZE in *.
  rewrite bool_decide_true by lia. simpl. by rewrite last_snoc.
Qed.

Lemma after_complete_stays (n m : nat) (st : state) :
  pythonComplete (after n st) = true -> after (n + m) st = after n st.
Proof.
  intros Hdone. induction m as [|m IH]; [by rewrite Nat.add_0_r|].
  rewrite Nat.add_succ_r. unfold after in *. simpl. rewrite IH.
  unfold fire at 1. rewrite Hdone. by rewrite andb_false_r.
Qed.

(** X6: the scan of an array of [N] entries processes the windows that
    start at [0 .. N - 3] in order, one per firing, and the next firing ends
    it: with [n = N - 2] windows ([0] when [N < 3]) the loop is still
    running after each of the first [n] firings, firing [n + 1] sets
    [pythonComplete], logs the count [N - 3 + 1] (not positive when
    [N < 3]), and later firings change nothing. *)
Theorem sliding_scan_completes (d : list Z) (input : string) :
  let n := length d + 1 - WINDOW_SIZE in
  let st0 := click_play (ready d input) in
  (forall m, m <= n ->
     pythonComplete (after m st0) = false /\ windowStart (after m st0) = m) /\
  pythonComplete (after (S n) st0) = true /\
  isPlaying (after (S n) st0) = false /\
  windowStart (after (S n) st0) = n /\
  last (executionLog (after (S n) st0))
  = Some (LogScanComplete (Z.of_nat (length d) - Z.of_nat WINDOW_SIZE + 1)) /\
  forall m, after (S n + m) st0 = after (S n) st0.
Proof.
  intros n st0.
  assert (Hscan : forall m, m <= n -> scanning d m (after m st0)).
  { intros m Hm. destruct m as [|m]; [done|].
    apply after_scanning. subst n. unfold WINDOW_SIZE in *. lia. }
  destruct (fire_completes d n (after n st0)) as (Hdone & Hplay & Hstart & _ & _ & Hlog).
  { by apply Hscan. }
  { subst n. unfold WINDOW_SIZE. lia. }
  split; [|split; [done|split; [done|split; [done|split; [done|]]]]].
  - intros m Hm. destruct (Hscan m Hm) as (_ & _ & ? & ?). done.
  - intros m. by apply after_complete_stays.
Qed.

(** The alert after the firing that processes window [p]. *)
Lemma after_latest_alert (d : list Z) (input : string) (p : nat) :
  exact_sums d ->
  p + WINDOW_SIZE <= length d ->
  latest_alert d p (alertWindow (after (S p) (click_play (ready d input)))).
Proof.
  intros Hd. set (st0 := click_play (ready d input)).
  assert (Hsum : forall q, q + WINDOW_SIZE <= length d ->
            windowSum d (q + WINDOW_SIZE - 1)
            = Some (currentSum (after (S q) st0))).
  { intros q Hq. rewrite windowSum_exact by done.
    destruct (after_sliding d input (S q) Hd) as [_ Hs]; [lia|].
    specialize (Hs ltac:(lia)). replace (S q - 1) with q in Hs by lia.
    fold st0 in Hs. by rewrite Hs. }
  assert (Halert : forall q, q + WINDOW_SIZE <= length d ->
            alertWindow (after (S q) st0)
            = if num_gt (currentSum (after (S q) st0)) THRESHOLD then Some q
              else alertWindow (after q st0)).
  { intros q Hq. change (after (S q) st0) with (fire (after q st0)).
    apply (fire_scanning d q); [|done]. apply after_scanning. lia. }
  induction p as [|p IH]; intros Hp.
  - rewrite (Halert 0 Hp).
    change (alertWindow (after 0 st0)) with (@None nat).
    destruct (num_gt (currentSum (after 1 st0)) THRESHOLD) eqn:Hgt;
      unfold latest_alert.
    + split; [done|]. split; [|intros r; lia]. rewrite (Hsum 0 Hp). eauto.
    + intros r Hr. replace r with 0 by lia. rewrite (Hsum 0 Hp). eauto.
  - specialize (IH ltac:(lia)). rewrite (Halert (S p) Hp).
    destruct (num_gt (currentSum (after (S (S p)) st0)) THRESHOLD) eqn:Hgt.
    + unfold latest_alert. split; [done|]. split; [|intros r; lia].
      rewrite (Hsum (S p) Hp). eauto.
    + unfold latest_alert in *.
      destruct (alertWindow (after (S p) st0)) as [q|].
      * destruct IH as (Hq & Hover & Hbelow). split; [lia|]. split; [done|].
        intros r Hr. destruct (decide (r = S p)) as [->|Hne].
        -- rewrite (Hsum (S p) Hp). eauto.
        -- apply Hbelow. lia.
      * intros r Hr. destruct (decide (r = S p)) as [->|Hne].
        -- rewrite (Hsum (S p) Hp). eauto.
        -- apply IH. lia.
Qed.

(** X7: when the sums of every window are exact (at most 2^53 in magnitude,
    as are the entries and the sum of the first two of each window), once
    the scan is complete the alert left on screen marks the latest window
    whose sum, as the table computes it by slicing, exceeds [THRESHOLD];
    there is no alert exactly when no window exceeds it. *)
Theorem sliding_alert_is_latest_excess (d : list Z) (input : string) :
  exact_sums d ->
  WINDOW_SIZE <= length d ->
  let n := length d + 1 - WINDOW_SIZE in
  let final := after (S n) (click_play (ready d input)) in
  pythonComplete final = true /\
  latest_alert d (n - 1) (alertWindow final).
Proof.
  intros Hd HK n final.
  destruct (fire_completes d n (after n (click_play (ready d input))))
    as (Hdone & _ & _ & _ & Halert & _).
  { apply after_scanning. subst n. unfold WINDOW_SIZE in *. lia. }
  { subst n. unfold WINDOW_SIZE. lia. }
  split; [done|]. subst final. change (after (S n) ?s) with (fire (after n s)).
  rewrite Halert. replace n with (S (n - 1)) at 2
    by (subst n; unfold WINDOW_SIZE in *; lia).
  apply after_latest_alert; [done|]. subst n. unfold WINDOW_SIZE in *. lia.
Qed.

Lemma sliding_alert_is_latest_excess_witness :
  pythonComplete (after 8 (click_play (ready SAMPLE_DATA EmptyString))) = true /\
  latest_alert SAMPLE_DATA 6
    (alertWindow (after 8 (click_play (ready SAMPLE_DATA EmptyString)))).
Proof.
  apply (sliding_alert_is_latest_excess SAMPLE_DATA EmptyString).
  - unfold SAMPLE_DATA, exact_sums, exact_window. repeat split; by vm_compute.
  - vm_compute. lia.
Defined.

End SlidingWindowMore.

Section HeapMore.

Import JsText Heap.

(** Exchanging two cells permutes the array. *)
Lemma swap_Permutation (h : list Job) (i j : nat) (ci cj : Job) :
  h !! i = Some ci -> h !! j = Some cj -> swap h i j ci cj ≡ₚ h.
Proof.
  intros Hi Hj. apply Permutation_inj. split; [apply swap_length|].
  exists (fun k => if decide (k = i) then j
                   else if decide (k = j) then i else k).
  split.
  - intros a b. repeat case_decide; intros; subst; congruence.
  - intros k. rewrite swap_lookup by done.
    repeat case_decide; subst; congruence.
Qed.

Lemma bubbleUp_Permutation (h : list Job) (j : nat) (h' : list Job) :
  bubbleUp h j = Some h' -> h' ≡ₚ h.
Proof.
  functional induction (bubbleUp h j); intros Hrun.
  - by injection Hrun as <-.
  - rewrite (IHo Hrun). by apply swap_Permutation.
  - by injection Hrun as <-.
  - done.
Qed.

Lemma addJobs_submitted (ps : list Priority) :
  forall st st',
    addJobs ps st = Some st' ->
    heap st' ≡ₚ heap st ++ submitted ps (nextJobId st) /\
    nextJobId st' = (nextJobId st + Z.of_nat (length ps))%Z.
Proof.
  induction ps as [|p ps IH]; intros st st' Hrun; simpl in *.
  - injection Hrun as <-. rewrite app_nil_r. split; [done|lia].
  - unfold addJob in Hrun.
    destruct (bubbleUp _ _) as [h1|] eqn:Hb; [|done].
    apply bubbleUp_Permutation in Hb.
    apply IH in Hrun as [Hperm Hnext]. simpl in *.
    split; [|lia]. rewrite Hperm, Hb, <- app_assoc. done.
Qed.

Lemma submitted_ids (ps : list Priority) (k : Z) :
  id <$> submitted ps k = (fun i => (k + Z.of_nat i)%Z) <$> seq 0 (length ps).
Proof.
  revert k. induction ps as [|p ps IH]; intros k; [done|].
  simpl. rewrite IH, Z.add_0_r. f_equal.
  rewrite <- fmap_S_seq, <- list_fmap_compose.
  apply list_fmap_ext. intros _ i _. simpl. lia.
Qed.

(** X8: insertions neither lose nor duplicate a job: after any sequence of
    insertions from the empty heap, the heap is a permutation of the jobs
    submitted, which carry the ids 1, 2, ... in order of submission; the ids
    in the heap are distinct and the next id is one past the last. *)
Theorem heap_holds_submitted_jobs (ps : list Priority) :
  exists st',
    addJobs ps initial_state = Some st' /\
    heap st' ≡ₚ submitted ps 1 /\
    NoDup (id <$> heap st') /\
    nextJobId st' = (1 + Z.of_nat (length ps))%Z.
Proof.
  assert (Hrun : exists st', addJobs ps initial_state = Some st').
  { assert (Hgen : forall st, heap_ordered (heap st) ->
              exists st', addJobs ps st = Some st').
    { induction ps as [|p ps IH]; intros st Hord; simpl; [eauto|].
      destruct (addJob_ordered p st Hord) as (st1 & -> & Hord1 & _).
      by apply IH. }
    apply Hgen. intros i c p _ Hc. by destruct i. }
  destruct Hrun as [st' Hrun]. exists st'. split; [done|].
  apply addJobs_submitted in Hrun as [Hperm Hnext]. simpl in *.
  split; [done|]. split; [|done].
  rewrite Hperm, submitted_ids. apply NoDup_fmap_2; [|apply NoDup_seq].
  intros a b. lia.
Qed.

(** In an ordered heap no job has a higher priority than the root. *)
Lemma heap_ordered_root_max (h : list Job) :
  heap_ordered h ->
  forall (i : nat) (job root : Job),
    h !! i = Some job -> h !! 0 = Some root ->
    (priorityValue job <= priorityValue root)%Z.
Proof.
  intros Hord i. induction i as [i IH] using lt_wf_ind.
  intros job root Hjob Hroot.
  destruct (decide (i = 0)) as [->|Hne]; [by simplify_eq|].
  pose proof (parentIdx_lt i ltac:(lia)) as Hlt.
  destruct (lookup_lt_is_Some_2 h (parentIdx i)) as [parent Hp].
  { apply lookup_lt_Some in Hjob. lia. }
  pose proof (Hord i job parent ltac:(lia) Hjob Hp).
  pose proof (IH (parentIdx i) Hlt parent root Hp Hroot). lia.
Qed.

(** X9: after any sequence of insertions, the job in cell 0, the one that
    [popJob] processes, has the highest priority in the heap. *)
Theorem heap_root_has_highest_priority (ps : list Priority) :
  exists st',
    addJobs ps initial_state = Some st' /\
    forall root job : Job,
      heap st' !! 0 = Some root -> job ∈ heap st' ->
      (priorityValue job <= priorityValue root)%Z.
Proof.
  assert (Hgen : forall st, heap_ordered (heap st) ->
            exists st', addJobs ps st = Some st' /\ heap_ordered (heap st')).
  { induction ps as [|p ps IH]; intros st Hord; simpl; [eauto|].
    destruct (addJob_ordered p st Hord) as (st1 & -> & Hord1 & _).
    by apply IH. }
  destruct (Hgen initial_state) as (st' & Hrun & Hord).
  { intros i c p _ Hc. by destruct i. }
  exists st'. split; [done|]. intros root job Hroot Hin.
  apply list_elem_of_lookup in Hin as [i Hi].
  by apply (heap_ordered_root_max (heap st') Hord i).
Qed.

Lemma descending_unique (l s : list Z) :
  StronglySorted not_below s -> s ≡ₚ l -> descending l = s.
Proof.
  intros Hs Hp. apply (StronglySorted_unique not_below); [|done|].
  - unfold descending. apply StronglySorted_merge_sort; apply _.
  - unfold descending. by rewrite merge_sort_Permutation.
Qed.

Lemma descending_proper (l l' : list Z) :
  l ≡ₚ l' -> descending l = descending l'.
Proof.
  intros Hp. apply descending_unique.
  - unfold descending. apply StronglySorted_merge_sort; apply _.
  - unfold descending. by rewrite merge_sort_Permutation.
Qed.

Lemma insert_job_Permutation (job : Job) (sorted : list Job) :
  insert_job job sorted ≡ₚ job :: sorted.
Proof.
  induction sorted as [|other rest IH]; [done|]. simpl.
  destruct (priorityValue job <? priorityValue other)%Z; [|done].
  rewrite IH. apply perm_swap.
Qed.

Lemma sort_by_priority_Permutation (jobs : list Job) :
  sort_by_priority jobs ≡ₚ jobs.
Proof.
  induction jobs as [|job jobs IH]; [done|]. simpl.
  by rewrite insert_job_Permutation, IH.
Qed.

Lemma insert_job_sorted (job : Job) (sorted : list Job) :
  StronglySorted higher_first sorted ->
  StronglySorted higher_first (insert_job job sorted).
Proof.
  induction 1 as [|other rest Hrest IH Hall]; simpl.
  - by repeat constructor.
  - destruct (Z.ltb_spec (priorityValue job) (priorityValue other)).
    + constructor; [done|]. rewrite insert_job_Permutation.
      constructor; [|done]. unfold higher_first. lia.
    + constructor; [by constructor|]. constructor.
      * unfold higher_first. lia.
      * eapply Forall_impl; [exact Hall|]. unfold higher_first. simpl. lia.
Qed.

Lemma sort_by_priority_sorted (jobs : list Job) :
  StronglySorted higher_first (sort_by_priority jobs).
Proof.
  induction jobs as [|job jobs IH]; [constructor|]. simpl.
  by apply insert_job_sorted.
Qed.

(** The priorities of a list of jobs sorted by the comparator are the
    priorities of the jobs in descending order. *)
Lemma sort_by_priority_values (jobs : list Job) :
  priorityValue <$> sort_by_priority jobs = descending (priorityValue <$> jobs).
Proof.
  symmetry. apply descending_unique.
  - apply (StronglySorted_fmap _ higher_first); [done|].
    apply sort_by_priority_sorted.
  - by rewrite sort_by_priority_Permutation.
Qed.

Lemma insert_desc_Permutation (x : Z) (s : list Z) : insert_desc x s ≡ₚ x :: s.
Proof.
  induction s as [|y s IH]; [done|]. simpl.
  destruct (decide (x <= y)%Z); [|done]. rewrite IH. apply perm_swap.
Qed.

Lemma insert_desc_sorted (x : Z) (s : list Z) :
  StronglySorted not_below s -> StronglySorted not_below (insert_desc x s).
Proof.
  induction 1 as [|y s Hs IH Hall]; simpl; [by repeat constructor|].
  destruct (decide (x <= y)%Z) as [Hle|Hgt].
  - constructor; [done|]. rewrite insert_desc_Permutation.
    by constructor.
  - constructor; [by constructor|]. constructor; [unfold not_below; lia|].
    eapply Forall_impl; [done|]. unfold not_below. intros z ?. simpl in *. lia.
Qed.

Lemma take_insert_desc (x : Z) (s : list Z) :
  forall k : nat,
    k <= length s ->
    (forall i y, i < k -> s !! i = Some y -> (x <= y)%Z) ->
    take k (insert_desc x s) = take k s.
Proof.
  induction s as [|y s IH]; intros k Hk Hge.
  - simpl in Hk. by replace k with 0 by lia.
  - destruct k as [|k]; [done|]. simpl.
    rewrite decide_True by (apply (Hge 0 y); [lia|done]).
    simpl. f_equal. apply IH; [simpl in Hk; lia|].
    intros i z Hi Hz. apply (Hge (S i) z); [lia|done].
Qed.

Lemma filter_not_below_none (x : Z) (l : list Z) :
  Forall (fun y => (y < x)%Z) l -> filter (fun y => (x <= y)%Z) l = [].
Proof.
  induction 1 as [|y l Hy _ IH]; [done|].
  by rewrite filter_cons_False by lia.
Qed.

Lemma filter_not_below_all (x : Z) (l : list Z) :
  Forall (fun y => (x <= y)%Z) l -> filter (fun y => (x <= y)%Z) l = l.
Proof.
  induction 1 as [|y l Hy _ IH]; [done|].
  by rewrite filter_cons_True, IH.
Qed.

(** In a descending list with at least [k] entries not below [x], the first
    [k] entries are not below [x]. *)
Lemma first_entries_not_below (x : Z) (s : list Z) :
  StronglySorted not_below s ->
  forall k : nat,
    k <= length (filter (fun y => (x <= y)%Z) s) ->
    forall i y, i < k -> s !! i = Some y -> (x <= y)%Z.
Proof.
  induction 1 as [|y0 s Hs IH Hall]; intros k Hk i y Hi Hy; [done|].
  destruct (decide (x <= y0)%Z) as [Hle|Hgt].
  - rewrite filter_cons_True in Hk by done. simpl in Hk.
    destruct i as [|i]; [simpl in Hy; simplify_eq; lia|].
    apply (IH (k - 1) ltac:(lia) i y); [lia|done].
  - rewrite filter_cons_False in Hk by done.
    assert (Hnone : filter (fun y => (x <= y)%Z) s = []).
    { apply filter_not_below_none. eapply Forall_impl; [done|].
      unfold not_below. intros z ?. simpl in *. lia. }
    rewrite Hnone in Hk. simpl in Hk. lia.
Qed.

(** An entry that at least [k] others are not below does not change the
    first [k] of the descending order. *)
Lemma top_absorbs (x : Z) (l : list Z) (k : nat) :
  k <= length (filter (fun y => (x <= y)%Z) l) ->
  take k (descending (x :: l)) = take k (descending l).
Proof.
  intros Hk.
  assert (Hs : StronglySorted not_below (descending l))
    by (unfold descending; apply StronglySorted_merge_sort; apply _).
  assert (Hp : descending l ≡ₚ l) by apply merge_sort_Permutation.
  rewrite (descending_unique (x :: l) (insert_desc x (descending l))).
  - rewrite <- Hp in Hk. apply take_insert_desc.
    + pose proof (length_filter (fun y => (x <= y)%Z) (descending l)). lia.
    + by apply first_entries_not_below.
  - by apply insert_desc_sorted.
  - by rewrite insert_desc_Permutation, Hp.
Qed.

Lemma top_ignores_lower (r t b : list Z) :
  (forall x y, x ∈ r -> y ∈ t -> (x <= y)%Z) ->
  take (length t) (descending (t ++ r ++ b))
  = take (length t) (descending (t ++ b)).
Proof.
  induction r as [|x r IH]; intros Hlow; [done|].
  rewrite (descending_proper (t ++ (x :: r) ++ b) (x :: t ++ r ++ b))
    by (simpl; symmetry; apply Permutation_middle).
  rewrite top_absorbs; [apply IH; intros; apply Hlow; set_solver|].
  rewrite filter_app, length_app.
  rewrite (filter_not_below_all x t); [lia|].
  apply Forall_forall. intros y Hy. apply Hlow; set_solver.
Qed.

(** Keeping only the [k] best of a part does not change the [k] best of
    the whole. *)
Lemma top_of_tops (k : nat) (a b : list Z) :
  take k (descending (take k (descending a) ++ b))
  = take k (descending (a ++ b)).
Proof.
  assert (Hs : StronglySorted not_below (descending a))
    by (unfold descending; apply StronglySorted_merge_sort; apply _).
  assert (Hp : descending a ≡ₚ a) by apply merge_sort_Permutation.
  rewrite (descending_proper (a ++ b)
             (take k (descending a) ++ drop k (descending a) ++ b))
    by (by rewrite app_assoc, take_drop, Hp).
  destruct (decide (length (descending a) <= k)) as [Hshort|Hlong].
  - by rewrite drop_ge by done.
  - assert (Hlen : length (take k (descending a)) = k)
      by (rewrite length_take; lia).
    rewrite <- Hlen at 1 3. symmetry. apply top_ignores_lower.
    intros x y Hx Hy. rewrite <- (take_drop k (descending a)) in Hs.
    apply StronglySorted_app in Hs as (Hcross & _ & _).
    by apply (Hcross y x).
Qed.

(** X10: the three priorities the master reports are the three highest
    priorities among all the jobs of the three workers, whatever the jobs
    are: sending only each worker's best three loses nothing; and every job
    the master keeps is a job of one of the workers. *)
Theorem top_k_pushdown (worker1 worker2 worker3 : list Job) :
  priorityValue <$> masterTopK worker1 worker2 worker3
  = priorityValue <$> getTop3 (worker1 ++ worker2 ++ worker3) /\
  priorityValue <$> masterTopK worker1 worker2 worker3
  = take 3 (descending (priorityValue <$> worker1 ++ worker2 ++ worker3)) /\
  forall job, job ∈ masterTopK worker1 worker2 worker3 ->
              job ∈ worker1 ++ worker2 ++ worker3.
Proof.
  assert (Hvals :
    priorityValue <$> masterTopK worker1 worker2 worker3
    = take 3 (descending (priorityValue <$> worker1 ++ worker2 ++ worker3))).
  { unfold masterTopK, getTop3.
    rewrite fmap_take, sort_by_priority_values, !fmap_app, !fmap_take,
      !sort_by_priority_values.
    set (a := priorityValue <$> worker1).
    set (b := priorityValue <$> worker2).
    set (c := priorityValue <$> worker3).
    rewrite top_of_tops.
    rewrite (descending_proper (a ++ take 3 (descending b) ++ take 3 (descending c))
               (take 3 (descending b) ++ take 3 (descending c) ++ a))
      by (by rewrite (comm (++) a), <- app_assoc).
    rewrite top_of_tops.
    rewrite (descending_proper (b ++ take 3 (descending c) ++ a)
               (take 3 (descending c) ++ a ++ b))
      by (by rewrite (comm (++) b), <- app_assoc).
    rewrite top_of_tops.
    apply f_equal, descending_proper.
    by rewrite (comm (++) c), <- app_assoc. }
  split; [|split; [done|]].
  - rewrite Hvals. unfold getTop3.
    by rewrite fmap_take, sort_by_priority_values.
  - unfold masterTopK, getTop3. intros job Hin.
    apply elem_of_take in Hin as (i & Hin & _).
    apply list_elem_of_lookup_2 in Hin.
    rewrite sort_by_priority_Permutation in Hin.
    rewrite !elem_of_app in Hin. rewrite !elem_of_app.
    destruct Hin as [Hin|[Hin|Hin]];
      apply elem_of_take in Hin as (j & Hin & _);
      apply list_elem_of_lookup_2 in Hin;
      rewrite sort_by_priority_Permutation in Hin; auto.
Qed.

End HeapMore.

Section StacksQueuesMore.

Import JsText StacksQueues.

(** The order in which the jobs of a buffer leave it. *)
Lemma process_tick_step (c : config) (j : Z) (js : list Z) :
  isProcessing (current c) = true ->
  match mode (current c) with
  | queue => jobs (current c) = j :: js
  | stack => jobs (current c) = js ++ [j]
  end ->
  let c' := apply_event c ProcessTick in
  jobs (current c') = js /\
  processedJobs (current c') = processedJobs (current c) ++ [Some j] /\
  mode (current c') = mode (current c) /\
  isProcessing (current c') = true /\
  nextJobId (current c') = nextJobId (current c).
Proof.
  intros Hproc Hjobs. simpl. rewrite Hproc. unfold processJob.
  destruct (mode (current c)) eqn:Hmode; rewrite Hjobs.
  - rewrite length_app. simpl.
    rewrite bool_decide_true by lia. rewrite bool_decide_false by lia.
    simpl.
    replace (length js + 1 - 1) with (length js) by lia.
    rewrite take_app_length, lookup_app_r, Nat.sub_diag by lia. done.
  - simpl. by rewrite drop_0.
Qed.

(** X11: with processing switched on, as many firings of the processing
    interval as there are jobs empty the buffer, and the jobs are processed
    first in first out in queue mode and last in first out in stack mode. *)
Theorem buffer_drains_in_mode_order (c : config) :
  isProcessing (current c) = true ->
  let c' := run (replicate (length (jobs (current c))) ProcessTick) c in
  jobs (current c') = [] /\
  processedJobs (current c')
  = processedJobs (current c)
    ++ (Some <$> match mode (current c) with
                 | queue => jobs (current c)
                 | stack => reverse (jobs (current c))
                 end) /\
  nextJobId (current c') = nextJobId (current c).
Proof.
  intros Hproc. simpl.
  remember (length (jobs (current c))) as n eqn:Hn.
  revert c Hproc Hn. induction n as [|n IH]; intros c Hproc Hn.
  - destruct (jobs (current c)) eqn:Hj; [|done]. simpl.
    rewrite Hj. destruct (mode (current c)); simpl; by rewrite app_nil_r.
  - unfold run in *. cbn [replicate foldl].
    destruct (mode (current c)) eqn:Hmode.
    + destruct (jobs (current c)) as [|j js _] eqn:Hj using rev_ind;
        [done|].
      rewrite length_app in Hn. simpl in Hn.
      destruct (process_tick_step c j js Hproc) as (Hjs & Hdone & Hm & Hp & Hid).
      { by rewrite Hmode. }
      destruct (IH (apply_event c ProcessTick) Hp) as (Hempty & Hall & Hnext).
      { rewrite Hjs. lia. }
      split; [done|]. rewrite Hall, Hdone, Hm, Hmode, Hjs, Hnext, Hid.
      split; [|done]. rewrite reverse_snoc, fmap_cons, <- app_assoc. done.
    + destruct (jobs (current c)) as [|j js] eqn:Hj; [done|].
      simpl in Hn.
      destruct (process_tick_step c j js Hproc) as (Hjs & Hdone & Hm & Hp & Hid).
      { by rewrite Hmode. }
      destruct (IH (apply_event c ProcessTick) Hp) as (Hempty & Hall & Hnext).
      { rewrite Hjs. lia. }
      split; [done|]. rewrite Hall, Hdone, Hm, Hmode, Hjs, Hnext, Hid.
      split; [|done]. rewrite fmap_cons, <- app_assoc. done.
Qed.

Lemma buffer_drains_in_mode_order_witness :
  let c := run [ClickToggleMode; ClickAddJob; ClickAddJob; ClickAddJob;
                ClickProcessing] initial_config in
  let c' := run (replicate (length (jobs (current c))) ProcessTick) c in
  jobs (current c') = [] /\
  processedJobs (current c')
  = processedJobs (current c)
    ++ (Some <$> match mode (current c) with
                 | queue => jobs (current c)
                 | stack => reverse (jobs (current c))
                 end) /\
  nextJobId (current c') = nextJobId (current c).
Proof.
  apply (buffer_drains_in_mode_order
           (run [ClickToggleMode; ClickAddJob; ClickAddJob; ClickAddJob;
                 ClickProcessing] initial_config)).
  reflexivity.
Defined.

(** X12: as long as no producer interval fires, the job ids in the buffer
    are strictly increasing, hence distinct, and all below the next id to
    hand out. *)
Theorem job_ids_increase_without_producers (evs : list event) :
  forallb (fun e => negb (is_kafka_tick e)) evs = true ->
  let st := current (run evs initial_config) in
  StronglySorted Z.lt (jobs st) /\
  Forall (fun j => (1 <= j < nextJobId st)%Z) (jobs st) /\
  NoDup (jobs st).
Proof.
  intros Hev. simpl.
  assert (Hinv : StronglySorted Z.lt (jobs (current (run evs initial_config))) /\
                 Forall (fun j => (1 <= j < nextJobId (current (run evs initial_config)))%Z)
                        (jobs (current (run evs initial_config))) /\
                 (1 <= nextJobId (current (run evs initial_config)))%Z).
  { unfold run.
    assert (Hgen : forall c,
               (StronglySorted Z.lt (jobs (current c)) /\
                Forall (fun j => (1 <= j < nextJobId (current c))%Z)
                       (jobs (current c)) /\
                (1 <= nextJobId (current c))%Z) ->
               forallb (fun e => negb (is_kafka_tick e)) evs = true ->
               StronglySorted Z.lt (jobs (current (foldl apply_event c evs))) /\
               Forall (fun j => (1 <= j < nextJobId (current (foldl apply_event c evs)))%Z)
                      (jobs (current (foldl apply_event c evs))) /\
               (1 <= nextJobId (current (foldl apply_event c evs)))%Z).
    { clear Hev. induction evs as [|e evs IH]; intros c Hc Hev; [done|].
      simpl in Hev. apply andb_true_iff in Hev as [He Hev].
      simpl. apply IH; [|done]. clear IH Hev.
      destruct Hc as (Hs & Hall & Hpos).
      destruct e; simpl in *; try done.
      - case_bool_decide; [done|]. unfold addJob.
        rewrite bool_decide_false by done. simpl.
        assert (Hjobs : (match mode (current c) with
                         | stack => jobs (current c) ++ [nextJobId (current c)]
                         | queue => jobs (current c) ++ [nextJobId (current c)]
                         end) = jobs (current c) ++ [nextJobId (current c)])
          by (by destruct (mode (current c))).
        rewrite Hjobs. split; [|split; [|lia]].
        + apply StronglySorted_app_2; [|done|by repeat constructor].
          intros x y Hx ->%list_elem_of_singleton.
          rewrite Forall_forall in Hall. apply Hall in Hx. lia.
        + apply Forall_app. split; [|repeat constructor; lia].
          eapply Forall_impl; [done|]. simpl. lia.
      - destruct (isProcessing (current c) && _); [|done]. simpl.
        unfold processJob. case_bool_decide; [done|]. simpl.
        destruct (mode (current c)).
        + split; [|split; [by apply Forall_take|done]].
          rewrite <- (take_drop (length (jobs (current c)) - 1)) in Hs.
          by apply StronglySorted_app_1_l in Hs.
        + split; [|split; [by apply Forall_drop|done]].
          rewrite <- (take_drop 1) in Hs.
          by apply StronglySorted_app_1_r in Hs.
      - split; [constructor|]. split; [constructor|lia].
      - split; [constructor|]. split; [constructor|lia].
      - by destruct (kafkaTriggered (current c)). }
    apply Hgen; [|done]. simpl. split; [constructor|].
    split; [constructor|lia]. }
  destruct Hinv as (Hs & Hall & _). split; [done|]. split; [done|].
  clear Hall. induction Hs as [|j js Hjs IH Hlt]; constructor; [|done].
  intros Hin. rewrite Forall_forall in Hlt. apply Hlt in Hin. lia.
Qed.

Lemma job_ids_increase_without_producers_witness :
  let st := current (run [ClickAddJob; ClickAddJob; ClickProcessing;
                          ProcessTick; ClickAddJob] initial_config) in
  StronglySorted Z.lt (jobs st) /\
  Forall (fun j => (1 <= j < nextJobId st)%Z) (jobs st) /\
  NoDup (jobs st).
Proof.
  apply (job_ids_increase_without_producers
           [ClickAddJob; ClickAddJob; ClickProcessing; ProcessTick; ClickAddJob]).
  reflexivity.
Defined.

End StacksQueuesMore.

Section ArraysHashingFacts.

Import JsText ArraysHashing.

(** The invariant of the scan, with [data = pre ++ post] and the step at
    the first entry of [post]: the scan ends, and it reports what the
    Snowflake loop would report on [post] without its last entry. *)
Lemma scan_invariant (post : list Z) :
  forall (pre : list Z) (st : state) (fuel : nat),
    data st = pre ++ post -> pythonStep st = length pre ->
    isPlaying st = true -> pythonComplete st = false ->
    foundIndex st = None -> cpuCycles st = length pre ->
    length post < fuel ->
    exists st',
      run fuel st = Some st' /\
      pythonComplete st' = true /\ isPlaying st' = false /\
      data st' = data st /\
      foundIndex st'
      = first_seen_again pre (take (length post - 1) post) (length pre) /\
      cpuCycles st' = pythonStep st' + 1.
Proof.
  induction post as [|x post IH];
    intros pre st fuel Hdata Hstep Hplay Hdone Hfound Hcyc Hfuel;
    (destruct fuel as [|fuel]; [simpl in Hfuel; lia|]);
    simpl run; rewrite Hplay, Hdone; simpl andb; cbv iota; unfold tick.
  - rewrite Hdata, Hstep, app_nil_r. rewrite bool_decide_true by lia.
    eexists. split; [by destruct fuel|]. simpl. rewrite Hcyc. auto.
  - rewrite Hdata, Hstep, length_app. simpl length.
    destruct post as [|y post].
    { rewrite bool_decide_true by (simpl; lia).
      eexists. split; [by destruct fuel|]. simpl. rewrite Hcyc. auto. }
    rewrite bool_decide_false by (simpl; lia).
    unfold isInSet. rewrite lookup_app_r, Nat.sub_diag by lia. simpl lookup.
    rewrite take_app_length.
    replace (length (x :: y :: post) - 1) with (S (length (y :: post) - 1))
      by (simpl; lia).
    cbn [take first_seen_again].
    destruct (decide (x ∈ pre)) as [Hin|Hnin].
    + rewrite !bool_decide_true by done.
      eexists. split; [by destruct fuel|]. simpl. rewrite Hcyc.
      rewrite bool_decide_true by done. auto.
    + rewrite !bool_decide_false by done.
      destruct (IH (pre ++ [x])
                  {| data := pre ++ x :: y :: post; isPlaying := isPlaying st;
                     pythonStep := length pre + 1;
                     pythonComplete := pythonComplete st;
                     foundIndex := foundIndex st;
                     cpuCycles := cpuCycles st + 1;
                     executionLog :=
                       slice_last 5 (executionLog st ++
                                     [LogCheck (length pre) (Some x) false]) |}
                  fuel) as (st' & Hrun & Hres); simpl; try done.
      * by rewrite <- app_assoc.
      * rewrite length_app. simpl. lia.
      * rewrite length_app. simpl. lia.
      * simpl in Hfuel. lia.
      * exists st'. split; [done|].
        rewrite length_app, Nat.add_1_r in Hres. simpl in Hres.
        rewrite ?bool_decide_false by done.
        replace (length post - 0) with (length post) in Hres by lia.
        by replace (length pre + 1) with (S (length pre)) in Hres by lia.
Qed.

(** What one more entry adds to the search for a repeated value. *)
Lemma first_seen_again_snoc (l : list Z) :
  forall (seen : list Z) (x : Z) (i : nat),
    first_seen_again seen (l ++ [x]) i
    = match first_seen_again seen l i with
      | Some k => Some k
      | None => if bool_decide (x ∈ seen ++ l) then Some (i + length l)
                else None
      end.
Proof.
  induction l as [|y l IH]; intros seen x i; simpl.
  - rewrite app_nil_r, Nat.add_0_r. by case_bool_decide.
  - case_bool_decide; [done|]. rewrite IH, <- app_assoc. simpl.
    destruct (first_seen_again (seen ++ [y]) l (S i)); [done|].
    case_bool_decide; [|done]. f_equal. lia.
Qed.

(** X13: the Python scan of the arrays module ends within [N] firings for
    every dataset, counts one CPU cycle per firing, and reports the first
    repeated entry among all entries but the last, which it never inspects;
    the Snowflake step that follows reports the first repeated entry of the
    whole array. So the two agree whenever the scan finds a duplicate, and
    when the scan finds none the Snowflake step finds none either or finds
    one at the last index. *)
Theorem duplicate_scan_skips_last_entry (d : list Z) :
  exists st',
    run (S (length d)) (click_play (ready d)) = Some st' /\
    pythonComplete st' = true /\
    cpuCycles st' = pythonStep st' + 1 /\
    foundIndex st' = first_seen_again [] (take (length d - 1) d) 0 /\
    (forall i, foundIndex st' = Some i ->
               foundIndex (snowflake_find st') = Some i) /\
    (foundIndex st' = None ->
     foundIndex (snowflake_find st') = None \/
     foundIndex (snowflake_find st') = Some (length d - 1)).
Proof.
  destruct (scan_invariant d [] (click_play (ready d)) (S (length d)))
    as (st' & Hrun & Hdone & _ & Hdata & Hfound & Hcyc); try done; [simpl; lia|].
  exists st'. split; [done|]. split; [done|]. split; [done|].
  split; [done|]. simpl in Hfound, Hdata.
  unfold snowflake_find. cbn [foundIndex]. rewrite Hdata, Hfound.
  destruct d as [|x d _] using rev_ind; [simpl; auto|].
  rewrite length_app. simpl length.
  replace (length d + 1 - 1) with (length d) by lia.
  rewrite take_app_length, first_seen_again_snoc. simpl.
  destruct (first_seen_again [] d 0) as [k|]; [by split|].
  split; [done|]. intros _. case_bool_decide; auto.
Qed.

Lemma interleave_filter_index (l : list Z) :
  forall i : nat,
    Nat.even i = true ->
    interleave (filter_index Nat.even i l) (filter_index Nat.odd i l) = l /\
    forall x,
      interleave (filter_index Nat.even i (x :: l))
                 (filter_index Nat.odd i (x :: l)) = x :: l.
Proof.
  induction l as [|y l IH]; intros i Hi.
  - split; [done|]. intros x. simpl.
    by rewrite Hi, <- Nat.negb_even, Hi.
  - split; [by apply IH|]. intros x.
    assert (Hodd : Nat.odd i = false) by (by rewrite <- Nat.negb_even, Hi).
    assert (Hes : Nat.even (S i) = false) by (by rewrite Nat.even_succ).
    assert (Hos : Nat.odd (S i) = true)
      by (by rewrite Nat.odd_succ).
    cbn [filter_index]. rewrite Hi, Hodd, Hes, Hos. cbn [interleave].
    do 2 f_equal. by apply (IH (S (S i))).
Qed.

Lemma filter_index_lengths (l : list Z) :
  forall i : nat,
    Nat.even i = true ->
    length (filter_index Nat.even i l) = (length l + 1) / 2 /\
    length (filter_index Nat.odd i l) = length l / 2 /\
    forall x,
      length (filter_index Nat.even i (x :: l)) = (length l + 2) / 2 /\
      length (filter_index Nat.odd i (x :: l)) = (length l + 1) / 2.
Proof.
  induction l as [|y l IH]; intros i Hi.
  - split; [done|]. split; [done|]. intros x. simpl.
    by rewrite Hi, <- Nat.negb_even, Hi.
  - destruct (IH i Hi) as (_ & _ & Hcons).
    destruct (Hcons y) as [He Ho].
    split; [by rewrite He; simpl length; f_equal; lia|].
    split; [by rewrite Ho; simpl length; f_equal; lia|]. intros x.
    assert (Hodd : Nat.odd i = false) by (by rewrite <- Nat.negb_even, Hi).
    assert (Hes : Nat.even (S i) = false) by (by rewrite Nat.even_succ).
    assert (Hos : Nat.odd (S i) = true)
      by (by rewrite Nat.odd_succ).
    cbn [filter_index]. rewrite Hi, Hodd, Hes, Hos. simpl length.
    destruct (IH (S (S i)) Hi) as (He' & Ho' & _). rewrite He', Ho'.
    split.
    + replace (S (length l) + 2) with (length l + 1 + 1 * 2) by lia.
      rewrite Nat.div_add by lia. lia.
    + replace (S (length l) + 1) with (length l + 1 * 2) by lia.
      rewrite Nat.div_add by lia. lia.
Qed.

(** X14: the two Snowflake partitions, the entries at even and at odd
    indices, together hold the dataset: read alternately they give it back,
    and their sizes are [ceil (N / 2)] and [floor (N / 2)]. *)
Theorem partitions_split_by_parity (d : list Z) :
  interleave (fst (partitions d)) (snd (partitions d)) = d /\
  length (fst (partitions d)) = (length d + 1) / 2 /\
  length (snd (partitions d)) = length d / 2.
Proof.
  unfold partitions. simpl.
  destruct (interleave_filter_index d 0 eq_refl) as [Hi _].
  destruct (filter_index_lengths d 0 eq_refl) as (He & Ho & _).
  done.
Qed.

End ArraysHashingFacts.

Section CrawlerFacts.

Import Graph.

Lemma unvisited_edges_insert (m : gmap string (list string)) (k : string)
  (deps : list string) (vis : gset string) :
  m !! k = None ->
  unvisited_edges (<[k := deps]> m) vis
  = if decide (k ∈ vis) then unvisited_edges m vis
    else length deps + unvisited_edges m vis.
Proof.
  intros Hk. unfold unvisited_edges.
  rewrite map_fold_insert_L; [done| |done].
  intros j1 j2 z1 z2 y _ _ _. repeat case_decide; lia.
Qed.

(** Visiting a node takes its dependencies out of the count. *)
Lemma unvisited_edges_visit (graph : gmap string (list string))
  (vis : gset string) (current : string) :
  current ∉ vis ->
  unvisited_edges graph ({[current]} ∪ vis)
  + length (neighbors_of graph current)
  = unvisited_edges graph vis.
Proof.
  intros Hc. unfold neighbors_of.
  induction graph as [|k deps m Hk IH] using map_ind; [done|].
  rewrite !unvisited_edges_insert by done.
  destruct (decide (k = current)) as [->|Hne].
  - rewrite lookup_insert_eq. simpl. rewrite Hk in IH. simpl in IH.
    rewrite decide_True by set_solver. rewrite decide_False by done. lia.
  - rewrite lookup_insert_ne by done.
    destruct (decide (k ∈ vis)) as [Hin|Hnin].
    + by rewrite decide_True by set_solver.
    + rewrite decide_False by set_solver. lia.
Qed.

(** The loop of the crawler on any graph, from any list of nodes to visit
    and any set of nodes already visited. *)
Lemma crawl_spec (graph : gmap string (list string)) :
  forall (fuel : nat) (toVisit : list string) (vis : gset string),
    length toVisit + unvisited_edges graph vis < fuel ->
    exists order,
      crawl graph fuel toVisit vis = Some order /\
      NoDup order /\
      (forall v, v ∈ order -> v ∉ vis) /\
      (forall v, v ∈ toVisit -> v ∈ vis \/ v ∈ order) /\
      (forall u d, u ∈ order -> d ∈ neighbors_of graph u ->
                   d ∈ vis \/ d ∈ order).
Proof.
  induction fuel as [|fuel IH]; intros toVisit vis Hfuel; [lia|].
  destruct toVisit as [|current toVisit]; simpl.
  { exists []. split; [done|]. split; [constructor|]. set_solver. }
  destruct (decide (current ∈ vis)) as [Hin|Hnin].
  - rewrite bool_decide_true by done.
    destruct (IH toVisit vis) as (order & -> & Hnd & Hfresh & Hcov & Hclo);
      [simpl in Hfuel; lia|].
    exists order. split; [done|]. split; [done|]. split; [done|].
    split; [|done]. intros v [->|Hv]%elem_of_cons; auto.
  - rewrite bool_decide_false by done.
    pose proof (unvisited_edges_visit graph vis current Hnin) as Hw.
    set (deps := neighbors_of graph current) in *.
    set (queue := if bool_decide (0 < length deps)
                  then toVisit ++ filter (fun d => d ∉ {[current]} ∪ vis) deps
                  else toVisit).
    assert (Hq : length queue <= length toVisit + length deps).
    { subst queue. case_bool_decide; [|lia].
      rewrite length_app.
      pose proof (length_filter (fun d => d ∉ {[current]} ∪ vis) deps). lia. }
    assert (Hqin : forall d, d ∈ deps -> d ∉ {[current]} ∪ vis -> d ∈ queue).
    { intros d Hd Hdv. subst queue. rewrite bool_decide_true.
      - apply elem_of_app. right. by apply list_elem_of_filter.
      - destruct deps; [by apply elem_of_nil in Hd|simpl; lia]. }
    assert (Hqsub : forall v, v ∈ toVisit -> v ∈ queue).
    { intros v Hv. subst queue. case_bool_decide; [|done].
      apply elem_of_app. by left. }
    destruct (IH queue ({[current]} ∪ vis))
      as (order & -> & Hnd & Hfresh & Hcov & Hclo);
      [simpl in Hfuel; lia|].
    exists (current :: order). split; [done|]. split.
    { constructor; [|done]. intros Hc. apply Hfresh in Hc. set_solver. }
    split.
    { intros v [->|Hv]%elem_of_cons; [done|]. apply Hfresh in Hv. set_solver. }
    split.
    { intros v [->|Hv]%elem_of_cons; [right; by left|].
      destruct (Hcov v (Hqsub v Hv)) as [Hv'|Hv']; [|right; by right].
      apply elem_of_union in Hv' as [->%elem_of_singleton|Hv']; auto.
      right. by left. }
    intros u d [->|Hu]%elem_of_cons Hd.
    + destruct (decide (d ∈ {[current]} ∪ vis)) as [Hdv|Hdv].
      * apply elem_of_union in Hdv as [->%elem_of_singleton|Hdv]; auto.
        right. by left.
      * destruct (Hcov d (Hqin d Hd Hdv)) as [Hv'|Hv']; [done|].
        right. by right.
    + destruct (Hclo u d Hu Hd) as [Hv'|Hv']; [|right; by right].
      apply elem_of_union in Hv' as [->%elem_of_singleton|Hv']; auto.
      right. by left.
Qed.

(** X15: on every dependency graph, cyclic or not, whose node names are
    not names that a plain object inherits, and from every list of such
    start nodes, the loop of the metadata crawler ends within one iteration
    per start node and per edge; it fetches no node twice, fetches every
    start node, and fetches every dependency of a node it fetched. On the
    graph of the module it makes four calls, for A, B, C and D. *)
Theorem crawler_fetches_each_node_once
  (graph : gmap string (list string)) (toVisit : list string) :
  (plain_names graph toVisit ->
   exists order,
     crawl graph (length toVisit + edge_count graph + 1) toVisit ∅ = Some order /\
     NoDup order /\
     (forall v, v ∈ toVisit -> v ∈ order) /\
     (forall u d, u ∈ order -> d ∈ neighbors_of graph u -> d ∈ order)) /\
  runCrawler = Some ["A"; "B"; "C"; "D"]%string.
Proof.
  split; [|by vm_compute]. intros _.
  destruct (crawl_spec graph (length toVisit + edge_count graph + 1) toVisit ∅)
    as (order & Hrun & Hnd & _ & Hcov & Hclo); [unfold edge_count; lia|].
  exists order. split; [done|]. split; [done|]. split.
  - intros v Hv. destruct (Hcov v Hv) as [Hv'|Hv']; [set_solver|done].
  - intros u d Hu Hd. destruct (Hclo u d Hu Hd) as [Hv'|Hv']; [set_solver|done].
Qed.

Lemma crawler_fetches_each_node_once_witness :
  exists order,
    crawl buildGraph (length ["A"%string] + edge_count buildGraph + 1)
          ["A"%string] ∅ = Some order /\
    NoDup order /\
    (forall v, v ∈ ["A"%string] -> v ∈ order) /\
    (forall u d, u ∈ order -> d ∈ neighbors_of buildGraph u -> d ∈ order).
Proof.
  apply (crawler_fetches_each_node_once buildGraph ["A"%string]).
  split; by vm_compute.
Defined.

End CrawlerFacts.

Section ParseRoundTrip.

Import JsText.
Local Open Scope string_scope.

Lemma digit_value_char (d : N) :
  (d < 10)%N ->
  digit_value 10 (pretty.pretty_N_char d) = Some (Z.of_N d) /\
  is_digit (pretty.pretty_N_char d) = true.
Proof.
  intros Hd.
  assert (d = 0 \/ d = 1 \/ d = 2 \/ d = 3 \/ d = 4 \/ d = 5 \/ d = 6
          \/ d = 7 \/ d = 8 \/ d = 9)%N as Hcases by lia.
  repeat (destruct Hcases as [->|Hcases]; [by vm_compute|]).
  subst. by vm_compute.
Qed.

(** The digits that [pretty] puts in front of [s] are read back by
    [parse_digits]. *)
Lemma parse_digits_pretty_go (x : N) :
  forall s : string,
    (0 < x)%N ->
    parse_digits 10 (pretty.pretty_N_go x s) None
    = parse_digits 10 s (Some (Z.of_N x)) /\
    (all_digits s = true -> all_digits (pretty.pretty_N_go x s) = true) /\
    pretty.pretty_N_go x s <> EmptyString.
Proof.
  induction (N.lt_wf_0 x) as [x _ IH]. intros s Hx.
  rewrite pretty.pretty_N_go_step by done.
  destruct (digit_value_char (x `mod` 10)%N) as [Hval Hdig];
    [by apply N.mod_lt|].
  destruct (decide (x < 10)%N) as [Hsmall|Hbig].
  - rewrite N.div_small by done. rewrite pretty.pretty_N_go_0.
    rewrite N.mod_small in * by done. cbn [parse_digits all_digits].
    rewrite Hval, Hdig. simpl. split; [done|]. split; [done|]. done.
  - destruct (IH (x `div` 10)%N) with (s := String (pretty.pretty_N_char (x `mod` 10)) s)
      as (Hparse & Hall & Hne).
    + apply N.div_lt; lia.
    + apply N.div_str_pos. lia.
    + split; [|split; [|done]].
      * rewrite Hparse. cbn [parse_digits]. rewrite Hval. cbn [default].
        unfold id.
        replace (Z.of_N (x `div` 10) * 10 + Z.of_N (x `mod` 10))%Z
          with (Z.of_N x); [done|].
        pose proof (N.div_mod x 10 ltac:(lia)). lia.
      * intros Hs. apply Hall. cbn [all_digits]. by rewrite Hdig, Hs.
Qed.

(** An ASCII character that is not white space starts no white space. *)
Lemma trimStart_plain (c : ascii) (s : string) :
  (code c < 128)%Z -> is_white c = false ->
  trimStart (String c s) = String c s.
Proof.
  intros Hc Hw.
  assert (Hlen : white_length (String c s) = 0).
  { unfold white_length, is_white2, is_white3. rewrite Hw.
    replace (code c =? 194)%Z with false by (symmetry; apply Z.eqb_neq; lia).
    replace (code c =? 225)%Z with false by (symmetry; apply Z.eqb_neq; lia).
    replace (code c =? 226)%Z with false by (symmetry; apply Z.eqb_neq; lia).
    replace (code c =? 227)%Z with false by (symmetry; apply Z.eqb_neq; lia).
    replace (code c =? 239)%Z with false by (symmetry; apply Z.eqb_neq; lia).
    by destruct s as [|c2 [|c3 s']]. }
  cbn [trimStart]. by rewrite Hlen.
Qed.

Lemma trimStart_space (s : string) :
  trimStart (String " " s) = trimStart s.
Proof.
  assert (Hlen : white_length (String " " s) = 1)
    by (by destruct s as [|c2 [|c3 s']]).
  cbn [trimStart]. by rewrite Hlen.
Qed.

Lemma digit_plain (c : ascii) :
  is_digit c = true ->
  (code c < 128)%Z /\ is_white c = false /\ Ascii.eqb c "," = false.
Proof.
  destruct c as [[] [] [] [] [] [] [] []]; intros Hc; try discriminate Hc;
    by vm_compute.
Qed.

(** A text of digits has nothing to trim and no comma. *)
Lemma digits_plain (s : string) :
  all_digits s = true ->
  trimStart s = s /\ trimEnd s = s /\ has_char "," s = false.
Proof.
  induction s as [|c s IH]; [done|]. cbn [all_digits].
  intros [Hc Hs]%andb_true_iff. destruct (IH Hs) as (_ & Htrim & Hcomma).
  destruct (digit_plain c Hc) as (Hascii & Hwhite & Hsep).
  pose proof (trimStart_plain c s Hascii Hwhite) as Hstart.
  split; [done|]. cbn [trimEnd has_char]. rewrite Hstart, Htrim, Hsep, Hcomma.
  done.
Qed.

(** A non-empty text of digits has no sign and no hexadecimal prefix. *)
Lemma digits_unsigned (s : string) :
  s <> EmptyString -> all_digits s = true ->
  sign_of s = 1%Z /\ strip_sign s = s /\ radix_of s = 10%Z /\
  strip_prefix s = s.
Proof.
  intros Hne Hall. destruct s as [|c s]; [done|]. clear Hne.
  cbn [all_digits] in Hall. apply andb_true_iff in Hall as [Hc Hs].
  destruct c as [[] [] [] [] [] [] [] []]; try discriminate Hc; try done.
  destruct s as [|c2 s]; [done|].
  cbn [all_digits] in Hs. apply andb_true_iff in Hs as [Hc2 _].
  destruct c2 as [[] [] [] [] [] [] [] []]; try discriminate Hc2; done.
Qed.

(** The shape of the decimal digits of [n]: digits that spell the absolute
    value, after a minus sign when [n] is negative. *)
Lemma pretty_shape (n : Z) :
  exists digits : string,
    digits <> EmptyString /\ all_digits digits = true /\
    parse_digits 10 digits None = Some (Z.abs n) /\
    pretty n = if (n <? 0)%Z then String "-" digits else digits.
Proof.
  assert (Hpos : forall p : positive,
             pretty.pretty_N_go (N.pos p) EmptyString <> EmptyString /\
             all_digits (pretty.pretty_N_go (N.pos p) EmptyString) = true /\
             parse_digits 10 (pretty.pretty_N_go (N.pos p) EmptyString) None
             = Some (Z.pos p)).
  { intros p.
    destruct (parse_digits_pretty_go (N.pos p) EmptyString) as (Hparse & Hall & Hne);
      [lia|].
    split; [done|]. split; [by apply Hall|]. by rewrite Hparse. }
  destruct n as [|p|p].
  - exists "0". by vm_compute.
  - exists (pretty.pretty_N_go (N.pos p) EmptyString).
    destruct (Hpos p) as (Hne & Hall & Hparse). by repeat split.
  - exists (pretty.pretty_N_go (N.pos p) EmptyString).
    destruct (Hpos p) as (Hne & Hall & Hparse). by repeat split.
Qed.

(** What [handleParse] makes of one token of a joined text: the number,
    whether or not a space precedes it; and the token holds no comma. *)
Lemma token_reads_back (n : Z) :
  (Z.abs n <= 2 ^ 53)%Z ->
  number_to_string n = Some (pretty n) /\
  parseInt (trim (pretty n)) = Some n /\
  parseInt (trim (String " " (pretty n))) = Some n /\
  has_char "," (pretty n) = false.
Proof.
  intros Hn. split.
  { unfold number_to_string. by rewrite (proj2 (Z.leb_le _ _) Hn). }
  destruct (pretty_shape n) as (digits & Hne & Hall & Hparse & ->).
  destruct (digits_plain digits Hall) as (Hstart & Hend & Hcomma).
  destruct (digits_unsigned digits Hne Hall) as (Hsign & Hstrip & Hradix & Hprefix).
  assert (Htrim : forall t, trimStart t = t -> trimEnd t = t ->
                            trim t = t /\ trim (String " " t) = t).
  { intros t Ht1 Ht2. unfold trim. rewrite trimStart_space. by rewrite Ht1, Ht2. }
  destruct (n <? 0)%Z eqn:Hneg.
  - apply Z.ltb_lt in Hneg.
    assert (Hminus : trimStart (String "-" digits) = String "-" digits)
      by (by apply trimStart_plain; vm_compute).
    destruct (Htrim (String "-" digits)) as [-> ->]; [done| |].
    { cbn [trimEnd]. by rewrite Hminus, Hend. }
    assert (Hread : parseInt (String "-" digits) = Some n).
    { unfold parseInt. rewrite Hminus. cbn [strip_sign sign_of].
      rewrite Hradix, Hprefix, Hparse. f_equal.
      rewrite to_double_exact by lia. lia. }
    by rewrite Hread.
  - apply Z.ltb_ge in Hneg.
    destruct (Htrim digits Hstart Hend) as [-> ->].
    assert (Hread : parseInt digits = Some n).
    { unfold parseInt. rewrite Hstart, Hstrip, Hsign, Hradix, Hprefix, Hparse.
      f_equal. rewrite to_double_exact by lia. lia. }
    by rewrite Hread.
Qed.

(** [split] cuts a text at the first separator. *)
Lemma split_at_first (sep : ascii) (s rest : string) :
  has_char sep s = false ->
  split sep s = [s] /\
  split sep (s +:+ String sep rest) = s :: split sep rest.
Proof.
  induction s as [|c s IH]; intros Hs.
  - split; [done|]. simpl. by rewrite Ascii.eqb_refl.
  - cbn [has_char] in Hs. apply orb_false_iff in Hs as [Hc Hs].
    destruct (IH Hs) as [IH1 IH2].
    split.
    + cbn [split]. by rewrite Hc, IH1.
    + change (String c s +:+ String sep rest)
        with (String c (s +:+ String sep rest)).
      cbn [split]. by rewrite Hc, IH2.
Qed.

(** The text of a joined list of numbers up to 2^53 in magnitude. *)
Lemma join_numbers_safe (d : list Z) :
  Forall (fun n => (Z.abs n <= 2 ^ 53)%Z) d ->
  join_numbers d = Some (String.concat ", " (pretty <$> d)).
Proof.
  intros Hd. unfold join_numbers.
  assert (Hmap : mapM number_to_string d = Some (pretty <$> d)).
  { induction Hd as [|n d Hn _ IH]; [done|]. cbn [mapM].
    destruct (token_reads_back n Hn) as [-> _]. rewrite IH. done. }
  by rewrite Hmap.
Qed.

(** The tokens of a joined text read back as the numbers joined, also when
    a space precedes the text. *)
Lemma joined_tokens (d : list Z) :
  d <> [] -> Forall (fun n => (Z.abs n <= 2 ^ 53)%Z) d ->
  omap (fun t => parseInt (trim t))
       (split "," (String.concat ", " (pretty <$> d))) = d /\
  omap (fun t => parseInt (trim t))
       (split "," (String " " (String.concat ", " (pretty <$> d)))) = d.
Proof.
  induction d as [|n d IH]; [done|]. intros _ Hd.
  apply Forall_cons in Hd as [Hn Hd].
  destruct (token_reads_back n Hn) as (_ & Hplain & Hspace & Hcomma).
  destruct d as [|m d].
  - change (String.concat ", " (pretty <$> [n])) with (pretty n).
    destruct (split_at_first "," (pretty n) EmptyString Hcomma)
      as [Hsplit _].
    destruct (split_at_first "," (String " " (pretty n)) EmptyString)
      as [Hsplit' _]; [by simpl|].
    rewrite Hsplit, Hsplit'. cbn [omap list_omap]. by rewrite Hplain, Hspace.
  - destruct IH as [_ IH]; [done|done|].
    change (String.concat ", " (pretty <$> n :: m :: d))
      with (pretty n
            +:+ String "," (String " " (String.concat ", " (pretty <$> m :: d)))).
    destruct (split_at_first "," (pretty n)
                (String " " (String.concat ", " (pretty <$> m :: d))) Hcomma)
      as [_ Hsplit].
    destruct (split_at_first "," (String " " (pretty n))
                (String " " (String.concat ", " (pretty <$> m :: d))))
      as [_ Hsplit']; [by simpl|].
    change (String " " (pretty n
              +:+ String "," (String " " (String.concat ", " (pretty <$> m :: d)))))
      with (String " " (pretty n)
            +:+ String "," (String " " (String.concat ", " (pretty <$> m :: d)))).
    rewrite Hsplit, Hsplit'. cbn [omap list_omap].
    rewrite Hplain, Hspace.
    by rewrite IH.
Qed.

(** X16: the text a module starts with is its dataset joined with ", ", and
    parsing a joined text gives the numbers back, for every list [d] of
    integers of at most 2^53 in magnitude (above, numbers are not written
    with all their digits, nor read exactly). So Set Data on the joined
    text of such a list, when it is not empty, raises no alert and installs
    the list in the sliding-window module, and its ascending sort in the
    two-pointers module. *)
Theorem parse_reads_back_joined_numbers (d : list Z) :
  (join_numbers SlidingWindow.SAMPLE_DATA
   = Some (SlidingWindow.inputStr SlidingWindow.mount) /\
   join_numbers TwoPointers.SAMPLE_DATA
   = Some (TwoPointers.inputStr TwoPointers.mount)) /\
  (Forall (fun n => (Z.abs n <= 2 ^ 53)%Z) d ->
   exists text,
     join_numbers d = Some text /\
     parse_numbers text = d /\
     forall (sw : SlidingWindow.state) (tp : TwoPointers.state),
       d <> [] ->
       (let sw' := SlidingWindow.handleParse
                     (SlidingWindow.setInputStr text sw) in
        SlidingWindow.data (fst sw') = d /\ snd sw' = None) /\
       (let tp' := TwoPointers.handleParse
                     (TwoPointers.setInputStr text tp) in
        TwoPointers.data (fst tp') = TwoPointers.sort_ascending d /\
        snd tp' = None)).
Proof.
  split; [split; by vm_compute|]. intros Hd.
  exists (String.concat ", " (pretty <$> d)).
  split; [by apply join_numbers_safe|].
  assert (Hround : parse_numbers (String.concat ", " (pretty <$> d)) = d).
  { destruct (parse_numbers_tokens (String.concat ", " (pretty <$> d)))
      as [-> _].
    destruct d as [|n d']; [done|]. by apply joined_tokens. }
  split; [done|]. intros sw tp Hne.
  unfold SlidingWindow.handleParse, TwoPointers.handleParse.
  destruct sw, tp. cbn [SlidingWindow.setInputStr SlidingWindow.inputStr
                        TwoPointers.setInputStr TwoPointers.inputStr].
  rewrite Hround. rewrite !bool_decide_false by (by destruct d). done.
Qed.

Lemma parse_reads_back_joined_numbers_witness :
  exists text,
    join_numbers SlidingWindow.SAMPLE_DATA = Some text /\
    parse_numbers text = SlidingWindow.SAMPLE_DATA /\
    forall (sw : SlidingWindow.state) (tp : TwoPointers.state),
      SlidingWindow.SAMPLE_DATA <> [] ->
      (let sw' := SlidingWindow.handleParse
                    (SlidingWindow.setInputStr text sw) in
       SlidingWindow.data (fst sw') = SlidingWindow.SAMPLE_DATA /\
       snd sw' = None) /\
      (let tp' := TwoPointers.handleParse
                    (TwoPointers.setInputStr text tp) in
       TwoPointers.data (fst tp')
       = TwoPointers.sort_ascending SlidingWindow.SAMPLE_DATA /\
       snd tp' = None).
Proof.
  apply (parse_reads_back_joined_numbers SlidingWindow.SAMPLE_DATA).
  unfold SlidingWindow.SAMPLE_DATA. repeat constructor; by vm_compute.
Defined.

End ParseRoundTrip.

Section RecursionFacts.

Import JsText Recursion.

Variable bom : gmap string BOMNode.
Variable root : string.

Lemma level_rows_level (k : nat) :
  Forall (fun r => level r = k) (level_rows bom root k).
Proof.
  destruct k as [|k]; [by repeat constructor|].
  cbn [level_rows]. unfold child_rows.
  apply Forall_forall. intros r Hr.
  apply list_elem_of_bind in Hr as (r0 & Hr & _).
  apply list_elem_of_fmap in Hr as (child & -> & _). simpl. lia.
Qed.

Lemma rows_below_S (k : nat) :
  rows_below bom root (S k) = rows_below bom root k ++ level_rows bom root k.
Proof.
  unfold rows_below. rewrite seq_S, fmap_app, concat_app. simpl.
  by rewrite app_nil_r.
Qed.

Lemma rows_below_level (k : nat) :
  Forall (fun r => level r < k) (rows_below bom root k).
Proof.
  induction k as [|k IH]; [by constructor|].
  rewrite rows_below_S. apply Forall_app. split.
  - eapply Forall_impl; [exact IH|]. simpl. lia.
  - eapply Forall_impl; [apply level_rows_level|]. simpl. lia.
Qed.

(** The rows of depth [k] are the ones the callback selects when the local
    array holds the depths up to [k]. *)
Lemma filter_rows_below (k : nat) :
  filter (fun r => level r = k) (rows_below bom root (S k))
  = level_rows bom root k.
Proof.
  rewrite rows_below_S, filter_app.
  assert (Hnone : forall l, Forall (fun r => level r < k) l ->
                            filter (fun r => level r = k) l = []).
  { induction 1 as [|r l Hr _ IH]; [done|].
    rewrite filter_cons_False by lia. done. }
  assert (Hall : forall l, Forall (fun r => level r = k) l ->
                           filter (fun r => level r = k) l = l).
  { induction 1 as [|r l Hr _ IH]; [done|].
    rewrite filter_cons_True by done. by rewrite IH. }
  rewrite Hnone by apply rows_below_level.
  rewrite Hall by apply level_rows_level. done.
Qed.

(** The callback at depth [k], the local array holding the depths up to
    [k]: an empty depth ends the query, another one is shown and its
    children are pushed. *)
Lemma cte_tick_level (k : nat) (st : state) :
  cte_tick bom {| levels := rows_below bom root (S k); currentLevel := k |} st
  = if bool_decide (level_rows bom root k = []) then
      ({| levels := rows_below bom root (S k); currentLevel := k |},
       {| sqlLevel := k; sqlResults := sqlResults st;
          sqlTriggered := sqlTriggered st;
          executionLog := slice_last 6 (executionLog st ++ [LogCteComplete]) |},
       false)
    else
      ({| levels := rows_below bom root (S (S k)); currentLevel := S k |},
       {| sqlLevel := k; sqlResults := rows_below bom root (S k);
          sqlTriggered := sqlTriggered st;
          executionLog :=
            slice_last 6 (executionLog st
                          ++ [LogLevel (S k) (length (level_rows bom root k))]) |},
       true).
Proof.
  unfold cte_tick. cbn [levels currentLevel]. rewrite filter_rows_below.
  destruct (level_rows bom root k) as [|r rows] eqn:Hrows.
  - by rewrite !bool_decide_true by done.
  - rewrite !bool_decide_false by done.
    rewrite (rows_below_S (S k)). cbn [level_rows]. rewrite Hrows.
    by rewrite Nat.add_1_r.
Qed.

Lemma cte_run_S (fuel : nat) (l : locals) (st : state) :
  cte_run (S fuel) bom l st
  = match cte_tick bom l st with
    | (l', st', true) => cte_run fuel bom l' st'
    | (_, st', false) => Some st'
    end.
Proof. done. Qed.

(** While the depths are not empty the interval stays set. *)
Lemma cte_run_going (j : nat) :
  forall (k : nat) (st : state),
    (forall i, i < k + j -> level_rows bom root i <> []) ->
    cte_run j bom {| levels := rows_below bom root (S k); currentLevel := k |} st
    = None.
Proof.
  induction j as [|j IH]; intros k st Hfull; [done|].
  rewrite cte_run_S, cte_tick_level.
  rewrite bool_decide_false by (apply Hfull; lia).
  apply IH. intros i Hi. apply Hfull. lia.
Qed.

(** From depth [k] on, the query ends at the first empty depth [k + j]. *)
Lemma cte_run_ends (j : nat) :
  forall (k : nat) (st : state),
    (forall i, i < k + j -> level_rows bom root i <> []) ->
    level_rows bom root (k + j) = [] ->
    sqlResults st = rows_below bom root k ->
    exists st',
      cte_run (S j) bom
        {| levels := rows_below bom root (S k); currentLevel := k |} st
      = Some st' /\
      sqlLevel st' = k + j /\
      sqlResults st' = rows_below bom root (k + j) /\
      sqlTriggered st' = sqlTriggered st /\
      last (executionLog st') = Some LogCteComplete.
Proof.
  induction j as [|j IH]; intros k st Hfull Hempty Hres.
  - rewrite Nat.add_0_r in *. rewrite cte_run_S, cte_tick_level.
    rewrite bool_decide_true by done. eexists. split; [done|].
    cbn [sqlLevel sqlResults sqlTriggered executionLog].
    repeat split; try done. apply slice_last_last.
  - rewrite cte_run_S, cte_tick_level.
    rewrite bool_decide_false by (apply Hfull; lia).
    match goal with
    | |- context [cte_run (S j) bom _ ?s] =>
        destruct (IH (S k) s) as (st' & Hrun & Hlevel & Hrows & Htrig & Hlog)
    end.
    + intros i Hi. apply Hfull. lia.
    + by replace (S k + j) with (k + S j) by lia.
    + done.
    + exists st'. split; [exact Hrun|].
      replace (k + S j) with (S k + j) by lia. done.
Qed.

(** X17: the recursive query gathers the hierarchy depth by depth. When
    [n] is the first depth with no rows, the interval is still set after [n]
    callbacks, and callback [n + 1] ends the query: the results are then the
    rows of the depths [0 .. n - 1] in that order, the level shown is [n],
    one more than the deepest row's, and the log ends with the completion
    entry. *)
Theorem cte_collects_levels (n : nat) :
  (forall k, k < n -> level_rows bom root k <> []) ->
  level_rows bom root n = [] ->
  runSnowflakeCTE_on bom root n = None /\
  exists st',
    runSnowflakeCTE_on bom root (S n) = Some st' /\
    sqlLevel st' = n /\
    sqlResults st' = rows_below bom root n /\
    sqlTriggered st' = true /\
    last (executionLog st') = Some LogCteComplete.
Proof.
  intros Hfull Hempty. unfold runSnowflakeCTE_on.
  change [{| level := 0; node := root; parent := None |}]
    with (rows_below bom root 1).
  split.
  - apply cte_run_going. done.
  - apply (cte_run_ends n 0); done.
Qed.

End RecursionFacts.

(** The engine's bill of materials has three depths of parts: seven rows,
    each under its parent. *)
Lemma engine_rows :
  Recursion.rows_below Recursion.BOM_DATA "Engine" 3
  = [Recursion.Build_row 0 "Engine" None;
     Recursion.Build_row 1 "Block" (Some "Engine");
     Recursion.Build_row 1 "Piston" (Some "Engine");
     Recursion.Build_row 2 "Liner" (Some "Block");
     Recursion.Build_row 2 "Bearing" (Some "Block");
     Recursion.Build_row 2 "Ring" (Some "Piston");
     Recursion.Build_row 2 "Pin" (Some "Piston")]%string.
Proof. by vm_compute. Qed.

Lemma cte_collects_levels_witness :
  Recursion.runSnowflakeCTE 3 = None /\
  exists st',
    Recursion.runSnowflakeCTE 4 = Some st' /\
    Recursion.sqlLevel st' = 3 /\
    Recursion.sqlResults st'
    = Recursion.rows_below Recursion.BOM_DATA "Engine" 3 /\
    Recursion.sqlTriggered st' = true /\
    last (Recursion.executionLog st') = Some Recursion.LogCteComplete.
Proof.
  apply (cte_collects_levels Recursion.BOM_DATA "Engine" 3).
  - intros k Hk. destruct k as [|[|[|k]]]; [by vm_compute..|lia].
  - by vm_compute.
Defined.
